(** * mkdb storage engine: B+-tree pages, page codec and file store

    A shallow embedding of [storage/page.go] and the properties of its
    node operations, page codec, stores and flush path, followed by the
    token tables and the token list of [sql/scanner.go].

    Conventions of the embedding
    - Go's fixed-width unsigned integers ([uint16], [uint32], [uint64]) and
      [int] are integers in [Z]; every conversion that can truncate
      ([uint16(len(n.cells))], [uint16(pageSize - ...)]) is written out with
      its modulus.
    - A [[]byte] is a [list byte].
    - A slice of cell pointers ([[]*leafNodeCell]) is a list of optional
      cells: [None] is the nil pointer left behind by [make].
    - A Go function that can panic returns in the [go] monad; a function
      with a pointer receiver returns the receiver's new state next to the
      [error] it returns. *)

From stdpp Require Import base list sorting gmap strings.
From Equations Require Import Equations.
From Stdlib Require Import ZArith Lia.
From Stdlib.Strings Require Import Byte.

Open Scope Z_scope.

(** ** The Go runtime fragment used by the package *)

(** A computation either returns or panics (index out of range, nil
    dereference, explicit [panic]). *)
Inductive go (A : Type) : Type :=
| Ret (a : A)
| Panic.
Arguments Ret {A} a.
Arguments Panic {A}.

#[global] Instance go_ret : MRet go := fun _ a => Ret a.
#[global] Instance go_bind : MBind go := fun _ _ f m =>
  match m with
  | Ret a => f a
  | Panic => Panic
  end.

(** The [error] values the package produces. *)
Inductive error : Type :=
| ErrRowTooLarge
| ErrLRUCacheFull
| ErrRecordNotFound (key : Z)
| ErrDecodeType (want got : Z)
| ErrEOF
| ErrUnexpectedEOF
| ErrIO.

(** [a[i]] for an [int] index: panics out of range. *)
Definition index {A : Type} (l : list A) (i : Z) : go A :=
  if decide (0 ≤ i) then
    match l !! Z.to_nat i with
    | Some x => Ret x
    | None => Panic
    end
  else Panic.

(** Dereferencing a possibly nil pointer. *)
Definition deref {A : Type} (p : option A) : go A :=
  match p with
  | Some x => Ret x
  | None => Panic
  end.

(** [len(l)] as an [int]. *)
Definition len {A : Type} (l : list A) : Z := Z.of_nat (length l).

Definition uint16 (z : Z) : Z := z mod 65536.
Definition uint32 (z : Z) : Z := z mod 4294967296.
Definition uint64 (z : Z) : Z := z mod 18446744073709551616.

(** ** Constants *)

Definition InternalNode : Z := 0.
Definition LeafNode : Z := 1.

Definition pageSize : Z := 4096.
Definition internalNodeHeaderSize : Z := 1 + 8 + 8 + 8 + 4 + 2.
Definition leafNodeHeaderSize : Z := 1 + 8 + 8 + 1 + 1 + 8 + 8 + 4 + 2.
Definition offsetElemSize : Z := 2.
Definition internalNodeCellSize : Z := 4 + 8.
Definition maxValueSize : Z := 400.
Definition leafNodeCellSize : Z := 4 + 1 + 4 + maxValueSize.
Definition maxInternalNodeCells : Z :=
  (pageSize - internalNodeHeaderSize) ÷ (offsetElemSize + internalNodeCellSize).
Definition maxLeafNodeCells : Z :=
  (pageSize - leafNodeHeaderSize) ÷ (offsetElemSize + leafNodeCellSize).

Definition checkRowSizeLimit (value : list byte) : option error :=
  if decide (len value > maxValueSize) then Some ErrRowTooLarge else None.

(** ** Nodes *)

Record internalNodeCell : Type := mkInternalCell {
  inc_key : Z;
  inc_fileOffset : Z
}.

(** The [pg] field of the Go struct is never read or written in this file
    and is left out. *)
Record leafNodeCell : Type := mkLeafCell {
  lnc_key : Z;
  lnc_valueSize : Z;
  lnc_valueBytes : list byte;
  lnc_deleted : bool
}.

Record node : Type := mkNode {
  fileOffset : Z;
  offsets : list Z;
  freeSize : Z;
  dirty : bool;
  lastLSN : Z
}.

Definition set_offsets (n : node) (o : list Z) : node :=
  mkNode (fileOffset n) o (freeSize n) (dirty n) (lastLSN n).

Definition markDirty (n : node) (lsn : Z) : node :=
  mkNode (fileOffset n) (offsets n) (freeSize n) true lsn.

Definition markClean (n : node) : node :=
  mkNode (fileOffset n) (offsets n) (freeSize n) false (lastLSN n).

Definition isDirty (n : node) : bool := dirty n.
Definition getFileOffset (n : node) : Z := fileOffset n.

Definition setFileOffset (n : node) (offset : Z) : node :=
  mkNode offset (offsets n) (freeSize n) (dirty n) (lastLSN n).

Definition getLastLSN (n : node) : Z := lastLSN n.

Record internalNode : Type := mkInternal {
  in_node : node;
  in_cells : list (option internalNodeCell);
  rightOffset : Z
}.

Record leafNode : Type := mkLeaf {
  ln_node : node;
  ln_cells : list (option leafNodeCell);
  hasLSib : bool;
  hasRSib : bool;
  lSibFileOffset : Z;
  rSibFileOffset : Z
}.

(** ** Binary search over the slot array

    [internalNode.findCellOffsetByKey] and [leafNode.findCellOffsetByKey]
    have the same body; the loop is written once over the receiver's
    [offsets] and [cellKey]. *)

Section search.
Variable offs : list Z.
Variable cellKey : Z → go Z.
Variable key : Z.

Equations? searchLoop (low high : Z) : go (Z * bool)
  by wf (Z.to_nat (high - low + 1)) lt :=
searchLoop low high with decide (low ≤ high) := {
  | right _ := Ret (low, false)
  | left _ with index offs (low + (high - low) ÷ 2) := {
    | Panic := Panic
    | Ret off with cellKey off := {
      | Panic := Panic
      | Ret midVal with decide (midVal = key) := {
        | left _ := Ret (low + (high - low) ÷ 2, true)
        | right _ with decide (midVal < key) := {
          | left _ := searchLoop (low + (high - low) ÷ 2 + 1) high
          | right _ := searchLoop low (low + (high - low) ÷ 2 - 1) } } } } }.
Proof.
  all: assert (0 ≤ (high - low) ÷ 2 ≤ high - low)
    by (split; [apply Z.quot_pos; lia | apply Z.quot_le_upper_bound; lia]);
    lia.
Qed.

Definition search : go (Z * bool) := searchLoop 0 (len offs - 1).
End search.

Definition internalNode_cellKey (n : internalNode) (offset : Z) : go Z :=
  p ← index (in_cells n) offset; c ← deref p; mret (inc_key c).

Definition internalNode_findCellOffsetByKey (n : internalNode) (key : Z)
  : go (Z * bool) :=
  search (offsets (in_node n)) (internalNode_cellKey n) key.

Definition leafNode_cellKey (n : leafNode) (offset : Z) : go Z :=
  p ← index (ln_cells n) offset; c ← deref p; mret (lnc_key c).

Definition leafNode_findCellOffsetByKey (n : leafNode) (key : Z)
  : go (Z * bool) :=
  search (offsets (ln_node n)) (leafNode_cellKey n) key.

(** A [for] loop whose body can return early with an error: the loop stops
    at the first iteration that returns a non-nil error. *)
Fixpoint forEach {S I : Type} (body : I → S → go (S * option error))
    (xs : list I) (s : S) : go (S * option error) :=
  match xs with
  | [] => Ret (s, None)
  | i :: xs' =>
      r ← body i s;
      match r.2 with
      | Some _ => Ret r
      | None => forEach body xs' r.1
      end
  end.

(** ** Internal nodes *)

Definition internalNode_set_offsets (n : internalNode) (o : list Z)
  : internalNode :=
  mkInternal (set_offsets (in_node n) o) (in_cells n) (rightOffset n).

Definition internalNode_set_cells (n : internalNode)
    (c : list (option internalNodeCell)) : internalNode :=
  mkInternal (in_node n) c (rightOffset n).

Definition internalNode_setRightMostKey (n : internalNode) (fileOffset : Z)
  : internalNode :=
  mkInternal (in_node n) (in_cells n) fileOffset.

Definition internalNode_appendCell (n : internalNode) (key fileOffset : Z)
  : internalNode * option error :=
  let offset := len (offsets (in_node n)) in
  let n := internalNode_set_offsets n (offsets (in_node n) ++ [uint16 offset]) in
  let n := internalNode_set_cells n
             (in_cells n ++ [Some (mkInternalCell key fileOffset)]) in
  (n, None).

(** [append(s[:i+1], s[i:]...)]: for [0 <= i < len(s)] both slice
    expressions are in range and the result is [s] with [s[i]] doubled. *)
Definition openSlot (s : list Z) (i : Z) : list Z :=
  take (Z.to_nat (i + 1)) s ++ drop (Z.to_nat i) s.

(** [insertCell]. With [offset >= len(n.offsets)] the call always panics:
    [n.offsets[offset:]] is out of range when [offset > len], and for
    [offset = len] either the re-slice [n.offsets[:offset+1]] exceeds the
    capacity or, later, [n.offsets[offset+1]] is out of range.

    The tuple assignment evaluates both cell pointers and both right-hand
    values first and then assigns left to right. *)
Definition internalNode_insertCell (n : internalNode)
    (offset key fileOffset : Z) : go (internalNode * option error) :=
  if decide (0 ≤ offset < len (offsets (in_node n))) then
    let offs := openSlot (offsets (in_node n)) offset in
    let offs := <[Z.to_nat offset := uint16 (len (in_cells n))]> offs in
    let cells := in_cells n ++ [Some (mkInternalCell key fileOffset)] in
    a ← index offs offset;
    pa ← index cells a;
    ca ← deref pa;
    b ← index offs (offset + 1);
    pb ← index cells b;
    cb ← deref pb;
    let va := inc_fileOffset ca in
    let vb := inc_fileOffset cb in
    let cells := <[Z.to_nat a := Some (mkInternalCell (inc_key ca) vb)]> cells in
    pb' ← index cells b;
    cb' ← deref pb';
    let cells := <[Z.to_nat b := Some (mkInternalCell (inc_key cb') va)]> cells in
    Ret (internalNode_set_cells (internalNode_set_offsets n offs) cells, None)
  else Panic.

Definition internalNode_isFull (n : internalNode) : bool :=
  bool_decide (len (offsets (in_node n)) >= maxInternalNodeCells).

(** [split]. [newPg] is a different object from [p]. The result is the
    state of [p], the state of [newPg] and the returned pair. *)
Definition internalNode_split (p newPg : internalNode)
  : go (internalNode * internalNode * (Z * option error)) :=
  let mid := len (offsets (in_node p)) ÷ 2 in
  r ← forEach (λ i newPg,
         off ← index (offsets (in_node p)) i;
         pc ← index (in_cells p) off;
         cell ← deref pc;
         Ret (internalNode_appendCell newPg (inc_key cell) (inc_fileOffset cell)))
       (seqZ (mid + 1) (len (offsets (in_node p)) - (mid + 1))) newPg;
  let newPg := r.1 in
  match r.2 with
  | Some err => Ret (p, newPg, (0, Some err))
  | None =>
      let newPg := internalNode_setRightMostKey newPg (rightOffset p) in
      pk ← index (in_cells p) mid;
      ck ← deref pk;
      let key := inc_key ck in
      let p := internalNode_setRightMostKey p (inc_fileOffset ck) in
      let p := internalNode_set_offsets p
                 (take (Z.to_nat mid) (offsets (in_node p))) in
      Ret (p, newPg, (key, None))
  end.

Definition internalNode_getRightmostKey (p : internalNode) : go Z :=
  off ← index (offsets (in_node p)) (len (offsets (in_node p)) - 1);
  pc ← index (in_cells p) off;
  c ← deref pc;
  Ret (inc_key c).

(** ** Leaf nodes *)

Definition leafNode_set_offsets (n : leafNode) (o : list Z) : leafNode :=
  mkLeaf (set_offsets (ln_node n) o) (ln_cells n) (hasLSib n) (hasRSib n)
    (lSibFileOffset n) (rSibFileOffset n).

Definition leafNode_set_cells (n : leafNode) (c : list (option leafNodeCell))
  : leafNode :=
  mkLeaf (ln_node n) c (hasLSib n) (hasRSib n)
    (lSibFileOffset n) (rSibFileOffset n).

Definition leafNode_appendCell (n : leafNode) (key : Z) (value : list byte)
  : leafNode * option error :=
  let offset := len (offsets (ln_node n)) in
  let n := leafNode_set_offsets n (offsets (ln_node n) ++ [uint16 offset]) in
  let n := leafNode_set_cells n
             (ln_cells n ++ [Some (mkLeafCell key (uint32 (len value)) value false)]) in
  (n, None).

(** [updateCell] writes through [n.cells[offset]], where [offset] is the
    slot returned by the search. *)
Definition leafNode_updateCell (n : leafNode) (key : Z) (value : list byte)
  : go (leafNode * option error) :=
  match checkRowSizeLimit value with
  | Some err => Ret (n, Some err)
  | None =>
      r ← leafNode_findCellOffsetByKey n key;
      let offset := r.1 in
      let found := r.2 in
      if negb found then Ret (n, Some (ErrRecordNotFound key))
      else
        p ← index (ln_cells n) offset;
        c ← deref p;
        let c := mkLeafCell (lnc_key c) (lnc_valueSize c) value (lnc_deleted c) in
        let c := mkLeafCell (lnc_key c) (uint32 (len value)) (lnc_valueBytes c)
                   (lnc_deleted c) in
        Ret (leafNode_set_cells n (<[Z.to_nat offset := Some c]> (ln_cells n)),
             None)
  end.

(** [insertCell]. With [offset > len(n.offsets)] the slice expression
    [n.offsets[offset:]] panics. *)
Definition leafNode_insertCell (n : leafNode) (offset key : Z)
    (value : list byte) : go (leafNode * option error) :=
  match checkRowSizeLimit value with
  | Some err => Ret (n, Some err)
  | None =>
      offs ←
        (if decide (uint32 (len (offsets (ln_node n))) = offset) then
           Ret (offsets (ln_node n) ++ [uint16 (len (ln_cells n))])
         else if decide (0 ≤ offset < len (offsets (ln_node n))) then
           Ret (<[Z.to_nat offset := uint16 (len (ln_cells n))]>
                  (openSlot (offsets (ln_node n)) offset))
         else Panic);
      let n := leafNode_set_offsets n offs in
      let n := leafNode_set_cells n
                 (ln_cells n ++
                  [Some (mkLeafCell key (uint32 (len value)) value false)]) in
      Ret (n, None)
  end.

Definition leafNode_isFull (n : leafNode) : bool :=
  bool_decide (len (offsets (ln_node n)) >= maxLeafNodeCells).

Definition leafNode_split (p newPg : leafNode)
  : go (leafNode * leafNode * (Z * option error)) :=
  let mid := len (offsets (ln_node p)) ÷ 2 in
  r ← forEach (λ i newPg,
         off ← index (offsets (ln_node p)) i;
         pc ← index (ln_cells p) off;
         cell ← deref pc;
         Ret (leafNode_appendCell newPg (lnc_key cell) (lnc_valueBytes cell)))
       (seqZ mid (len (offsets (ln_node p)) - mid)) newPg;
  let newPg := r.1 in
  match r.2 with
  | Some err => Ret (p, newPg, (0, Some err))
  | None =>
      let p := leafNode_set_offsets p
                 (take (Z.to_nat mid) (offsets (ln_node p))) in
      off ← index (offsets (ln_node newPg)) 0;
      pc ← index (ln_cells newPg) off;
      cell ← deref pc;
      Ret (p, newPg, (lnc_key cell, None))
  end.

(** The zero values [&internalNode{}] and [&leafNode{}]. *)
Definition zeroNode : node := mkNode 0 [] 0 false 0.
Definition newInternalNode : internalNode := mkInternal zeroNode [] 0.
Definition newLeafNode : leafNode := mkLeaf zeroNode [] false false 0 0.

(** ** Abstract view of a node: its cells in slot order *)

Definition cellAt {A : Type} (cells : list (option A)) (off : Z) : option A :=
  if decide (0 ≤ off) then mjoin (cells !! Z.to_nat off) else None.

(** Every slot indexes an allocated cell. *)
Definition slots_valid {A : Type} (offs : list Z) (cells : list (option A))
  : Prop :=
  Forall (λ off, is_Some (cellAt cells off)) offs.

Definition entries {A : Type} (offs : list Z) (cells : list (option A))
  : list A :=
  omap (cellAt cells) offs.

Definition internal_entries (n : internalNode) : list internalNodeCell :=
  entries (offsets (in_node n)) (in_cells n).
Definition internal_keys (n : internalNode) : list Z :=
  inc_key <$> internal_entries n.
Definition internal_valid (n : internalNode) : Prop :=
  slots_valid (offsets (in_node n)) (in_cells n).
Definition internal_sorted (n : internalNode) : Prop :=
  StronglySorted Z.lt (internal_keys n).

Definition leaf_entries (n : leafNode) : list leafNodeCell :=
  entries (offsets (ln_node n)) (ln_cells n).
Definition leaf_keys (n : leafNode) : list Z :=
  lnc_key <$> leaf_entries n.
Definition leaf_valid (n : leafNode) : Prop :=
  slots_valid (offsets (ln_node n)) (ln_cells n).
Definition leaf_sorted (n : leafNode) : Prop :=
  StronglySorted Z.lt (leaf_keys n).

(** ** The node interface

    The store handles both node types through the [btreeNode] interface;
    the sum type is its closed-world reading. *)
Inductive btreeNode : Type :=
| Internal (n : internalNode)
| Leaf (n : leafNode).

Definition btree_node (n : btreeNode) : node :=
  match n with
  | Internal n => in_node n
  | Leaf n => ln_node n
  end.

Definition btree_findCellOffsetByKey (n : btreeNode) (key : Z)
  : go (Z * bool) :=
  match n with
  | Internal n => internalNode_findCellOffsetByKey n key
  | Leaf n => leafNode_findCellOffsetByKey n key
  end.

Definition btree_keys (n : btreeNode) : list Z :=
  match n with
  | Internal n => internal_keys n
  | Leaf n => leaf_keys n
  end.

Definition btree_valid (n : btreeNode) : Prop :=
  match n with
  | Internal n => internal_valid n
  | Leaf n => leaf_valid n
  end.

Definition btree_sorted (n : btreeNode) : Prop :=
  StronglySorted Z.lt (btree_keys n).

#[global] Instance slots_valid_dec {A : Type} (offs : list Z)
    (cells : list (option A)) : Decision (slots_valid offs cells).
Proof. unfold slots_valid. apply _. Defined.

#[global] Instance btree_valid_dec (n : btreeNode) : Decision (btree_valid n).
Proof. destruct n; simpl; unfold internal_valid, leaf_valid; apply _. Defined.

#[global] Instance btree_sorted_dec (n : btreeNode) : Decision (btree_sorted n).
Proof. unfold btree_sorted. apply _. Defined.

(** The (key, value) pairs of a leaf in slot order. *)
Definition leaf_kv (n : leafNode) : list (Z * list byte) :=
  (λ c, (lnc_key c, lnc_valueBytes c)) <$> leaf_entries n.

(** The cell that [appendCell(c.key, c.valueBytes)] allocates. *)
Definition leaf_copy (c : leafNodeCell) : leafNodeCell :=
  mkLeafCell (lnc_key c) (uint32 (len (lnc_valueBytes c))) (lnc_valueBytes c)
    false.

(** ** Byte-level encoding ([encoding/binary], [bytes.Buffer]) *)

Definition byte_of_Z (z : Z) : byte :=
  default x00 (Byte.of_N (Z.to_N (z mod 256))).

Definition Z_of_byte (b : byte) : Z := Z.of_N (Byte.to_N b).

(** [binary.Write(buf, binary.LittleEndian, v)] for an unsigned integer
    [v] of [w] bytes: the bytes appended to the buffer. *)
Fixpoint putUint (w : nat) (z : Z) : list byte :=
  match w with
  | O => []
  | S w' => byte_of_Z z :: putUint w' (z / 256)
  end.

Fixpoint getUint (bs : list byte) : Z :=
  match bs with
  | [] => 0
  | b :: bs' => Z_of_byte b + 256 * getUint bs'
  end.

(** A [bool] is written as one byte, 1 or 0, and read back as [b != 0]. *)
Definition putBool (b : bool) : list byte := [if b then x01 else x00].
Definition getBool (z : Z) : bool := bool_decide (z ≠ 0).

(** [binary.Read(buf, binary.LittleEndian, &v)] for [v] of [w > 0] bytes,
    through [io.ReadFull]: [io.EOF] when nothing is left,
    [io.ErrUnexpectedEOF] when fewer than [w] bytes are left. The result is
    the value and the rest of the buffer. *)
Definition binary_Read (w : nat) (buf : list byte) : (Z * list byte) + error :=
  match buf with
  | [] => inr ErrEOF
  | _ =>
      if decide (length buf < w)%nat then inr ErrUnexpectedEOF
      else inl (getUint (take w buf), drop w buf)
  end.

(** [buf.Read(p)] with [p = make([]byte, n)]: [io.EOF] on an empty buffer
    unless [n = 0]; otherwise copies what is available, without an error on
    a short read, and the rest of [p] stays zero. *)
Definition Buffer_Read (n : Z) (buf : list byte)
  : (list byte * list byte) + error :=
  match buf with
  | [] => if decide (n = 0) then inl ([], buf) else inr ErrEOF
  | _ =>
      let got := take (Z.to_nat n) buf in
      inl (got ++ replicate (Z.to_nat n - length got) x00,
           drop (Z.to_nat n) buf)
  end.

(** [if err := binary.Read(...); err != nil { return err }] followed by
    the rest of the function. *)
Definition readInto {S : Type} (w : nat) (buf : list byte) (s : S)
    (k : Z → list byte → go (S * option error)) : go (S * option error) :=
  match binary_Read w buf with
  | inr e => Ret (s, Some e)
  | inl (z, buf') => k z buf'
  end.

(** [l[i] = x]: panics out of range. *)
Definition store {A : Type} (l : list A) (i : Z) (x : A) : go (list A) :=
  if decide (0 ≤ i < len l) then Ret (<[Z.to_nat i := x]> l) else Panic.

(** A [for] loop without early return. *)
Fixpoint foldM {S I : Type} (body : S → I → go S) (xs : list I) (s : S)
  : go S :=
  match xs with
  | [] => Ret s
  | i :: xs' => s' ← body s i; foldM body xs' s'
  end.

(** ** Page codec

    Every [binary.Write] in [encode] writes a fixed-size value or a byte
    slice into a [bytes.Buffer] and returns nil, so the error result of
    [encode] is always nil; [encode] is modelled by the buffer it returns. *)

Definition internalNode_encode (p : internalNode) : go (list byte) :=
  let buf := [] in
  let buf := buf ++ putUint 1 InternalNode in
  let buf := buf ++ putUint 8 (fileOffset (in_node p)) in
  let buf := buf ++ putUint 8 (lastLSN (in_node p)) in
  let buf := buf ++ putUint 8 (rightOffset p) in
  let cellCount := uint32 (len (offsets (in_node p))) in
  let buf := buf ++ putUint 4 cellCount in
  let buf := foldl (λ buf off, buf ++ putUint 2 off) buf (offsets (in_node p)) in
  bufFooter ← foldM (λ bufFooter i,
      off ← index (offsets (in_node p)) i;
      pc ← index (in_cells p) off;
      keyCell ← deref pc;
      let bufFooter := bufFooter ++ putUint 4 (inc_key keyCell) in
      let bufFooter := bufFooter ++ putUint 8 (inc_fileOffset keyCell) in
      Ret bufFooter) (seqZ 0 cellCount) [];
  let freeSize := uint16 (pageSize - len buf - len bufFooter - 2) in
  let buf := buf ++ putUint 2 freeSize in
  let buf := buf ++ replicate (Z.to_nat freeSize) x00 in
  let buf := buf ++ bufFooter in
  if decide (len buf ≠ pageSize) then Panic else Ret buf.

Definition internalNode_decode (p : internalNode) (buf : list byte)
  : go (internalNode * option error) :=
  readInto 1 buf p (λ cellType buf,
  if decide (cellType ≠ InternalNode) then
    Ret (p, Some (ErrDecodeType InternalNode cellType))
  else
  readInto 8 buf p (λ v buf,
  let p := mkInternal (setFileOffset (in_node p) v) (in_cells p) (rightOffset p) in
  readInto 8 buf p (λ v buf,
  let p := mkInternal
             (mkNode (fileOffset (in_node p)) (offsets (in_node p))
                (freeSize (in_node p)) (dirty (in_node p)) v)
             (in_cells p) (rightOffset p) in
  readInto 8 buf p (λ v buf,
  let p := internalNode_setRightMostKey p v in
  readInto 4 buf p (λ cellCount buf,
  r ← forEach (λ (_ : Z) '(offs, buf),
         match binary_Read 2 buf with
         | inr e => Ret ((offs, buf), Some e)
         | inl (offset, buf) => Ret ((offs ++ [offset], buf), None)
         end) (seqZ 0 cellCount) (offsets (in_node p), buf);
  let p := internalNode_set_offsets p r.1.1 in
  let buf := r.1.2 in
  match r.2 with
  | Some e => Ret (p, Some e)
  | None =>
  readInto 2 buf p (λ v buf,
  let p := mkInternal
             (mkNode (fileOffset (in_node p)) (offsets (in_node p)) v
                (dirty (in_node p)) (lastLSN (in_node p)))
             (in_cells p) (rightOffset p) in
  let buf := drop (Z.to_nat (freeSize (in_node p))) buf in
  let p := internalNode_set_cells p (replicate (Z.to_nat cellCount) None) in
  r ← forEach (λ i '(cells, buf),
         match binary_Read 4 buf with
         | inr e => Ret ((cells, buf), Some e)
         | inl (key, buf) =>
         match binary_Read 8 buf with
         | inr e => Ret ((cells, buf), Some e)
         | inl (fo, buf) =>
             off ← index (offsets (in_node p)) i;
             cells ← store cells off (Some (mkInternalCell key fo));
             Ret ((cells, buf), None)
         end
         end) (seqZ 0 cellCount) (in_cells p, buf);
  Ret (internalNode_set_cells p r.1.1, r.2))
  end))))).

Definition leafNode_encode (p : leafNode) : go (list byte) :=
  let buf := [] in
  let buf := buf ++ putUint 1 LeafNode in
  let buf := buf ++ putUint 8 (fileOffset (ln_node p)) in
  let buf := buf ++ putUint 8 (lastLSN (ln_node p)) in
  let buf := buf ++ putBool (hasLSib p) in
  let buf := buf ++ putBool (hasRSib p) in
  let buf := buf ++ putUint 8 (lSibFileOffset p) in
  let buf := buf ++ putUint 8 (rSibFileOffset p) in
  let cellCount := uint32 (len (offsets (ln_node p))) in
  let buf := buf ++ putUint 4 cellCount in
  let buf := foldl (λ buf off, buf ++ putUint 2 off) buf (offsets (ln_node p)) in
  bufFooter ← foldM (λ bufFooter i,
      off ← index (offsets (ln_node p)) i;
      pc ← index (ln_cells p) off;
      keyCell ← deref pc;
      let bufFooter := bufFooter ++ putUint 4 (lnc_key keyCell) in
      let bufFooter := bufFooter ++ putBool (lnc_deleted keyCell) in
      let bufFooter := bufFooter ++ putUint 4 (lnc_valueSize keyCell) in
      let bufFooter := bufFooter ++ lnc_valueBytes keyCell in
      Ret bufFooter) (seqZ 0 cellCount) [];
  let freeSize := uint16 (pageSize - len buf - len bufFooter - 2) in
  let buf := buf ++ putUint 2 freeSize in
  let buf := buf ++ replicate (Z.to_nat freeSize) x00 in
  let buf := buf ++ bufFooter in
  if decide (len buf ≠ pageSize) then Panic else Ret buf.

Definition leafNode_set_node (p : leafNode) (n : node) : leafNode :=
  mkLeaf n (ln_cells p) (hasLSib p) (hasRSib p)
    (lSibFileOffset p) (rSibFileOffset p).

Definition leafNode_decode (p : leafNode) (buf : list byte)
  : go (leafNode * option error) :=
  readInto 1 buf p (λ cellType buf,
  if decide (cellType ≠ LeafNode) then
    Ret (p, Some (ErrDecodeType LeafNode cellType))
  else
  readInto 8 buf p (λ v buf,
  let p := leafNode_set_node p (setFileOffset (ln_node p) v) in
  readInto 8 buf p (λ v buf,
  let p := leafNode_set_node p
             (mkNode (fileOffset (ln_node p)) (offsets (ln_node p))
                (freeSize (ln_node p)) (dirty (ln_node p)) v) in
  readInto 1 buf p (λ v buf,
  let p := mkLeaf (ln_node p) (ln_cells p) (getBool v) (hasRSib p)
             (lSibFileOffset p) (rSibFileOffset p) in
  readInto 1 buf p (λ v buf,
  let p := mkLeaf (ln_node p) (ln_cells p) (hasLSib p) (getBool v)
             (lSibFileOffset p) (rSibFileOffset p) in
  readInto 8 buf p (λ v buf,
  let p := mkLeaf (ln_node p) (ln_cells p) (hasLSib p) (hasRSib p)
             v (rSibFileOffset p) in
  readInto 8 buf p (λ v buf,
  let p := mkLeaf (ln_node p) (ln_cells p) (hasLSib p) (hasRSib p)
             (lSibFileOffset p) v in
  readInto 4 buf p (λ cellCount buf,
  r ← forEach (λ (_ : Z) '(offs, buf),
         match binary_Read 2 buf with
         | inr e => Ret ((offs, buf), Some e)
         | inl (offset, buf) => Ret ((offs ++ [offset], buf), None)
         end) (seqZ 0 cellCount) (offsets (ln_node p), buf);
  let p := leafNode_set_offsets p r.1.1 in
  let buf := r.1.2 in
  match r.2 with
  | Some e => Ret (p, Some e)
  | None =>
  readInto 2 buf p (λ v buf,
  let p := leafNode_set_node p
             (mkNode (fileOffset (ln_node p)) (offsets (ln_node p)) v
                (dirty (ln_node p)) (lastLSN (ln_node p))) in
  let buf := drop (Z.to_nat (freeSize (ln_node p))) buf in
  let p := leafNode_set_cells p (replicate (Z.to_nat cellCount) None) in
  r ← forEach (λ i '(cells, buf),
         match binary_Read 4 buf with
         | inr e => Ret ((cells, buf), Some e)
         | inl (key, buf) =>
         match binary_Read 1 buf with
         | inr e => Ret ((cells, buf), Some e)
         | inl (deleted, buf) =>
         match binary_Read 4 buf with
         | inr e => Ret ((cells, buf), Some e)
         | inl (valueSize, buf) =>
         match Buffer_Read valueSize buf with
         | inr e => Ret ((cells, buf), Some e)
         | inl (strBuf, buf) =>
             off ← index (offsets (ln_node p)) i;
             cells ← store cells off
                       (Some (mkLeafCell key valueSize strBuf (getBool deleted)));
             Ret ((cells, buf), None)
         end
         end
         end
         end) (seqZ 0 cellCount) (ln_cells p, buf);
  Ret (leafNode_set_cells p r.1.1, r.2))
  end)))))))).

Definition btree_encode (n : btreeNode) : go (list byte) :=
  match n with
  | Internal n => internalNode_encode n
  | Leaf n => leafNode_encode n
  end.

Definition btree_maxCells (n : btreeNode) : Z :=
  match n with
  | Internal _ => maxInternalNodeCells
  | Leaf _ => maxLeafNodeCells
  end.

(** The values of a leaf respect the row size limit. *)
Definition btree_values_fit (n : btreeNode) : Prop :=
  match n with
  | Internal _ => True
  | Leaf n => Forall (λ c, len (lnc_valueBytes c) ≤ maxValueSize) (leaf_entries n)
  end.

#[global] Instance btree_values_fit_dec (n : btreeNode)
  : Decision (btree_values_fit n).
Proof. destruct n; simpl; apply _. Defined.

(** The bytes one footer iteration of [encode] appends for a cell. *)
Definition encodeInternalCell (c : internalNodeCell) : list byte :=
  putUint 4 (inc_key c) ++ putUint 8 (inc_fileOffset c).

Definition encodeLeafCell (c : leafNodeCell) : list byte :=
  putUint 4 (lnc_key c) ++ putBool (lnc_deleted c)
  ++ putUint 4 (lnc_valueSize c) ++ lnc_valueBytes c.

(** ** The backing file

    The operating system's side of [*os.File]: the content, the position of
    the handle for sequential reads, and two ghost fields: [f_faults]
    scripts the outcome of the coming [WriteAt] calls ([None]: the write
    succeeds; [Some k]: only the first [k] bytes reach the file and an error
    is returned; an exhausted script means success), and [f_log] records
    every [WriteAt] call. Reads return what the file holds. *)

Record writeEvent : Type := mkWrite {
  w_off : Z;
  w_data : list byte;
  w_ok : bool
}.

Record osFile : Type := mkFile {
  f_data : list byte;
  f_pos : Z;
  f_faults : list (option nat);
  f_log : list writeEvent
}.

Definition int64 (z : Z) : Z :=
  (z + 9223372036854775808) mod 18446744073709551616 - 9223372036854775808.

(** The content after [b] is written at byte [off]; a gap past the end of
    the file reads as zeros. *)
Definition write_at (data : list byte) (off : nat) (b : list byte)
  : list byte :=
  match b with
  | [] => data
  | _ =>
      take off (data ++ replicate (off - length data) x00)
      ++ b ++ drop (off + length b) data
  end.

(** [f.WriteAt(b, off)]: a negative offset is refused before anything is
    written. *)
Definition WriteAt (f : osFile) (b : list byte) (off : Z)
  : osFile * option error :=
  if decide (off < 0) then
    (mkFile (f_data f) (f_pos f) (f_faults f)
       (f_log f ++ [mkWrite off b false]), Some ErrIO)
  else
    match f_faults f with
    | Some k :: faults =>
        (mkFile (write_at (f_data f) (Z.to_nat off) (take k b)) (f_pos f)
           faults (f_log f ++ [mkWrite off b false]), Some ErrIO)
    | None :: faults =>
        (mkFile (write_at (f_data f) (Z.to_nat off) b) (f_pos f) faults
           (f_log f ++ [mkWrite off b true]), None)
    | [] =>
        (mkFile (write_at (f_data f) (Z.to_nat off) b) (f_pos f) []
           (f_log f ++ [mkWrite off b true]), None)
    end.

(** [binary.Read(f.file, binary.LittleEndian, &v)] for [v] of [w > 0]
    bytes: a sequential read at the handle's position. *)
Definition File_binary_Read (w : nat) (f : osFile) : osFile * (Z + error) :=
  let rest := drop (Z.to_nat (f_pos f)) (f_data f) in
  match rest with
  | [] => (f, inr ErrEOF)
  | _ =>
      if decide (length rest < w)%nat then
        (mkFile (f_data f) (len (f_data f)) (f_faults f) (f_log f),
         inr ErrUnexpectedEOF)
      else
        (mkFile (f_data f) (f_pos f + Z.of_nat w) (f_faults f) (f_log f),
         inl (getUint (take w rest)))
  end.

(** ** The page cache

    Nodes are shared by pointer between the cache and its callers: a node
    lives in a heap, and a cache entry holds its address. *)

Abbreviation loc := nat.
Abbreviation heap := (gmap nat btreeNode).

Definition btree_with_node (n : btreeNode) (nd : node) : btreeNode :=
  match n with
  | Internal n => Internal (mkInternal nd (in_cells n) (rightOffset n))
  | Leaf n => Leaf (leafNode_set_node n nd)
  end.

Definition btree_isDirty (n : btreeNode) : bool := isDirty (btree_node n).
Definition btree_markClean (n : btreeNode) : btreeNode :=
  btree_with_node n (markClean (btree_node n)).
Definition btree_getFileOffset (n : btreeNode) : Z :=
  getFileOffset (btree_node n).

Record cacheEntry : Type := mkEntry {
  ce_key : Z;
  ce_val : loc
}.

(** Modelled from the spec: the LRU cache ([LRUCache], [NewLRU], [get],
    [set]); [page.go] only uses it, its own source is in another file.
    Section 4.3 of the specification: a bounded map from file offset to
    resident node with a recency list. [lru_entries] lists the entries from
    most to least recently used; the map [f.cache.cache] that [flushPages]
    ranges over has the keys of these entries. *)
Record LRUCache : Type := mkLRU {
  lru_cap : Z;
  lru_entries : list cacheEntry
}.

(** Modelled from the spec: [NewLRU(cap)], an empty cache of the given
    capacity. *)
Definition NewLRU (cap : Z) : LRUCache := mkLRU cap [].

(** Modelled from the spec: the map lookup, with the position of the entry
    in the recency list. *)
Definition lru_find (c : LRUCache) (key : Z) : option (nat * cacheEntry) :=
  list_find (λ e, ce_key e = key) (lru_entries c).

(** Modelled from the spec: [get] moves a hit to the most-recently-used
    end. *)
Definition lru_get (c : LRUCache) (key : Z) : LRUCache * option loc :=
  match lru_find c key with
  | Some (i, e) =>
      (mkLRU (lru_cap c) (e :: delete i (lru_entries c)), Some (ce_val e))
  | None => (c, None)
  end.

(** Modelled from the spec: [set] inserts or replaces; at capacity it
    evicts the least recently used entry that is not dirty (scanning from
    the least recently used end), or fails when every entry is dirty.
    Replacing the value of a resident key needs no room: scenario S5 of the
    specification flushes a cache full of dirty pages, and [update] calls
    [set] on each of them. *)
Definition lru_set (isDirty : loc → bool) (c : LRUCache) (key : Z) (val : loc)
  : LRUCache * bool :=
  match lru_find c key with
  | Some (i, _) =>
      (mkLRU (lru_cap c) (mkEntry key val :: delete i (lru_entries c)), true)
  | None =>
      if decide (len (lru_entries c) < lru_cap c) then
        (mkLRU (lru_cap c) (mkEntry key val :: lru_entries c), true)
      else
        match list_find (λ e, isDirty (ce_val e) = false)
                (reverse (lru_entries c)) with
        | Some (j, _) =>
            (mkLRU (lru_cap c)
               (mkEntry key val
                :: reverse (delete j (reverse (lru_entries c)))), true)
        | None => (c, false)
        end
  end.

(** ** The file store

    The ticker, its channel and the mutex are left out: the functions below
    are the sequential bodies. *)
Record fileStore : Type := mkStore {
  file : osFile;
  lastKey : Z;
  rootOffset : Z;
  nextFreeOffset : Z;
  pageTableRoot : Z;
  cache : LRUCache;
  _nextLSN : Z
}.

Definition fileStore_set_file (f : fileStore) (fl : osFile) : fileStore :=
  mkStore fl (lastKey f) (rootOffset f) (nextFreeOffset f) (pageTableRoot f)
    (cache f) (_nextLSN f).

Definition fileStore_set_cache (f : fileStore) (c : LRUCache) : fileStore :=
  mkStore (file f) (lastKey f) (rootOffset f) (nextFreeOffset f)
    (pageTableRoot f) c (_nextLSN f).

Definition heap_isDirty (h : heap) (l : loc) : bool :=
  match h !! l with
  | Some n => btree_isDirty n
  | None => false
  end.

Definition fileStore_setCache (f : fileStore) (h : heap) (key : Z) (val : loc)
  : fileStore * option error :=
  let '(c, ok) := lru_set (heap_isDirty h) (cache f) key val in
  if negb ok then (f, Some ErrLRUCacheFull)
  else (fileStore_set_cache f c, None).

(** [update]: the error of [WriteAt] is returned only after [setCache] has
    run, and only when [setCache] itself succeeds. *)
Definition fileStore_update (f : fileStore) (h : heap) (l : loc)
  : go (fileStore * option error) :=
  node ← deref (h !! l);
  buf ← btree_encode node;
  let '(fl, err) := WriteAt (file f) buf (int64 (btree_getFileOffset node)) in
  let f := fileStore_set_file f fl in
  let '(f', err') := fileStore_setCache f h (btree_getFileOffset node) l in
  match err' with
  | Some e => Ret (f', Some e)
  | None => Ret (f', err)
  end.

(** The 28 header bytes that [save] assembles. *)
Definition headerBytes (f : fileStore) : list byte :=
  let writer := [] in
  let writer := writer ++ putUint 4 (lastKey f) in
  let writer := writer ++ putUint 8 (pageTableRoot f) in
  let writer := writer ++ putUint 8 (nextFreeOffset f) in
  let writer := writer ++ putUint 8 (_nextLSN f) in
  writer.

Definition fileStore_save (f : fileStore) : fileStore * option error :=
  let '(fl, err) := WriteAt (file f) (headerBytes f) 0 in
  (fileStore_set_file f fl, err).

Definition fileStore_open (f : fileStore) : fileStore * option error :=
  match File_binary_Read 4 (file f) with
  | (fl, inr e) => (fileStore_set_file f fl, Some e)
  | (fl, inl v) =>
  let f := mkStore fl v (rootOffset f) (nextFreeOffset f) (pageTableRoot f)
             (cache f) (_nextLSN f) in
  match File_binary_Read 8 (file f) with
  | (fl, inr e) => (fileStore_set_file f fl, Some e)
  | (fl, inl v) =>
  let f := mkStore fl (lastKey f) (rootOffset f) (nextFreeOffset f) v
             (cache f) (_nextLSN f) in
  match File_binary_Read 8 (file f) with
  | (fl, inr e) => (fileStore_set_file f fl, Some e)
  | (fl, inl v) =>
  let f := mkStore fl (lastKey f) (rootOffset f) v (pageTableRoot f)
             (cache f) (_nextLSN f) in
  match File_binary_Read 8 (file f) with
  | (fl, inr e) => (fileStore_set_file f fl, Some e)
  | (fl, inl v) =>
  let f := mkStore fl (lastKey f) (rootOffset f) (nextFreeOffset f)
             (pageTableRoot f) (cache f) v in
  (f, None)
  end end end end.

(** [flushPages]. [order] is the order in which the [range] over the
    cache's map produces its keys, which the Go runtime chooses. An entry
    removed before the iteration reaches it is not produced; an entry added
    during the iteration is not visited here (Go leaves that open). The
    node is marked clean only on the path where [update] returned nil.
    [flushPages_iter] is one iteration of the loop. *)
Definition flushPages_iter (key : Z) (s : fileStore * heap)
  : go ((fileStore * heap) * option error) :=
  let '(f, h) := s in
  match lru_find (cache f) key with
  | None => Ret ((f, h), None)
  | Some (_, v) =>
      node ← deref (h !! ce_val v);
      if negb (btree_isDirty node) then Ret ((f, h), None)
      else
        r ← fileStore_update f h (ce_val v);
        match r.2 with
        | Some err => Ret ((r.1, h), Some err)
        | None => Ret ((r.1, <[ce_val v := btree_markClean node]> h), None)
        end
  end.

Definition fileStore_flushPages (order : list Z) (f : fileStore) (h : heap)
  : go (fileStore * heap * option error) :=
  r ← forEach flushPages_iter order (f, h);
  match r.2 with
  | Some err => Ret (r.1.1, r.1.2, Some err)
  | None =>
      let '(f', err) := fileStore_save r.1.1 in
      Ret (f', r.1.2, err)
  end.

(** [newFileStore(path)] on a file with the given content: a fresh handle,
    positioned at the start, and zero-valued fields. The flush goroutine it
    starts is not part of the sequential model. *)
Definition newFileStore (data : list byte) (faults : list (option nat))
  : fileStore :=
  mkStore (mkFile data 0 faults []) 0 0 0 0 (NewLRU 10000) 0.

(** The header fields are within their Go types. *)
Definition store_typed (f : fileStore) : Prop :=
  0 ≤ lastKey f < 2 ^ 32 ∧ 0 ≤ pageTableRoot f < 2 ^ 64 ∧
  0 ≤ nextFreeOffset f < 2 ^ 64 ∧ 0 ≤ _nextLSN f < 2 ^ 64.

(** The entry the cache's map holds for a key. *)
Definition lru_lookup (c : LRUCache) (key : Z) : option cacheEntry :=
  snd <$> lru_find c key.

(** The cache is a map (no key twice) and every entry holds the address of
    a live node stored under its own file offset, as [append], [update] and
    [fetch] insert them. *)
Definition cache_ok (c : LRUCache) (h : heap) : Prop :=
  NoDup (ce_key <$> lru_entries c) ∧
  Forall (λ e, ∃ n, h !! ce_val e = Some n ∧ btree_getFileOffset n = ce_key e)
    (lru_entries c).

(** Every dirty cached node can be encoded: [encode] does not panic on
    it. *)
Definition cache_encodable (c : LRUCache) (h : heap) : Prop :=
  Forall (λ e, ∀ n, h !! ce_val e = Some n → btree_isDirty n = true →
               ∃ buf, btree_encode n = Ret buf)
    (lru_entries c).

(** [n] is a dirty node at address [l], resident in the cache. *)
Definition cachedDirty (c : LRUCache) (h : heap) (l : loc) (n : btreeNode)
  : Prop :=
  (∃ e, e ∈ lru_entries c ∧ ce_val e = l) ∧
  h !! l = Some n ∧ btree_isDirty n = true.

(** [ev] is the write of the encoding of [n] at the file offset of [n]. *)
Definition pageWriteOf (n : btreeNode) (ev : writeEvent) : Prop :=
  btree_encode n = Ret (w_data ev) ∧
  w_off ev = int64 (btree_getFileOffset n).

(** What a flush in progress has done to the heap: a node is as it was, or
    it was a dirty cached node, its page write succeeded and it is now
    clean. *)
Definition heap_flushed (c0 : LRUCache) (h0 h : heap)
    (pages : list writeEvent) : Prop :=
  ∀ l, h !! l = h0 !! l ∨
       ∃ n ev, cachedDirty c0 h0 l n ∧ h !! l = Some (btree_markClean n) ∧
               pageWriteOf n ev ∧ w_ok ev = true ∧ ev ∈ pages.

(** Every write so far is the page write of some dirty cached node. *)
Definition pages_of (c0 : LRUCache) (h0 : heap) (pages : list writeEvent)
  : Prop :=
  Forall (λ ev, ∃ l n, cachedDirty c0 h0 l n ∧ pageWriteOf n ev) pages.

(** The loop invariant of [flushPages] between iterations, relative to the
    store [f0] and heap [h0] at the start of the call. *)
Definition flush_inv (f0 : fileStore) (h0 : heap) (f : fileStore) (h : heap)
    (pages : list writeEvent) : Prop :=
  (∀ k, lru_lookup (cache f) k = lru_lookup (cache f0) k) ∧
  headerBytes f = headerBytes f0 ∧
  f_log (file f) = f_log (file f0) ++ pages ∧
  heap_flushed (cache f0) h0 h pages ∧
  pages_of (cache f0) h0 pages ∧
  Forall (λ ev, w_ok ev = true) pages.

(** The part of [fetch] that turns a page read from the file into a node:
    the switch on the type byte and the call of [decode] on a fresh node
    of that type. *)
Definition decodePage (buf : list byte) : go (btreeNode * option error) :=
  b ← index buf 0;
  if decide (Z_of_byte b = InternalNode) then
    r ← internalNode_decode newInternalNode buf;
    Ret (Internal r.1, r.2)
  else if decide (Z_of_byte b = LeafNode) then
    r ← leafNode_decode newLeafNode buf;
    Ret (Leaf r.1, r.2)
  else Panic.

(** The integer fields are within their Go types, and a leaf cell's
    [valueSize] is the length of its value. *)
Definition node_typed (n : node) : Prop :=
  0 ≤ fileOffset n < 2 ^ 64 ∧ 0 ≤ lastLSN n < 2 ^ 64.

Definition internalCell_typed (c : internalNodeCell) : Prop :=
  0 ≤ inc_key c < 2 ^ 32 ∧ 0 ≤ inc_fileOffset c < 2 ^ 64.

Definition leafCell_typed (c : leafNodeCell) : Prop :=
  0 ≤ lnc_key c < 2 ^ 32 ∧ lnc_valueSize c = len (lnc_valueBytes c).

Definition btree_typed (n : btreeNode) : Prop :=
  node_typed (btree_node n) ∧
  match n with
  | Internal n =>
      0 ≤ rightOffset n < 2 ^ 64 ∧
      Forall internalCell_typed (internal_entries n)
  | Leaf n =>
      0 ≤ lSibFileOffset n < 2 ^ 64 ∧ 0 ≤ rSibFileOffset n < 2 ^ 64 ∧
      Forall leafCell_typed (leaf_entries n)
  end.

(** Every slot index is below the slot count, as [decode] requires of the
    page it reads. *)
Definition btree_compact (n : btreeNode) : Prop :=
  Forall (λ off, off < len (offsets (btree_node n))) (offsets (btree_node n)).

(** Two nodes agree on what a page stores: the header fields and the
    cells in slot order. *)
Definition btree_same (n n' : btreeNode) : Prop :=
  fileOffset (btree_node n') = fileOffset (btree_node n) ∧
  lastLSN (btree_node n') = lastLSN (btree_node n) ∧
  offsets (btree_node n') = offsets (btree_node n) ∧
  match n, n' with
  | Internal n, Internal n' =>
      rightOffset n' = rightOffset n ∧
      internal_entries n' = internal_entries n
  | Leaf n, Leaf n' =>
      hasLSib n' = hasLSib n ∧ hasRSib n' = hasRSib n ∧
      lSibFileOffset n' = lSibFileOffset n ∧
      rSibFileOffset n' = rSibFileOffset n ∧
      leaf_entries n' = leaf_entries n
  | _, _ => False
  end.

(** ** Node invariant of the mutators

    A node is dense when its slot array is a rearrangement of the indices
    of its cell array and every cell is allocated: the state that
    [appendCell] and [insertCell] build from an empty node, and the one
    [decode] can read back. *)

Definition slots_dense {A : Type} (offs : list Z) (cells : list (option A))
  : Prop :=
  offs ≡ₚ seqZ 0 (len cells) ∧ Forall is_Some cells.

Definition leaf_dense (n : leafNode) : Prop :=
  slots_dense (offsets (ln_node n)) (ln_cells n).

Definition internal_dense (n : internalNode) : Prop :=
  slots_dense (offsets (in_node n)) (in_cells n).

(** ** Page size of a node *)

(** The number of bytes a node needs on a page: the fixed header, two
    bytes per slot and the cells in slot order. *)
Definition btree_encodedSize (n : btreeNode) : Z :=
  match n with
  | Internal p =>
      internalNodeHeaderSize + offsetElemSize * len (offsets (in_node p))
      + len (mjoin (encodeInternalCell <$> internal_entries p))
  | Leaf p =>
      leafNodeHeaderSize + offsetElemSize * len (offsets (ln_node p))
      + len (mjoin (encodeLeafCell <$> leaf_entries p))
  end.

(** ** The in-memory store *)

Definition btree_setFileOffset (n : btreeNode) (offset : Z) : btreeNode :=
  btree_with_node n (setFileOffset (btree_node n) offset).

(** [pages] holds the addresses of the appended nodes. *)
Record memoryStore : Type := mkMemoryStore {
  ms_pages : list loc;
  ms_lastKey : Z
}.

Definition memoryStore_getLastKey (m : memoryStore) : Z := ms_lastKey m.

Definition memoryStore_incrementLastKey (m : memoryStore)
  : memoryStore * option error :=
  (mkMemoryStore (ms_pages m) (uint32 (ms_lastKey m + 1)), None).

(** [append] writes the file offset through the node pointer: the heap
    changes at the node's address. *)
Definition memoryStore_append (m : memoryStore) (h : heap) (l : loc)
  : go (memoryStore * heap * option error) :=
  node ← deref (h !! l);
  let h := <[l := btree_setFileOffset node (uint64 (len (ms_pages m)))]> h in
  Ret (mkMemoryStore (ms_pages m ++ [l]) (ms_lastKey m), h, None).

Definition memoryStore_update (m : memoryStore) (l : loc) : option error :=
  None.

(** [fetch] has one error, [page does not exist in store], returned with a
    nil node: the result [None]. The guard compares [int(offset)], the
    64-bit two's complement reading of the [uint64]; the index expression
    uses [offset] itself. *)
Definition memoryStore_fetch (m : memoryStore) (offset : Z) : go (option loc) :=
  if decide (int64 offset >= len (ms_pages m)) then Ret None
  else l ← index (ms_pages m) offset; Ret (Some l).


(** ** The file store: [append], [fetch], the root *)

(** [f.ReadAt(b, off)] into a zeroed buffer of [n] bytes: a negative offset
    is refused; otherwise the bytes the file holds from [off] on are copied,
    and fewer than [n] of them come with [io.EOF]. The handle's position is
    not used and not moved. *)
Definition ReadAt (f : osFile) (n : nat) (off : Z) : list byte * option error :=
  if decide (off < 0) then (replicate n x00, Some ErrIO)
  else
    let got := take n (drop (Z.to_nat off) (f_data f)) in
    (got ++ replicate (n - length got) x00,
     if decide (length got < n)%nat then Some ErrEOF else None).

Definition fileStore_set_nextFreeOffset (f : fileStore) (v : Z) : fileStore :=
  mkStore (file f) (lastKey f) (rootOffset f) v (pageTableRoot f)
    (cache f) (_nextLSN f).

(** [append]: the node's file offset is set before [setCache] is tried;
    [nextFreeOffset] advances only when [setCache] succeeded. *)
Definition fileStore_append (f : fileStore) (h : heap) (l : loc)
  : go (fileStore * heap * option error) :=
  node ← deref (h !! l);
  let node := btree_setFileOffset node (nextFreeOffset f) in
  let h := <[l := node]> h in
  let '(f, err) := fileStore_setCache f h (btree_getFileOffset node) l in
  match err with
  | Some e => Ret (f, h, Some e)
  | None =>
      Ret (fileStore_set_nextFreeOffset f (uint64 (nextFreeOffset f + pageSize)),
           h, None)
  end.

(** [fetch]: a cache hit returns the resident node. On a miss a page is
    read at [int64(offset)]; [io.EOF] from [ReadAt] is ignored, so the
    bytes past the end of the file are the zeros of the fresh buffer. The
    decoded node is a new object (a fresh address of the heap) and is
    cached under the file offset stored in the page, not under [offset]. *)
Definition fileStore_fetch (f : fileStore) (h : heap) (offset : Z)
  : go (fileStore * heap * (option loc * option error)) :=
  let '(c, hit) := lru_get (cache f) offset in
  let f := fileStore_set_cache f c in
  match hit with
  | Some l => Ret (f, h, (Some l, None))
  | None =>
      let '(buf, err) := ReadAt (file f) (Z.to_nat pageSize) (int64 offset) in
      match err with
      | Some ErrEOF | None =>
          r ← decodePage buf;
          match r.2 with
          | Some e => Ret (f, h, (None, Some e))
          | None =>
              let l := fresh (dom h) in
              let h := <[l := r.1]> h in
              let '(f, err) :=
                fileStore_setCache f h (btree_getFileOffset r.1) l in
              match err with
              | Some e => Ret (f, h, (None, Some e))
              | None => Ret (f, h, (Some l, None))
              end
          end
      | Some e => Ret (f, h, (None, Some e))
      end
  end.

Definition fileStore_getRoot (f : fileStore) (h : heap)
  : go (fileStore * heap * (option loc * option error)) :=
  fileStore_fetch f h (rootOffset f).

Definition fileStore_setRoot (f : fileStore) (h : heap) (l : loc)
  : go fileStore :=
  node ← deref (h !! l);
  Ret (mkStore (file f) (lastKey f) (btree_getFileOffset node)
         (nextFreeOffset f) (pageTableRoot f) (cache f) (_nextLSN f)).

(** The cache has room for a new key without evicting. *)
Definition cache_has_room (c : LRUCache) : Prop :=
  len (lru_entries c) < lru_cap c.

(** No entry of the cache holds the address [l]. *)
Definition not_cached (c : LRUCache) (l : loc) : Prop :=
  Forall (λ e, ce_val e ≠ l) (lru_entries c).

(** ** The file store: header fields and [close] *)

Definition fileStore_getLastKey (f : fileStore) : Z := lastKey f.

Definition fileStore_incrementLastKey (f : fileStore)
  : fileStore * option error :=
  (mkStore (file f) (uint32 (lastKey f + 1)) (rootOffset f) (nextFreeOffset f)
     (pageTableRoot f) (cache f) (_nextLSN f), None).

Definition fileStore_setPageTableRoot (f : fileStore) (h : heap) (l : loc)
  : go (fileStore * option error) :=
  node ← deref (h !! l);
  Ret (mkStore (file f) (lastKey f) (rootOffset f) (nextFreeOffset f)
         (btree_getFileOffset node) (cache f) (_nextLSN f), None).

Definition fileStore_nextLSN (f : fileStore) : Z := _nextLSN f.

Definition fileStore_incrLSN (f : fileStore) : fileStore :=
  mkStore (file f) (lastKey f) (rootOffset f) (nextFreeOffset f)
    (pageTableRoot f) (cache f) (uint64 (_nextLSN f + 1)).

(** [close] stops the ticker and its goroutine, which the sequential model
    leaves out, and returns what [flushPages] returns; the deferred
    [file.Close] ends the use of the handle. *)
Definition fileStore_close (order : list Z) (f : fileStore) (h : heap)
  : go (fileStore * heap * option error) :=
  fileStore_flushPages order f h.

(** ** Durability of flushed pages *)

(** The file content after the writes of a log, all of them successful,
    are applied in order. *)
Definition replay (data : list byte) (log : list writeEvent) : list byte :=
  foldl (λ d ev, write_at d (Z.to_nat (w_off ev)) (w_data ev)) data log.

(** The file holds the bytes [buf] at byte offset [off]. *)
Definition page_at (data : list byte) (off : Z) (buf : list byte) : Prop :=
  0 ≤ off ∧ take (length buf) (drop (Z.to_nat off) data) = buf.

(** A node that the page codec can write and read back. *)
Definition btree_storable (n : btreeNode) : Prop :=
  btree_typed n ∧ btree_valid n ∧
  len (offsets (btree_node n)) ≤ btree_maxCells n ∧
  btree_values_fit n ∧ btree_compact n.

(** Every resident page starts on a page boundary behind the first page,
    which holds the header, and below 2^63. *)
Definition cache_aligned (c : LRUCache) : Prop :=
  Forall (λ e, pageSize ≤ ce_key e < 2 ^ 63 ∧ ce_key e mod pageSize = 0)
    (lru_entries c).

(** ** Sample nodes *)

(** The leaf built by [appendCell(10, "a")], [appendCell(30, "b")] and
    [insertCell(1, 20, "c")] on a fresh node. *)
Definition ex_leaf : leafNode :=
  mkLeaf (mkNode 0 [0; 2; 1] 0 false 0)
    [Some (mkLeafCell 10 1 ["a"%byte] false);
     Some (mkLeafCell 30 1 ["b"%byte] false);
     Some (mkLeafCell 20 1 ["c"%byte] false)] false false 0 0.

(** The internal node built by [appendCell(10, 4096)],
    [appendCell(30, 8192)] and [insertCell(1, 20, 12288)] on a fresh node
    whose rightmost pointer is then set to 16384. *)
Definition ex_internal : internalNode :=
  mkInternal (mkNode 0 [0; 2; 1] 0 false 0)
    [Some (mkInternalCell 10 4096);
     Some (mkInternalCell 30 12288);
     Some (mkInternalCell 20 8192)] 16384.

(** The old page after [leafNode.split] of the leaf built by
    [appendCell(20, "b")], [appendCell(30, "c")] and
    [insertCell(0, 10, "a")]: its only slot indexes cell 2 of three. *)
Definition ex_leaf_split : leafNode :=
  mkLeaf (mkNode 0 [2] 0 false 0)
    [Some (mkLeafCell 20 1 ["b"%byte] false);
     Some (mkLeafCell 30 1 ["c"%byte] false);
     Some (mkLeafCell 10 1 ["a"%byte] false)] false false 0 0.

(** A store over an empty file with non-zero header fields. *)
Definition ex_store : fileStore :=
  mkStore (mkFile [] 0 [] []) 7 0 8192 4096 (NewLRU 10000) 3.

(** A store caching a dirty leaf at offset 4096 (address 0) and a clean
    internal node at offset 8192 (address 1), over an empty file. *)
Definition ex_heap : heap :=
  <[0%nat := Leaf (mkLeaf (mkNode 4096 [0] 0 true 1)
                     [Some (mkLeafCell 1 1 ["a"%byte] false)]
                     false false 0 0)]>
  (<[1%nat := Internal (mkInternal (mkNode 8192 [0] 0 false 0)
                          [Some (mkInternalCell 5 4096)] 4096)]> ∅).

Definition ex_cached_store (faults : list (option nat)) : fileStore :=
  mkStore (mkFile [] 0 faults []) 7 0 12288 0
    (mkLRU 4 [mkEntry 8192 1%nat; mkEntry 4096 0%nat]) 2.

(** The internal node built by [appendCell] alone: keys 10, 20, 30, 40
    over the children 4096 .. 16384, rightmost pointer 20480. *)
Definition ex_internal_appended : internalNode :=
  mkInternal (mkNode 0 [0; 1; 2; 3] 0 false 0)
    [Some (mkInternalCell 10 4096);
     Some (mkInternalCell 20 8192);
     Some (mkInternalCell 30 12288);
     Some (mkInternalCell 40 16384)] 20480.

(** ** The SQL scanner ([sql/scanner.go])

    Token types, the keyword table, the token list and the token that
    [tokenScanner.Cur] builds. *)

Module sql.

(** The token types, numbered by [iota]. *)
Definition EOF : Z := 0.
Definition literal_start : Z := 1.
Definition IDENT : Z := 2.
Definition INT : Z := 3.
Definition STR : Z := 4.
Definition literal_end : Z := 5.
Definition operator_start : Z := 6.
Definition AND : Z := 7.
Definition OR : Z := 8.
Definition ASTRSK : Z := 9.
Definition EQ : Z := 10.
Definition GT : Z := 11.
Definition LT : Z := 12.
Definition LTE : Z := 13.
Definition GTE : Z := 14.
Definition LPAREN : Z := 15.
Definition RPAREN : Z := 16.
Definition operator_end : Z := 17.
Definition keyword_start : Z := 18.
Definition AS : Z := 19.
Definition BEGIN : Z := 20.
Definition BY : Z := 21.
Definition CASE : Z := 22.
Definition COMMA : Z := 23.
Definition COMMIT : Z := 24.
Definition COUNT : Z := 25.
Definition DISTINCT : Z := 26.
Definition ELSE : Z := 27.
Definition END : Z := 28.
Definition EXISTS : Z := 29.
Definition FALSE : Z := 30.
Definition FROM : Z := 31.
Definition FULL : Z := 32.
Definition GROUP : Z := 33.
Definition HAVING : Z := 34.
Definition IN : Z := 35.
Definition JOIN : Z := 36.
Definition LEFT : Z := 37.
Definition LIKE : Z := 38.
Definition MAX : Z := 39.
Definition MIN : Z := 40.
Definition NOT : Z := 41.
Definition NULL : Z := 42.
Definition ON : Z := 43.
Definition ORDER : Z := 44.
Definition OUTER : Z := 45.
Definition SELECT : Z := 46.
Definition SUM : Z := 47.
Definition THEN : Z := 48.
Definition TRUE : Z := 49.
Definition UNION : Z := 50.
Definition UNIQUE : Z := 51.
Definition WHEN : Z := 52.
Definition WHERE : Z := 53.
Definition WITH : Z := 54.
Definition keyword_end : Z := 55.

Definition IsKeyword (t : Z) : bool :=
  bool_decide (keyword_start < t ∧ t < keyword_end).

Definition IsLiteral (t : Z) : bool :=
  bool_decide (literal_start < t ∧ t < literal_end).

Definition IsOperator (t : Z) : bool :=
  bool_decide (operator_start < t ∧ t < operator_end).

(** The map literal [Tokens]; its keys are distinct. *)
Definition Tokens : gmap Z string :=
  list_to_map [
    (EOF, "EOF");
    (IDENT, "IDENT");
    (INT, "INT");
    (STR, "STR");
    (AND, "AND");
    (OR, "OR");
    (ASTRSK, "*");
    (EQ, "=");
    (GT, ">");
    (LT, "<");
    (LTE, "<=");
    (GTE, ">=");
    (LPAREN, "(");
    (RPAREN, ")");
    (AS, "AS");
    (BEGIN, "BEGIN");
    (BY, "BY");
    (CASE, "CASE");
    (COMMA, ",");
    (COMMIT, "COMMIT");
    (COUNT, "COUNT");
    (DISTINCT, "DISTINCT");
    (ELSE, "ELSE");
    (END, "END");
    (EXISTS, "EXISTS");
    (FALSE, "FALSE");
    (FROM, "FROM");
    (FULL, "FULL");
    (GROUP, "GROUP");
    (HAVING, "HAVING");
    (IN, "IN");
    (JOIN, "JOIN");
    (LEFT, "LEFT");
    (LIKE, "LIKE");
    (MAX, "MAX");
    (MIN, "MIN");
    (NOT, "NOT");
    (NULL, "NULL");
    (ON, "ON");
    (ORDER, "ORDER");
    (OUTER, "OUTER");
    (SELECT, "SELECT");
    (SUM, "SUM");
    (THEN, "THEN");
    (TRUE, "TRUE");
    (UNION, "UNION");
    (UNIQUE, "UNIQUE");
    (WHEN, "WHEN");
    (WHERE, "WHERE");
    (WITH, "WITH")].

(** [Tokens[t]]: the empty string for a missing key. *)
Definition Tokens_get (t : Z) : string := default EmptyString (Tokens !! t).

(** [keywords], as [init] fills it: first the operators, then the
    keywords, each under its name in [Tokens]. *)
Definition keywords : gmap string Z :=
  let keywords := ∅ in
  let keywords :=
    foldl (λ kw i, <[Tokens_get i := i]> kw) keywords
      (seqZ (operator_start + 1) (operator_end - (operator_start + 1))) in
  foldl (λ kw i, <[Tokens_get i := i]> kw) keywords
    (seqZ (keyword_start + 1) (keyword_end - (keyword_start + 1))).

Record Token : Type := mkToken {
  Type_ : Z;
  Line : Z;
  Column : Z;
  Text : string
}.

Record TokenList : Type := mkTokenList {
  tokens : list Token;
  cur : Z
}.

Definition EOFToken : Token := mkToken EOF 0 0 EmptyString.

Definition Add (tl : TokenList) (t : Token) : TokenList :=
  mkTokenList (tokens tl ++ [t]) (cur tl).

Definition Prev (tl : TokenList) : go Token :=
  if decide (cur tl = 0) then Ret EOFToken
  else index (tokens tl) (cur tl - 1).

Definition Cur (tl : TokenList) : go Token :=
  if decide (cur tl = len (tokens tl)) then Ret EOFToken
  else index (tokens tl) (cur tl).

Definition HasNext (tl : TokenList) : bool :=
  bool_decide (cur tl < len (tokens tl) - 1).

Definition Peek (tl : TokenList) : go Token :=
  if decide (cur tl = len (tokens tl) - 1) then Ret EOFToken
  else index (tokens tl) (cur tl + 1).

Definition Advance (tl : TokenList) : TokenList * bool :=
  if decide (cur tl = len (tokens tl)) then (tl, false)
  else (mkTokenList (tokens tl) (cur tl + 1), true).

(** The token classes of [text/scanner] that [tokenScanner.Cur] tells
    apart. *)
Definition scanner_EOF : Z := -1.
Definition scanner_Ident : Z := -2.
Definition scanner_Int : Z := -3.

(** [tokenScanner.Cur], as a function of what the wrapped scanner reports:
    the class of the current token [ts.cur], its text, and the position. *)
Definition tokenScanner_Cur (ts_cur : Z) (text : string) (line column : Z)
  : Token :=
  let tok := mkToken 0 line column EmptyString in
  if decide (ts_cur = scanner_EOF) then
    mkToken EOF (Line tok) (Column tok) (Text tok)
  else if decide (ts_cur = scanner_Ident) then
    match keywords !! text with
    | Some kw => mkToken kw (Line tok) (Column tok) (Text tok)
    | None => mkToken IDENT (Line tok) (Column tok) text
    end
  else if decide (ts_cur = scanner_Int) then
    mkToken INT (Line tok) (Column tok) text
  else
    match keywords !! text with
    | Some kw => mkToken kw (Line tok) (Column tok) (Text tok)
    | None => mkToken STR (Line tok) (Column tok) text
    end.

(** The cursor of a token list is within the list or just behind it. *)
Definition cursor_ok (tl : TokenList) : Prop :=
  0 ≤ cur tl ≤ len (tokens tl).

End sql.

(* ================================================================== *)
(** * Properties *)

(** ** The sample nodes are reachable through the node operations *)

Example ex_leaf_built :
  (let n := (leafNode_appendCell newLeafNode 10 ["a"%byte]).1 in
   let n := (leafNode_appendCell n 30 ["b"%byte]).1 in
   leafNode_insertCell n 1 20 ["c"%byte]) = Ret (ex_leaf, None).
Proof. vm_compute. reflexivity. Qed.

Example ex_internal_built :
  (let n := (internalNode_appendCell newInternalNode 10 4096).1 in
   let n := (internalNode_appendCell n 30 8192).1 in
   r ← internalNode_insertCell n 1 20 12288;
   Ret (internalNode_setRightMostKey r.1 16384)) = Ret ex_internal.
Proof. vm_compute. reflexivity. Qed.

Example ex_leaf_split_built :
  (let n := (leafNode_appendCell newLeafNode 20 ["b"%byte]).1 in
   let n := (leafNode_appendCell n 30 ["c"%byte]).1 in
   r ← leafNode_insertCell n 0 10 ["a"%byte];
   r' ← leafNode_split r.1 newLeafNode;
   Ret r'.1.1) = Ret ex_leaf_split.
Proof. vm_compute. reflexivity. Qed.

(** ** Runtime helpers *)

(** Decide a closed decidable proposition by evaluation. *)
Ltac by_compute :=
  match goal with
  | |- ?P => apply (bool_decide_unpack P); vm_compute; exact I
  end.

Lemma go_bind_Ret {A B} (a : A) (f : A → go B) : Ret a ≫= f = f a.
Proof. done. Qed.

Lemma forEach_cons {S I} (body : I → S → go (S * option error)) i xs s :
  forEach body (i :: xs) s
  = r ← body i s;
    match r.2 with
    | Some _ => Ret r
    | None => forEach body xs r.1
    end.
Proof. done. Qed.

Lemma index_Ret {A} (l : list A) i x :
  index l i = Ret x ↔ 0 ≤ i ∧ l !! Z.to_nat i = Some x.
Proof.
  unfold index. destruct (decide (0 ≤ i)); [|split; [done | lia]].
  destruct (l !! Z.to_nat i); split; try done.
  - intros [= ->]. done.
  - intros [_ [= ->]]. done.
  - intros [_ [=]].
Qed.

Lemma index_in_range {A} (l : list A) i :
  0 ≤ i < len l → ∃ x, index l i = Ret x.
Proof.
  intros [? Hi]. unfold index, len in *. rewrite decide_True by done.
  destruct (lookup_lt_is_Some_2 l (Z.to_nat i)) as [x ->]; [lia | eauto].
Qed.

Lemma index_seqZ_drop {A} (l : list A) (m : Z) :
  0 ≤ m →
  Forall2 (λ i x, index l i = Ret x) (seqZ m (len l - m)) (drop (Z.to_nat m) l).
Proof.
  intros Hm. apply Forall2_same_length_lookup_2.
  - unfold len. rewrite length_seqZ, length_drop. lia.
  - intros i j x [-> Hlt]%lookup_seqZ Hx. rewrite lookup_drop in Hx.
    apply index_Ret. split; [lia|].
    by replace (Z.to_nat (m + Z.of_nat i)) with (Z.to_nat m + i)%nat by lia.
Qed.

Lemma uint16_small z : 0 ≤ z < 65536 → uint16 z = z.
Proof. intros. unfold uint16. by apply Z.mod_small. Qed.

Lemma uint32_small z : 0 ≤ z < 4294967296 → uint32 z = z.
Proof. intros. unfold uint32. by apply Z.mod_small. Qed.

Lemma uint16_seqZ (m : Z) :
  m ≤ 65536 → uint16 <$> seqZ 0 m = seqZ 0 m.
Proof.
  intros Hm. rewrite <-(list_fmap_id (seqZ 0 m)) at 2.
  apply Forall_fmap_ext_1, Forall_forall. intros x Hx%elem_of_seqZ.
  unfold id. apply uint16_small. lia.
Qed.

Lemma seqZ_snoc (m : Z) :
  0 ≤ m → seqZ 0 (m + 1) = seqZ 0 m ++ [m].
Proof. intros. rewrite seqZ_app by lia. done. Qed.

Lemma quot2_mid low high :
  low ≤ high → low ≤ low + (high - low) ÷ 2 ≤ high.
Proof.
  intros. assert (0 ≤ (high - low) ÷ 2 ≤ high - low)
    by (split; [apply Z.quot_pos; lia | apply Z.quot_le_upper_bound; lia]).
  lia.
Qed.

Lemma quot2_half (n : Z) : 0 ≤ n → 0 ≤ n ÷ 2 ∧ 2 * (n ÷ 2) ≤ n < 2 * (n ÷ 2) + 2.
Proof.
  intros. rewrite Z.quot_div_nonneg by lia.
  pose proof (Z.div_mod n 2). pose proof (Z.mod_pos_bound n 2). lia.
Qed.

Lemma StronglySorted_lookup_lt (ks : list Z) i j a b :
  StronglySorted Z.lt ks → (i < j)%nat →
  ks !! i = Some a → ks !! j = Some b → a < b.
Proof.
  intros Hs. revert i j. induction Hs as [|x l Hs IH Hx]; intros i j Hij Hi Hj.
  - done.
  - destruct j as [|j]; [lia|]. destruct i as [|i]; simpl in *.
    + injection Hi as ->. rewrite Forall_forall in Hx.
      apply Hx, list_elem_of_lookup. eauto.
    + eapply IH; [|done..]. lia.
Qed.


Lemma StronglySorted_head_le (ks : list Z) (k : Z) :
  StronglySorted Z.lt ks → head ks = Some k → Forall (λ x, k ≤ x) ks.
Proof.
  intros Hs Hk. destruct Hs as [|x l _ Hx]; [done|]. injection Hk as ->.
  constructor; [lia|]. eapply Forall_impl; [exact Hx|]. intros; simpl in *; lia.
Qed.

Lemma sorted_insert_at (R : relation Z) (ks : list Z) (s : nat) (k : Z) :
  StronglySorted R ks →
  (∀ (j : nat) kj, ks !! j = Some kj →
     ((j < s)%nat → R kj k) ∧ ((s ≤ j)%nat → R k kj)) →
  StronglySorted R (take s ks ++ k :: drop s ks).
Proof.
  intros Hs Hk. rewrite <-(take_drop s ks) in Hs.
  apply StronglySorted_app in Hs as (H12 & H1 & H2).
  apply StronglySorted_app_2; [|done|].
  - intros x1 x2 Hx1 Hx2. apply elem_of_cons in Hx2 as [->|Hx2]; [|eauto].
    apply list_elem_of_lookup in Hx1 as [j Hj].
    pose proof (lookup_lt_Some _ _ _ Hj) as Hlt. rewrite length_take in Hlt.
    rewrite lookup_take_lt in Hj by lia. apply (Hk _ _ Hj). lia.
  - apply StronglySorted_cons. split; [|done].
    apply Forall_forall. intros x [j Hj]%list_elem_of_lookup.
    rewrite lookup_drop in Hj. apply (Hk _ _ Hj). lia.
Qed.

(** ** Slots and the cells they index *)

Lemma cellAt_Some {A} (cells : list (option A)) off c :
  cellAt cells off = Some c ↔ (index cells off ≫= deref) = Ret c.
Proof.
  unfold cellAt, index. destruct (decide (0 ≤ off)); [|done].
  destruct (cells !! Z.to_nat off) as [[?|]|]; simpl; split; congruence.
Qed.

Lemma cellAt_lookup {A} (cells : list (option A)) off c :
  cellAt cells off = Some c ↔ 0 ≤ off ∧ cells !! Z.to_nat off = Some (Some c).
Proof.
  unfold cellAt. case_decide; [|split; [done | lia]].
  destruct (cells !! Z.to_nat off) as [[?|]|]; simpl; split; try done.
  - intros [= ->]. done.
  - intros [_ [= ->]]. done.
  - intros [_ [=]].
  - intros [_ [=]].
Qed.

Lemma cellAt_lt {A} (cells : list (option A)) off c :
  cellAt cells off = Some c → 0 ≤ off < len cells.
Proof.
  intros [? E]%cellAt_lookup. apply lookup_lt_Some in E. unfold len. lia.
Qed.

Lemma cellAt_app_l {A} (cells extra : list (option A)) off c :
  cellAt cells off = Some c → cellAt (cells ++ extra) off = Some c.
Proof.
  intros [? H]%cellAt_lookup. apply cellAt_lookup. split; [done|].
  rewrite lookup_app_l; [done|]. by eapply lookup_lt_Some.
Qed.

Lemma cellAt_snoc {A} (cells : list (option A)) c :
  cellAt (cells ++ [Some c]) (len cells) = Some c.
Proof.
  apply cellAt_lookup. unfold len. split; [lia|].
  rewrite Nat2Z.id, lookup_app_r by lia. by rewrite Nat.sub_diag.
Qed.

Lemma entries_Forall2 {A} offs (cells : list (option A)) :
  slots_valid offs cells →
  Forall2 (λ off c, cellAt cells off = Some c) offs (entries offs cells).
Proof.
  unfold slots_valid, entries. induction 1 as [|off offs [c Hc] _ IH]; simpl.
  - constructor.
  - rewrite Hc. by constructor.
Qed.

Lemma entries_of_Forall2 {A} offs (cells : list (option A)) cs :
  Forall2 (λ off c, cellAt cells off = Some c) offs cs →
  slots_valid offs cells ∧ entries offs cells = cs.
Proof.
  unfold slots_valid, entries.
  induction 1 as [|off c offs cs Hc _ [IHv IHe]]; csimpl; [done|].
  rewrite Hc, IHe. split; [|done]. constructor; [|done]. by rewrite Hc.
Qed.

Lemma entries_length {A} offs (cells : list (option A)) :
  slots_valid offs cells → length (entries offs cells) = length offs.
Proof. intros H. symmetry. eapply Forall2_length, entries_Forall2, H. Qed.

Lemma entries_lookup {A} offs (cells : list (option A)) (i : nat) off :
  slots_valid offs cells → offs !! i = Some off →
  entries offs cells !! i = cellAt cells off.
Proof.
  intros Hv Hi. destruct (Forall2_lookup_l _ _ _ _ _ (entries_Forall2 _ _ Hv) Hi)
    as (c & -> & ->). done.
Qed.


Lemma entries_app {A} o1 o2 (cells : list (option A)) :
  entries (o1 ++ o2) cells = entries o1 cells ++ entries o2 cells.
Proof. unfold entries. apply omap_app. Qed.

Lemma slots_valid_app {A} o1 o2 (cells : list (option A)) :
  slots_valid (o1 ++ o2) cells ↔ slots_valid o1 cells ∧ slots_valid o2 cells.
Proof. apply Forall_app. Qed.

Lemma entries_take {A} offs (cells : list (option A)) (m : nat) :
  slots_valid offs cells →
  entries (take m offs) cells = take m (entries offs cells).
Proof.
  unfold slots_valid, entries. intros Hv. revert m.
  induction Hv as [|off offs [c Hc] _ IH]; intros [|m]; simpl; try done.
  rewrite Hc. simpl. by rewrite IH.
Qed.

Lemma entries_drop {A} offs (cells : list (option A)) (m : nat) :
  slots_valid offs cells →
  entries (drop m offs) cells = drop m (entries offs cells).
Proof.
  unfold slots_valid, entries. intros Hv. revert m.
  induction Hv as [|off offs [c Hc] _ IH]; intros [|m]; simpl; try done.
  rewrite Hc. simpl. by rewrite IH.
Qed.

Lemma entries_cells_app {A} offs (cells extra : list (option A)) :
  slots_valid offs cells →
  slots_valid offs (cells ++ extra) ∧
  entries offs (cells ++ extra) = entries offs cells.
Proof.
  unfold slots_valid, entries.
  induction 1 as [|off offs [c Hc] _ [IHv IHe]]; csimpl; [done|].
  rewrite Hc, (cellAt_app_l _ extra _ _ Hc). split; [|by rewrite IHe].
  constructor; [|done]. rewrite (cellAt_app_l _ extra _ _ Hc). eauto.
Qed.

Lemma entries_in_order {A} (cs : list A) :
  slots_valid (seqZ 0 (len cs)) (Some <$> cs) ∧
  entries (seqZ 0 (len cs)) (Some <$> cs) = cs.
Proof.
  induction cs as [|c cs [IHv IHe]] using rev_ind.
  { split; [apply Forall_nil_2 | reflexivity]. }
  assert (len (cs ++ [c]) = len cs + 1) as ->
    by (unfold len; rewrite length_app; simpl; lia).
  rewrite seqZ_snoc by (unfold len; lia). rewrite fmap_app. simpl.
  destruct (entries_cells_app _ _ [Some c] IHv) as [Hv He].
  pose proof (cellAt_snoc (Some <$> cs) c) as Hc.
  assert (len (Some <$> cs) = len cs) as Hl
    by (unfold len; by rewrite length_fmap).
  rewrite Hl in Hc. split.
  - apply slots_valid_app. split; [done|].
    apply Forall_cons. split; [|apply Forall_nil_2]. by rewrite Hc.
  - rewrite entries_app, He, IHe. unfold entries. simpl. by rewrite Hc.
Qed.

Lemma slots_seqZ_drop {A} (offs : list Z) (cells : list (option A)) (m : Z) :
  slots_valid offs cells → 0 ≤ m →
  Forall2 (λ i c, ∃ off, index offs i = Ret off ∧ cellAt cells off = Some c)
    (seqZ m (len offs - m)) (drop (Z.to_nat m) (entries offs cells)).
Proof.
  intros Hv Hm. pose proof (index_seqZ_drop offs m Hm) as H1.
  pose proof (Forall2_drop _ _ _ (Z.to_nat m) (entries_Forall2 _ _ Hv)) as H2.
  apply Forall2_same_length_lookup_2.
  - rewrite (Forall2_length _ _ _ H1). apply (Forall2_length _ _ _ H2).
  - intros i j c Hj Hc.
    destruct (Forall2_lookup_l _ _ _ _ _ H1 Hj) as (off & Hoff & ?).
    destruct (Forall2_lookup_l _ _ _ _ _ H2 Hoff) as (c' & Hc' & ?).
    exists off. split; [done | congruence].
Qed.

Lemma slots_seqZ_entries {A} (offs : list Z) (cells : list (option A)) :
  slots_valid offs cells →
  Forall2 (λ i c, ∃ off, index offs i = Ret off ∧ cellAt cells off = Some c)
    (seqZ 0 (len offs)) (entries offs cells).
Proof.
  intros Hv. pose proof (index_seqZ_drop offs 0 (Z.le_refl 0)) as H1.
  rewrite Z.sub_0_r in H1. simpl in H1.
  pose proof (entries_Forall2 _ _ Hv) as H2.
  apply Forall2_same_length_lookup_2.
  - rewrite (Forall2_length _ _ _ H1). apply (Forall2_length _ _ _ H2).
  - intros i j c Hj Hc.
    destruct (Forall2_lookup_l _ _ _ _ _ H1 Hj) as (off & Hoff & ?).
    destruct (Forall2_lookup_l _ _ _ _ _ H2 Hoff) as (c' & Hc' & ?).
    exists off. split; [done | congruence].
Qed.

(** ** Binary search *)

Section search_spec.
Variable offs : list Z.
Variable cellKey : Z → go Z.
Variable key : Z.
Variable ks : list Z.
Hypothesis Hks : Forall2 (λ off k, cellKey off = Ret k) offs ks.

Lemma searchLoop_spec low high :
  0 ≤ low → high < len offs → low ≤ high + 1 →
  StronglySorted Z.lt ks →
  (∀ j kj, ks !! j = Some kj → Z.of_nat j < low → kj < key) →
  (∀ j kj, ks !! j = Some kj → high < Z.of_nat j → key < kj) →
  ∃ i b, searchLoop offs cellKey key low high = Ret (i, b) ∧
    0 ≤ i ≤ len offs ∧
    if b then ks !! Z.to_nat i = Some key
    else ∀ j kj, ks !! j = Some kj →
           (Z.of_nat j < i → kj < key) ∧ (i ≤ Z.of_nat j → key < kj).
Proof.
  funelim (searchLoop offs cellKey key low high);
    intros Hlow Hhigh Hlh Hsorted Hbelow Habove;
    try match goal with H : low ≤ high |- _ =>
      pose proof (quot2_mid low high H) as Hmid end.
  - exists low, false. repeat split; try lia.
    + eapply Hbelow; eauto.
    + intros. eapply Habove; eauto. lia.
  - destruct (index_in_range offs (low + (high - low) ÷ 2)) as [? ?];
      [lia | congruence].
  - match goal with H : index _ _ = Ret _ |- _ =>
      apply index_Ret in H as [_ Hoff] end.
    destruct (Forall2_lookup_l _ _ _ _ _ Hks Hoff) as (k & _ & ?). congruence.
  - match goal with H : index _ _ = Ret _ |- _ =>
      apply index_Ret in H as [_ Hoff] end.
    destruct (Forall2_lookup_l _ _ _ _ _ Hks Hoff) as (k & Hk & ?).
    exists (low + (high - low) ÷ 2), true. repeat split; try lia.
    congruence.
  - match goal with H : index _ _ = Ret _ |- _ =>
      apply index_Ret in H as [_ Hoff] end.
    destruct (Forall2_lookup_l _ _ _ _ _ Hks Hoff) as (k & Hk & ?).
    assert (k = midVal) as -> by congruence.
    match goal with IH : context [searchLoop] |- _ => apply IH end;
      try lia; try done.
    intros j kj Hj Hlt.
    destruct (decide (j = Z.to_nat (low + (high - low) ÷ 2))) as [->|].
    + congruence.
    + destruct (decide (Z.of_nat j < low)); [eauto|].
      assert (kj < midVal); [|lia].
      eapply (StronglySorted_lookup_lt ks j); [done| |done..]. lia.
  - match goal with H : index _ _ = Ret _ |- _ =>
      apply index_Ret in H as [_ Hoff] end.
    destruct (Forall2_lookup_l _ _ _ _ _ Hks Hoff) as (k & Hk & ?).
    assert (k = midVal) as -> by congruence.
    match goal with IH : context [searchLoop] |- _ => apply IH end;
      try lia; try done.
    intros j kj Hj Hlt.
    destruct (decide (j = Z.to_nat (low + (high - low) ÷ 2))) as [->|].
    + assert (kj = midVal) by congruence. lia.
    + destruct (decide (high < Z.of_nat j)); [eauto|].
      assert (midVal < kj); [|lia].
      eapply (StronglySorted_lookup_lt ks _ j); [done| |done..]. lia.
Qed.

Lemma search_spec :
  StronglySorted Z.lt ks →
  ∃ i b, search offs cellKey key = Ret (i, b) ∧
    0 ≤ i ≤ len offs ∧
    if b then ks !! Z.to_nat i = Some key
    else ∀ j kj, ks !! j = Some kj →
           (Z.of_nat j < i → kj < key) ∧ (i ≤ Z.of_nat j → key < kj).
Proof.
  intros Hs. apply searchLoop_spec; unfold len in *; try lia; try done.
  intros j kj Hj ?. apply lookup_lt_Some in Hj.
  rewrite <-(Forall2_length _ _ _ Hks) in Hj. lia.
Qed.

Lemma search_found_iff i :
  StronglySorted Z.lt ks →
  search offs cellKey key = Ret (i, true) ↔
  0 ≤ i ∧ ks !! Z.to_nat i = Some key.
Proof.
  intros Hs. destruct (search_spec Hs) as (i' & b & -> & Hi & Hb). split.
  - intros [= <- ->]. split; [lia | done].
  - intros [Hi0 Hk]. destruct b.
    + destruct (Z.lt_trichotomy i i') as [?|[->|?]]; [|done|].
      * assert (key < key); [|lia].
        eapply (StronglySorted_lookup_lt ks (Z.to_nat i) (Z.to_nat i'));
          [done | lia | done..].
      * assert (key < key); [|lia].
        eapply (StronglySorted_lookup_lt ks (Z.to_nat i') (Z.to_nat i));
          [done | lia | done..].
    + destruct (Hb _ _ Hk). lia.
Qed.
End search_spec.

Lemma internal_cellKey_keys (n : internalNode) :
  internal_valid n →
  Forall2 (λ off k, internalNode_cellKey n off = Ret k)
    (offsets (in_node n)) (internal_keys n).
Proof.
  intros Hv. apply Forall2_fmap_r.
  eapply Forall2_impl; [apply entries_Forall2, Hv|].
  intros off c Hc. apply cellAt_Some in Hc. unfold internalNode_cellKey.
  destruct (index (in_cells n) off) as [p|]; [|done]. simpl in *.
  by rewrite Hc.
Qed.

Lemma leaf_cellKey_keys (n : leafNode) :
  leaf_valid n →
  Forall2 (λ off k, leafNode_cellKey n off = Ret k)
    (offsets (ln_node n)) (leaf_keys n).
Proof.
  intros Hv. apply Forall2_fmap_r.
  eapply Forall2_impl; [apply entries_Forall2, Hv|].
  intros off c Hc. apply cellAt_Some in Hc. unfold leafNode_cellKey.
  destruct (index (ln_cells n) off) as [p|]; [|done]. simpl in *.
  by rewrite Hc.
Qed.

Lemma btree_search_keys (n : btreeNode) (k : Z) :
  btree_valid n →
  ∃ cellKey,
    btree_findCellOffsetByKey n k = search (offsets (btree_node n)) cellKey k ∧
    Forall2 (λ off k, cellKey off = Ret k) (offsets (btree_node n)) (btree_keys n).
Proof.
  destruct n as [n|n]; intros Hv.
  - exists (internalNode_cellKey n). split; [done | by apply internal_cellKey_keys].
  - exists (leafNode_cellKey n). split; [done | by apply leaf_cellKey_keys].
Qed.

(** C5. Search correctness. For an internal or leaf node whose slots all
    index allocated cells and whose slot-ordered keys are strictly
    increasing, [findCellOffsetByKey k] returns; it returns [(i, true)]
    exactly when the key at slot [i] is [k]; and when it returns
    [(i, false)], [i] is between [0] and [len(offsets)], every key at a slot
    below [i] is less than [k] and every key at a slot [>= i] is greater,
    so that [i = len(offsets)] when all keys are smaller. *)
Theorem findCellOffsetByKey_correct (n : btreeNode) (k : Z) :
  btree_valid n → btree_sorted n →
  (∃ i b, btree_findCellOffsetByKey n k = Ret (i, b)) ∧
  (∀ i, btree_findCellOffsetByKey n k = Ret (i, true) ↔
        0 ≤ i ∧ btree_keys n !! Z.to_nat i = Some k) ∧
  (∀ i, btree_findCellOffsetByKey n k = Ret (i, false) →
        0 ≤ i ≤ len (offsets (btree_node n)) ∧
        (∀ (j : nat) kj, btree_keys n !! j = Some kj →
           (Z.of_nat j < i → kj < k) ∧ (i ≤ Z.of_nat j → k < kj)) ∧
        (Forall (λ kj, kj < k) (btree_keys n) →
         i = len (offsets (btree_node n)))).
Proof.
  intros Hv Hs. destruct (btree_search_keys n k Hv) as (cellKey & -> & Hks).
  split; [|split].
  - destruct (search_spec _ _ k _ Hks Hs) as (i & b & ? & _); eauto.
  - intros i. by apply search_found_iff.
  - intros i Hi. destruct (search_spec _ _ k _ Hks Hs) as (i' & b & Hr & ? & Hb).
    rewrite Hr in Hi. injection Hi as -> ->. split; [done|]. split; [done|].
    intros Hall. destruct (decide (i = len (offsets (btree_node n))));
      [done|exfalso].
    destruct (lookup_lt_is_Some_2 (btree_keys n) (Z.to_nat i)) as [kj Hkj].
    { rewrite <-(Forall2_length _ _ _ Hks). unfold len in *. lia. }
    rewrite Forall_forall in Hall.
    assert (kj < k) by (apply Hall, list_elem_of_lookup; eauto).
    destruct (Hb _ _ Hkj) as [_ Hgt]. lia.
Qed.

Lemma findCellOffsetByKey_correct_witness :
  btree_findCellOffsetByKey (Leaf ex_leaf) 20 = Ret (1, true) ∧
  btree_findCellOffsetByKey (Internal ex_internal) 25 = Ret (2, false) ∧
  ∀ (j : nat) kj, btree_keys (Internal ex_internal) !! j = Some kj →
    (Z.of_nat j < 2 → kj < 25) ∧ (2 ≤ Z.of_nat j → 25 < kj).
Proof.
  split; [|split].
  - apply (findCellOffsetByKey_correct (Leaf ex_leaf) 20).
    + by_compute.
    + by_compute.
    + split; [lia | reflexivity].
  - vm_compute. reflexivity.
  - destruct (findCellOffsetByKey_correct (Internal ex_internal) 25)
      as (_ & _ & Hnf).
    + by_compute.
    + by_compute.
    + apply (Hnf 2). vm_compute. reflexivity.
Defined.

Lemma leafNode_find_found (n : leafNode) (k : Z) (i : nat) :
  leaf_valid n → leaf_sorted n → leaf_keys n !! i = Some k →
  leafNode_findCellOffsetByKey n k = Ret (Z.of_nat i, true).
Proof.
  intros Hv Hs Hk.
  apply (search_found_iff _ _ k _ (leaf_cellKey_keys n Hv) _ Hs).
  split; [lia|]. by rewrite Nat2Z.id.
Qed.

Lemma leafNode_find_missing (n : leafNode) (k : Z) :
  leaf_valid n → leaf_sorted n → k ∉ leaf_keys n →
  ∃ i, leafNode_findCellOffsetByKey n k = Ret (i, false).
Proof.
  intros Hv Hs Hk.
  destruct (search_spec _ _ k _ (leaf_cellKey_keys n Hv) Hs)
    as (i & b & Hr & _ & Hb).
  destruct b; [|eauto]. destruct Hk. apply list_elem_of_lookup. eauto.
Qed.

(** ** Row size validation *)

Lemma checkRowSizeLimit_large (v : list byte) :
  len v > maxValueSize → checkRowSizeLimit v = Some ErrRowTooLarge.
Proof. intros. unfold checkRowSizeLimit. by rewrite decide_True. Qed.

Lemma checkRowSizeLimit_small (v : list byte) :
  len v ≤ maxValueSize → checkRowSizeLimit v = None.
Proof. intros. unfold checkRowSizeLimit. rewrite decide_False; [done | lia]. Qed.

(** C7. RowTooLarge atomicity. With a value longer than 400 bytes both
    [insertCell] and [updateCell] return [ErrRowTooLarge] and leave the
    receiver exactly as it was; with a value of at most 400 bytes the size
    check passes and neither call returns [ErrRowTooLarge]. *)
Theorem rowTooLarge_atomic (n : leafNode) (offset key : Z) (v : list byte) :
  (len v > 400 →
     leafNode_insertCell n offset key v = Ret (n, Some ErrRowTooLarge) ∧
     leafNode_updateCell n key v = Ret (n, Some ErrRowTooLarge)) ∧
  (len v ≤ 400 →
     checkRowSizeLimit v = None ∧
     (∀ n', leafNode_insertCell n offset key v ≠ Ret (n', Some ErrRowTooLarge)) ∧
     (∀ n', leafNode_updateCell n key v ≠ Ret (n', Some ErrRowTooLarge))).
Proof.
  split; intros Hv.
  - unfold leafNode_insertCell, leafNode_updateCell.
    by rewrite checkRowSizeLimit_large.
  - split; [by apply checkRowSizeLimit_small|].
    unfold leafNode_insertCell, leafNode_updateCell.
    rewrite checkRowSizeLimit_small by done. split; intros n'.
    + repeat case_decide; simpl; congruence.
    + destruct (leafNode_findCellOffsetByKey n key) as [[i []]|]; simpl;
        [|congruence..].
      destruct (index (ln_cells n) i) as [[c|]|]; simpl; congruence.
Qed.

Lemma rowTooLarge_atomic_witness :
  (leafNode_insertCell ex_leaf 1 20 (replicate 401 "x"%byte)
     = Ret (ex_leaf, Some ErrRowTooLarge) ∧
   leafNode_updateCell ex_leaf 20 (replicate 401 "x"%byte)
     = Ret (ex_leaf, Some ErrRowTooLarge)) ∧
  (checkRowSizeLimit (replicate 400 "x"%byte) = None ∧
   (∀ n', leafNode_insertCell ex_leaf 1 20 (replicate 400 "x"%byte)
            ≠ Ret (n', Some ErrRowTooLarge)) ∧
   (∀ n', leafNode_updateCell ex_leaf 20 (replicate 400 "x"%byte)
            ≠ Ret (n', Some ErrRowTooLarge))).
Proof.
  split.
  - apply (proj1 (rowTooLarge_atomic ex_leaf 1 20 (replicate 401 "x"%byte))).
    vm_compute. reflexivity.
  - apply (proj2 (rowTooLarge_atomic ex_leaf 1 20 (replicate 400 "x"%byte))).
    vm_compute. discriminate.
Defined.

(** ** Leaf update *)

(** C6. [updateCell] on the sample leaf, whose slot order differs from its
    cell order: updating key 20 succeeds, but the value is written to the
    cell at index 1 of [cells] (key 30), not to the cell of slot 1
    (key 20). *)
Theorem updateCell_writes_cell_at_slot_index :
  leaf_valid ex_leaf ∧ leaf_sorted ex_leaf ∧
  leaf_entries ex_leaf =
    [mkLeafCell 10 1 ["a"%byte] false; mkLeafCell 20 1 ["c"%byte] false;
     mkLeafCell 30 1 ["b"%byte] false] ∧
  ∃ n', leafNode_updateCell ex_leaf 20 ["z"%byte; "z"%byte] = Ret (n', None) ∧
    leaf_entries n' =
      [mkLeafCell 10 1 ["a"%byte] false; mkLeafCell 20 1 ["c"%byte] false;
       mkLeafCell 30 2 ["z"%byte; "z"%byte] false].
Proof.
  split; [by_compute|]. split; [by_compute|]. split; [vm_compute; reflexivity|].
  eexists. split; vm_compute; reflexivity.
Qed.

(** X3. An absent key: the record-not-found error, and the node is untouched. *)
Lemma leafNode_updateCell_missing (n : leafNode) (k : Z) (v : list byte) :
  leaf_valid n → leaf_sorted n → len v ≤ maxValueSize → k ∉ leaf_keys n →
  leafNode_updateCell n k v = Ret (n, Some (ErrRecordNotFound k)).
Proof.
  intros Hv Hs Hlen Hk. unfold leafNode_updateCell.
  rewrite checkRowSizeLimit_small by done.
  destruct (leafNode_find_missing n k Hv Hs Hk) as [i ->]. done.
Qed.

Lemma leafNode_updateCell_missing_witness :
  leafNode_updateCell ex_leaf 25 ["z"%byte]
  = Ret (ex_leaf, Some (ErrRecordNotFound 25)).
Proof.
  apply (leafNode_updateCell_missing ex_leaf 25 ["z"%byte]).
  - by_compute.
  - by_compute.
  - vm_compute. discriminate.
  - by_compute.
Defined.

(** A key found at slot [i]: the call returns nil and overwrites the value
    and the value size of [cells[i]], the cell at index [i] of the cell
    array. *)
Lemma leafNode_updateCell_found (n : leafNode) (k : Z) (v : list byte)
    (i : nat) (c : leafNodeCell) :
  leaf_valid n → leaf_sorted n → len v ≤ maxValueSize →
  leaf_keys n !! i = Some k → ln_cells n !! i = Some (Some c) →
  leafNode_updateCell n k v =
  Ret (leafNode_set_cells n
         (<[i := Some (mkLeafCell (lnc_key c) (uint32 (len v)) v
                         (lnc_deleted c))]> (ln_cells n)), None).
Proof.
  intros Hv Hs Hlen Hk Hc. unfold leafNode_updateCell.
  rewrite checkRowSizeLimit_small by done.
  rewrite (leafNode_find_found n k i Hv Hs Hk). simpl.
  assert (index (ln_cells n) (Z.of_nat i) = Ret (Some c)) as ->.
  { apply index_Ret. split; [lia|]. by rewrite Nat2Z.id. }
  simpl. by rewrite Nat2Z.id.
Qed.

(** X4. When moreover slot [i] is cell [i], this is the update C6 describes:
    the entry of key [k] gets the new value and size, every other entry is
    unchanged. *)
Lemma leafNode_updateCell_in_order (n : leafNode) (k : Z) (v : list byte)
    (i : nat) (c : leafNodeCell) :
  leaf_valid n → leaf_sorted n → len v ≤ maxValueSize →
  leaf_entries n !! i = Some c → lnc_key c = k →
  offsets (ln_node n) !! i = Some (Z.of_nat i) →
  ∃ n', leafNode_updateCell n k v = Ret (n', None) ∧
    leaf_entries n' =
      <[i := mkLeafCell k (uint32 (len v)) v (lnc_deleted c)]> (leaf_entries n).
Proof.
  intros Hv Hs Hlen Hc Hkey Hoff.
  assert (Hk : leaf_keys n !! i = Some k).
  { unfold leaf_keys. rewrite list_lookup_fmap, Hc. simpl. by rewrite Hkey. }
  pose proof (entries_lookup _ _ _ _ Hv Hoff) as Hcell.
  unfold leaf_entries in Hc. rewrite Hc in Hcell. symmetry in Hcell.
  apply cellAt_lookup in Hcell as [_ Hcell]. rewrite Nat2Z.id in Hcell.
  eexists. split; [by apply (leafNode_updateCell_found n k v i c)|].
  rewrite Hkey. set (c' := mkLeafCell k _ _ _).
  set (cells' := <[i := Some c']> (ln_cells n)).
  assert (Hcells' : ∀ off, is_Some (cellAt (ln_cells n) off) →
            cellAt cells' off
            = if decide (off = Z.of_nat i) then Some c'
              else cellAt (ln_cells n) off).
  { intros off [x Hx]. pose proof (cellAt_lt _ _ _ Hx) as Hlt.
    unfold len in Hlt. case_decide as Hd.
    - subst off. apply cellAt_lookup. split; [lia|]. rewrite Nat2Z.id.
      apply list_lookup_insert_eq. lia.
    - rewrite Hx. apply cellAt_lookup in Hx as [? Hx]. apply cellAt_lookup.
      split; [done|]. unfold cells'. rewrite list_lookup_insert_ne by lia. done. }
  assert (Hv' : slots_valid (offsets (ln_node n)) cells').
  { unfold slots_valid in *. eapply Forall_impl; [exact Hv|].
    intros off Hoffv. simpl in *. rewrite (Hcells' off Hoffv).
    case_decide; eauto. }
  apply list_eq. intros j. unfold leaf_entries. simpl.
  destruct (offsets (ln_node n) !! j) as [off|] eqn:Ej.
  - rewrite (entries_lookup _ _ _ _ Hv' Ej).
    assert (Hoffv : is_Some (cellAt (ln_cells n) off)).
    { unfold leaf_valid, slots_valid in Hv. rewrite Forall_forall in Hv.
      apply Hv, list_elem_of_lookup. eauto. }
    rewrite (Hcells' off Hoffv).
    destruct (decide (j = i)) as [->|Hne].
    + assert (off = Z.of_nat i) as -> by congruence.
      rewrite decide_True by done. symmetry.
      apply list_lookup_insert_eq. rewrite entries_length by done.
      by eapply lookup_lt_Some.
    + rewrite list_lookup_insert_ne by done.
      rewrite (entries_lookup _ _ _ _ Hv Ej).
      case_decide as Hd; [|done]. exfalso. subst off.
      destruct Hoffv as [x Hx].
      assert (leaf_keys n !! j = Some k).
      { unfold leaf_keys, leaf_entries.
        rewrite list_lookup_fmap, (entries_lookup _ _ _ _ Hv Ej).
        apply cellAt_lookup in Hx as [_ Hx]. rewrite Nat2Z.id in Hx.
        assert (x = c) by congruence. subst x.
        rewrite (proj2 (cellAt_lookup _ _ c)); [simpl; by rewrite Hkey|].
        split; [lia | by rewrite Nat2Z.id]. }
      destruct (Nat.lt_trichotomy j i) as [?|[?|?]]; [|done|].
      * assert (k < k); [|lia].
        by eapply (StronglySorted_lookup_lt _ j i k k Hs).
      * assert (k < k); [|lia].
        by eapply (StronglySorted_lookup_lt _ i j k k Hs).
  - rewrite list_lookup_insert_ne.
    + rewrite !(proj2 (lookup_ge_None _ _)); [done|..].
      * rewrite entries_length by done. by apply lookup_ge_None.
      * rewrite entries_length by done. by apply lookup_ge_None.
    + intros ->. congruence.
Qed.

Lemma leafNode_updateCell_in_order_witness :
  ∃ n', leafNode_updateCell ex_leaf 10 ["z"%byte; "z"%byte] = Ret (n', None) ∧
    leaf_entries n' =
      [mkLeafCell 10 2 ["z"%byte; "z"%byte] false;
       mkLeafCell 20 1 ["c"%byte] false; mkLeafCell 30 1 ["b"%byte] false].
Proof.
  apply (leafNode_updateCell_in_order ex_leaf 10 ["z"%byte; "z"%byte] 0
           (mkLeafCell 10 1 ["a"%byte] false)).
  - by_compute.
  - by_compute.
  - vm_compute. discriminate.
  - reflexivity.
  - reflexivity.
  - reflexivity.
Defined.

(** ** Inserting into an internal node *)

Lemma openSlot_insert (offs : list Z) (s x : Z) :
  0 ≤ s < len offs →
  <[Z.to_nat s := x]> (openSlot offs s)
  = take (Z.to_nat s) offs ++ x :: drop (Z.to_nat s) offs.
Proof.
  unfold len, openSlot. intros Hs.
  replace (Z.to_nat (s + 1)) with (S (Z.to_nat s)) by lia.
  destruct (lookup_lt_is_Some_2 offs (Z.to_nat s)) as [b Hb]; [lia|].
  rewrite (take_S_r _ _ _ Hb), <-app_assoc. simpl.
  rewrite insert_app_r_alt; rewrite length_take; [|lia].
  replace (Z.to_nat s - Z.to_nat s `min` length offs)%nat with 0%nat by lia.
  done.
Qed.

(** The closed form of [insertCell] at an occupied slot. *)
Lemma internalNode_insertCell_eq (n : internalNode) (s k fo b : Z)
    (c : internalNodeCell) :
  len (in_cells n) < 65536 → 0 ≤ s →
  offsets (in_node n) !! Z.to_nat s = Some b →
  cellAt (in_cells n) b = Some c →
  internalNode_insertCell n s k fo =
  Ret (mkInternal
         (set_offsets (in_node n)
            (take (Z.to_nat s) (offsets (in_node n)) ++
             len (in_cells n) :: drop (Z.to_nat s) (offsets (in_node n))))
         (<[Z.to_nat b := Some (mkInternalCell (inc_key c) fo)]> (in_cells n)
          ++ [Some (mkInternalCell k (inc_fileOffset c))])
         (rightOffset n), None).
Proof.
  intros Hlen Hs Hb Hc. pose proof (lookup_lt_Some _ _ _ Hb) as Hslt.
  pose proof (cellAt_lt _ _ _ Hc) as Hblt.
  apply cellAt_lookup in Hc as [Hb0 Hc].
  unfold internalNode_insertCell. rewrite decide_True by (unfold len; lia).
  rewrite openSlot_insert by (unfold len; lia).
  rewrite uint16_small by (unfold len in *; lia).
  set (offs := offsets (in_node n)) in *. set (cells := in_cells n) in *.
  assert (Hts : length (take (Z.to_nat s) offs) = Z.to_nat s)
    by (rewrite length_take; lia).
  assert (index (take (Z.to_nat s) offs ++ len cells :: drop (Z.to_nat s) offs) s
          = Ret (len cells)) as ->.
  { apply index_Ret. split; [done|].
    rewrite lookup_app_r; rewrite Hts; [|lia]. by rewrite Nat.sub_diag. }
  simpl.
  assert (index (cells ++ [Some (mkInternalCell k fo)]) (len cells)
          = Ret (Some (mkInternalCell k fo))) as ->.
  { apply index_Ret. unfold len. split; [lia|]. rewrite Nat2Z.id.
    rewrite lookup_app_r by lia. by rewrite Nat.sub_diag. }
  simpl.
  assert (index (take (Z.to_nat s) offs ++ len cells :: drop (Z.to_nat s) offs)
            (s + 1) = Ret b) as ->.
  { apply index_Ret. split; [lia|].
    rewrite lookup_app_r; rewrite Hts; [|lia].
    replace (Z.to_nat (s + 1) - Z.to_nat s)%nat with 1%nat by lia. simpl.
    rewrite lookup_drop. by rewrite Nat.add_0_r. }
  simpl.
  assert (index (cells ++ [Some (mkInternalCell k fo)]) b = Ret (Some c)) as ->.
  { apply index_Ret. split; [done|]. rewrite lookup_app_l; [done|].
    unfold len in *. lia. }
  simpl.
  assert (Z.to_nat (len cells) = length cells) as -> by (unfold len; lia).
  rewrite (insert_app_r_alt cells) by lia. rewrite Nat.sub_diag. simpl.
  assert (index (cells ++ [Some (mkInternalCell k (inc_fileOffset c))]) b
          = Ret (Some c)) as ->.
  { apply index_Ret. split; [done|]. rewrite lookup_app_l; [done|].
    unfold len in *. lia. }
  simpl. rewrite insert_app_l by (unfold len in *; lia). done.
Qed.

Section internal_insert.
Variables (n : internalNode) (s k fo b : Z) (c : internalNodeCell).
Hypothesis Hvalid : internal_valid n.
Hypothesis Hb : offsets (in_node n) !! Z.to_nat s = Some b.
Hypothesis Hc : cellAt (in_cells n) b = Some c.

Variable cells' : list (option internalNodeCell).
Hypothesis Hcells' :
  cells' = <[Z.to_nat b := Some (mkInternalCell (inc_key c) fo)]> (in_cells n)
           ++ [Some (mkInternalCell k (inc_fileOffset c))].




End internal_insert.



(** ** Leaf split *)

Lemma leafNode_split_loop (p : leafNode) (idxs : list Z)
    (cs : list leafNodeCell) (pg : leafNode) :
  Forall2 (λ i c, ∃ off, index (offsets (ln_node p)) i = Ret off ∧
                         cellAt (ln_cells p) off = Some c) idxs cs →
  forEach (λ i newPg,
      off ← index (offsets (ln_node p)) i;
      pc ← index (ln_cells p) off;
      cell ← deref pc;
      Ret (leafNode_appendCell newPg (lnc_key cell) (lnc_valueBytes cell)))
    idxs pg
  = Ret (mkLeaf
           (set_offsets (ln_node pg)
              (offsets (ln_node pg) ++
               (uint16 <$> seqZ (len (offsets (ln_node pg))) (len cs))))
           (ln_cells pg ++ (Some <$> (leaf_copy <$> cs)))
           (hasLSib pg) (hasRSib pg) (lSibFileOffset pg) (rSibFileOffset pg),
         None).
Proof.
  intros H. revert pg. induction H as [|i c idxs cs (off & Hi & Hc) _ IH];
    intros pg.
  - simpl. rewrite !app_nil_r. by destruct pg as [[]].
  - simpl. rewrite Hi. simpl. apply cellAt_Some in Hc.
    destruct (index (ln_cells p) off) as [pc|]; [|done]. simpl in *.
    rewrite Hc. simpl. rewrite IH. simpl.
    unfold len. rewrite !length_app. simpl.
    rewrite (seqZ_cons _ (Z.of_nat (S _))) by lia.
    rewrite fmap_cons, <-!app_assoc. simpl. repeat f_equal; lia.
Qed.

(** C4. Leaf split. For a leaf [p] with [n >= 1] slots, all indexing
    allocated cells, and a new page without cells: [split] returns nil; [p]
    keeps exactly its slots [0, mid), [mid = n/2]; the new page holds the
    entries of slots [mid, n) in order, as (key, value) pairs; the returned
    separator is the first key of the new page, which is its smallest key
    when [p] is key-ordered; and the (key, value) pairs of the two pages
    together are those of [p] before the split. *)
Theorem leafNode_split_correct (p newPg : leafNode) :
  leaf_valid p →
  1 ≤ len (offsets (ln_node p)) ≤ 65536 →
  offsets (ln_node newPg) = [] → ln_cells newPg = [] →
  ∃ p' newPg' sep,
    let mid := Z.to_nat (len (offsets (ln_node p)) ÷ 2) in
    leafNode_split p newPg = Ret (p', newPg', (sep, None)) ∧
    p' = leafNode_set_offsets p (take mid (offsets (ln_node p))) ∧
    leaf_valid p' ∧ leaf_valid newPg' ∧
    leaf_entries p' = take mid (leaf_entries p) ∧
    leaf_kv newPg' = drop mid (leaf_kv p) ∧
    head (leaf_keys newPg') = Some sep ∧
    (leaf_sorted p → Forall (λ k, sep ≤ k) (leaf_keys newPg')) ∧
    leaf_kv p' ++ leaf_kv newPg' ≡ₚ leaf_kv p.
Proof.
  intros Hv Hn Hoffs Hcells.
  set (offs := offsets (ln_node p)) in *.
  destruct (quot2_half (len offs)) as [Hm0 Hm]; [lia|].
  set (mid := len offs ÷ 2) in *.
  set (cs := drop (Z.to_nat mid) (leaf_entries p)).
  assert (Hlcs : len cs = len offs - mid).
  { unfold cs, len, leaf_entries. rewrite length_drop, entries_length by done.
    fold offs. unfold len in *. lia. }
  assert (Hloop : Forall2 (λ i c, ∃ off, index offs i = Ret off ∧
            cellAt (ln_cells p) off = Some c) (seqZ mid (len offs - mid)) cs).
  { pose proof (index_seqZ_drop offs mid Hm0) as H1.
    pose proof (Forall2_drop _ _ _ (Z.to_nat mid) (entries_Forall2 _ _ Hv)) as H2.
    apply Forall2_same_length_lookup_2.
    - rewrite (Forall2_length _ _ _ H1). apply (Forall2_length _ _ _ H2).
    - intros i j c Hj Hc.
      destruct (Forall2_lookup_l _ _ _ _ _ H1 Hj) as (off & Hoff & ?).
      destruct (Forall2_lookup_l _ _ _ _ _ H2 Hoff) as (c' & Hc' & ?).
      exists off. split; [done|]. unfold cs, leaf_entries in Hc. congruence. }
  destruct cs as [|c0 cs'] eqn:Ecs; [unfold len in *; simpl in *; lia|].
  rewrite <-Ecs in *.
  set (newPg' := mkLeaf
    (set_offsets (ln_node newPg) (seqZ 0 (len (leaf_copy <$> cs))))
    (Some <$> (leaf_copy <$> cs))
    (hasLSib newPg) (hasRSib newPg) (lSibFileOffset newPg) (rSibFileOffset newPg)).
  assert (Hsplit_loop := leafNode_split_loop p _ _ newPg Hloop).
  rewrite Hoffs, Hcells in Hsplit_loop. simpl in Hsplit_loop.
  change (len []) with 0 in Hsplit_loop.
  rewrite uint16_seqZ in Hsplit_loop by (unfold len in *; lia).
  assert (len (leaf_copy <$> cs) = len cs) as Hlcopy
    by (unfold len; by rewrite length_fmap).
  rewrite <-Hlcopy in Hsplit_loop. fold newPg' in Hsplit_loop.
  destruct (entries_in_order (leaf_copy <$> cs)) as [Hnv Hne].
  assert (Hents : leaf_entries newPg' = leaf_copy <$> cs) by exact Hne.
  assert (Hkv : leaf_kv newPg' = drop (Z.to_nat mid) (leaf_kv p)).
  { unfold leaf_kv. rewrite Hents, <-list_fmap_compose, <-fmap_drop. done. }
  exists (leafNode_set_offsets p (take (Z.to_nat mid) offs)), newPg', (lnc_key c0).
  assert (Hp' : leaf_entries (leafNode_set_offsets p (take (Z.to_nat mid) offs))
                = take (Z.to_nat mid) (leaf_entries p)).
  { unfold leaf_entries. simpl. by apply entries_take. }
  simpl. split; [|split; [done|split; [|split; [done|split; [done|split;
    [done|split; [|split]]]]]]].
  - unfold leafNode_split. subst mid offs. rewrite Hsplit_loop. simpl.
    rewrite Hlcopy, Hlcs, Ecs.
    rewrite (seqZ_cons 0) by lia. simpl. done.
  - unfold leaf_valid. simpl. by apply Forall_take.
  - unfold leaf_keys. rewrite Hents, Ecs. done.
  - intros Hs. apply StronglySorted_head_le.
    + unfold leaf_keys. rewrite Hents, <-list_fmap_compose.
      unfold cs. rewrite fmap_drop.
      eapply (StronglySorted_app_1_r _ (take (Z.to_nat mid) _)).
      rewrite take_drop. exact Hs.
    + unfold leaf_keys. rewrite Hents, Ecs. done.
  - rewrite Hkv. unfold leaf_kv at 1. rewrite Hp', fmap_take, take_drop. done.
Qed.

Lemma leafNode_split_correct_witness :
  ∃ p' newPg' sep,
    leafNode_split ex_leaf newLeafNode = Ret (p', newPg', (sep, None)) ∧
    head (leaf_keys newPg') = Some sep ∧
    leaf_kv p' ++ leaf_kv newPg' ≡ₚ leaf_kv ex_leaf.
Proof.
  destruct (leafNode_split_correct ex_leaf newLeafNode)
    as (p' & newPg' & sep & Hsplit & _ & _ & _ & _ & _ & Hsep & _ & Hperm).
  - by_compute.
  - unfold len. simpl. lia.
  - reflexivity.
  - reflexivity.
  - exists p', newPg', sep. split; [exact Hsplit|]. split; [exact Hsep | exact Hperm].
Defined.

(** The empty leaf: [split] reaches [newPg.offsets[0]] on an empty slot
    array and panics, so no separator is returned. *)
Lemma leafNode_split_empty_panics :
  leaf_valid newLeafNode ∧ leaf_sorted newLeafNode ∧
  ¬ ∃ r, leafNode_split newLeafNode newLeafNode = Ret r.
Proof.
  split; [by_compute|]. split; [constructor|]. intros [r Hr]. vm_compute in Hr.
  discriminate.
Qed.

(** ** Internal split *)

(** C1. [split] on the sample internal node, whose slot order
    (keys 10, 20, 30 with children 4096, 8192, 12288) differs from its cell
    order: the median entry is (20, 8192), but the returned separator is 30
    and the old page's rightmost pointer becomes 12288, both read from
    [cells[mid]] instead of [cells[offsets[mid]]]. Entry (30, 12288) is both
    promoted and moved to the new page, and entry (20, 8192) is lost. *)
Theorem internalNode_split_reads_cell_at_mid :
  internal_valid ex_internal ∧ internal_sorted ex_internal ∧
  internal_entries ex_internal =
    [mkInternalCell 10 4096; mkInternalCell 20 8192; mkInternalCell 30 12288] ∧
  rightOffset ex_internal = 16384 ∧
  ∃ p' newPg',
    internalNode_split ex_internal newInternalNode
      = Ret (p', newPg', (30, None)) ∧
    internal_entries p' = [mkInternalCell 10 4096] ∧
    rightOffset p' = 12288 ∧
    internal_entries newPg' = [mkInternalCell 30 12288] ∧
    rightOffset newPg' = 16384.
Proof.
  split; [by_compute|]. split; [by_compute|].
  split; [vm_compute; reflexivity|]. split; [reflexivity|].
  do 2 eexists. split; [vm_compute; reflexivity|]. vm_compute. done.
Qed.

Lemma internalNode_split_loop (p : internalNode) (idxs : list Z)
    (cs : list internalNodeCell) (pg : internalNode) :
  Forall2 (λ i c, ∃ off, index (offsets (in_node p)) i = Ret off ∧
                         cellAt (in_cells p) off = Some c) idxs cs →
  forEach (λ i newPg,
      off ← index (offsets (in_node p)) i;
      pc ← index (in_cells p) off;
      cell ← deref pc;
      Ret (internalNode_appendCell newPg (inc_key cell) (inc_fileOffset cell)))
    idxs pg
  = Ret (mkInternal
           (set_offsets (in_node pg)
              (offsets (in_node pg) ++
               (uint16 <$> seqZ (len (offsets (in_node pg))) (len cs))))
           (in_cells pg ++ (Some <$> cs))
           (rightOffset pg),
         None).
Proof.
  intros H. revert pg. induction H as [|i c idxs cs (off & Hi & Hc) _ IH];
    intros pg.
  - simpl. rewrite !app_nil_r. by destruct pg as [[]].
  - rewrite forEach_cons, Hi. simpl. apply cellAt_Some in Hc.
    destruct (index (in_cells p) off) as [pc|]; [|done]. simpl in *.
    rewrite Hc. simpl. rewrite IH. simpl.
    unfold len. rewrite !length_app. simpl.
    rewrite (seqZ_cons _ (Z.of_nat (S _))) by lia.
    rewrite fmap_cons, <-!app_assoc. simpl. destruct c.
    repeat f_equal; lia.
Qed.

(** X6. When [cells[mid]] is the cell of slot [mid] (as in a node built by
    [appendCell] alone), [split] does what C1 describes: the old page keeps
    the entries of slots [0, mid), the new page receives those of slots
    (mid, n) in order and inherits the rightmost pointer, the median's key
    is returned and its child becomes the old page's rightmost pointer;
    keys and child pointers are conserved. *)
Lemma internalNode_split_in_order (p newPg : internalNode) :
  internal_valid p →
  len (offsets (in_node p)) ≤ 65536 →
  offsets (in_node newPg) = [] → in_cells newPg = [] →
  let mid := Z.to_nat (len (offsets (in_node p)) ÷ 2) in
  offsets (in_node p) !! mid = Some (Z.of_nat mid) →
  ∃ p' newPg' c,
    internalNode_split p newPg = Ret (p', newPg', (inc_key c, None)) ∧
    internal_entries p !! mid = Some c ∧
    internal_entries p' = take mid (internal_entries p) ∧
    internal_entries newPg' = drop (S mid) (internal_entries p) ∧
    rightOffset p' = inc_fileOffset c ∧
    rightOffset newPg' = rightOffset p ∧
    internal_keys p' ++ inc_key c :: internal_keys newPg' = internal_keys p ∧
    (inc_fileOffset <$> internal_entries p') ++ rightOffset p'
      :: (inc_fileOffset <$> internal_entries newPg') ++ [rightOffset newPg']
    = (inc_fileOffset <$> internal_entries p) ++ [rightOffset p].
Proof.
  intros Hv Hn Hoffs Hcells mid Hmid.
  pose proof (lookup_lt_Some _ _ _ Hmid) as Hlt.
  destruct (quot2_half (len (offsets (in_node p)))) as [Hm0 Hm];
    [unfold len; lia|].
  assert (Hmidz : Z.of_nat mid = len (offsets (in_node p)) ÷ 2)
    by (unfold mid; lia).
  destruct (Forall2_lookup_l _ _ _ _ _ (entries_Forall2 _ _ Hv) Hmid)
    as (c & Hc & Hcell).
  set (cs := drop (S mid) (internal_entries p)).
  assert (Hloop := slots_seqZ_drop _ _ (Z.of_nat mid + 1) Hv ltac:(lia)).
  replace (Z.to_nat (Z.of_nat mid + 1)) with (S mid) in Hloop by lia.
  fold (internal_entries p) in Hloop. fold cs in Hloop.
  assert (Hlcs : len cs = len (offsets (in_node p)) - (Z.of_nat mid + 1)).
  { unfold cs, len, internal_entries. rewrite length_drop, entries_length by done.
    lia. }
  assert (Hsplit_loop := internalNode_split_loop p _ _ newPg Hloop).
  rewrite Hoffs, Hcells in Hsplit_loop. simpl in Hsplit_loop.
  change (len []) with 0 in Hsplit_loop.
  rewrite uint16_seqZ in Hsplit_loop by (unfold len in *; lia).
  destruct (entries_in_order cs) as [Hnv Hne].
  exists (internalNode_set_offsets
            (internalNode_setRightMostKey p (inc_fileOffset c))
            (take mid (offsets (in_node p)))),
    (internalNode_setRightMostKey
       (mkInternal (set_offsets (in_node newPg) (seqZ 0 (len cs)))
          (Some <$> cs) (rightOffset newPg)) (rightOffset p)), c.
  assert (Hp' : entries (take mid (offsets (in_node p))) (in_cells p)
                = take mid (internal_entries p)) by (by apply entries_take).
  split; [|split; [done|split; [done|split; [done|split; [done|split;
    [done|split]]]]]].
  - unfold internalNode_split. rewrite <-Hmidz, Hsplit_loop. simpl.
    apply cellAt_Some in Hcell.
    destruct (index (in_cells p) (Z.of_nat mid)) as [pk|]; [|done].
    simpl in *. rewrite Hcell. simpl. unfold mid. by rewrite Nat2Z.id.
  - unfold internal_keys, internal_entries at 1 2. simpl. rewrite Hp', Hne.
    unfold cs. rewrite <-fmap_cons, <-fmap_app.
    rewrite <-(take_drop_middle _ _ _ Hc) at 3. done.
  - unfold internal_entries at 1 2. simpl. rewrite Hp', Hne. unfold cs.
    rewrite <-(take_drop_middle _ _ _ Hc) at 3.
    rewrite fmap_app, fmap_cons, <-!app_assoc. done.
Qed.

Lemma internalNode_split_in_order_witness :
  ∃ p' newPg',
    internalNode_split ex_internal_appended newInternalNode
      = Ret (p', newPg', (30, None)) ∧
    internal_entries p' = [mkInternalCell 10 4096; mkInternalCell 20 8192] ∧
    rightOffset p' = 12288 ∧
    internal_entries newPg' = [mkInternalCell 40 16384] ∧
    rightOffset newPg' = 20480.
Proof.
  destruct (internalNode_split_in_order ex_internal_appended newInternalNode)
    as (p' & newPg' & c & Hsplit & Hc & Hp' & Hn' & Hr & Hr' & _).
  - by_compute.
  - unfold len. simpl. lia.
  - reflexivity.
  - reflexivity.
  - reflexivity.
  - injection Hc as <-. exists p', newPg'.
    split; [exact Hsplit|]. split; [exact Hp'|]. split; [exact Hr|].
    split; [exact Hn' | exact Hr'].
Defined.

(** ** Little-endian integers and buffers *)

Lemma Z_of_byte_of_Z (z : Z) : Z_of_byte (byte_of_Z z) = z mod 256.
Proof.
  unfold Z_of_byte, byte_of_Z.
  pose proof (Z.mod_pos_bound z 256 eq_refl) as Hz.
  destruct (Byte.of_N (Z.to_N (z mod 256))) as [b|] eqn:E; simpl.
  - apply Byte.to_of_N in E. rewrite E. lia.
  - apply Byte.of_N_None_iff in E. lia.
Qed.

Lemma Z_of_byte_range (b : byte) : 0 ≤ Z_of_byte b < 256.
Proof.
  unfold Z_of_byte. pose proof (Byte.to_N_bounded b). lia.
Qed.

Lemma length_putUint (w : nat) (z : Z) : length (putUint w z) = w.
Proof. revert z. induction w as [|w IH]; intros z; simpl; [done|]. by rewrite IH. Qed.

Lemma getUint_putUint (w : nat) (z : Z) :
  0 ≤ z < 256 ^ Z.of_nat w → getUint (putUint w z) = z.
Proof.
  revert z. induction w as [|w IH]; intros z Hz; simpl.
  - change (256 ^ Z.of_nat 0) with 1 in Hz. lia.
  - rewrite Z_of_byte_of_Z.
    rewrite Nat2Z.inj_succ, Z.pow_succ_r in Hz by lia.
    rewrite IH.
    + pose proof (Z.div_mod z 256). lia.
    + split; [apply Z.div_pos; lia | apply Z.div_lt_upper_bound; lia].
Qed.

Lemma binary_Read_putUint (w : nat) (z : Z) (rest : list byte) :
  (0 < w)%nat → 0 ≤ z < 256 ^ Z.of_nat w →
  binary_Read w (putUint w z ++ rest) = inl (z, rest).
Proof.
  intros Hw Hz. unfold binary_Read.
  destruct (putUint w z ++ rest) as [|b l] eqn:E.
  { apply (f_equal length) in E. rewrite length_app, length_putUint in E.
    simpl in E. lia. }
  rewrite <-E. rewrite decide_False by (rewrite length_app, length_putUint; lia).
  rewrite take_app_length', drop_app_length' by (by rewrite length_putUint).
  by rewrite getUint_putUint.
Qed.

Lemma readInto_putUint {S} (w : nat) (z : Z) (rest : list byte) (s : S) k :
  (0 < w)%nat → 0 ≤ z < 256 ^ Z.of_nat w →
  readInto w (putUint w z ++ rest) s k = k z rest.
Proof. intros. unfold readInto. by rewrite binary_Read_putUint. Qed.

Lemma putBool_putUint (b : bool) : putBool b = putUint 1 (if b then 1 else 0).
Proof. by destruct b. Qed.

Lemma getBool_of_bool (b : bool) : getBool (if b then 1 else 0) = b.
Proof. by destruct b. Qed.

Lemma bool_byte_range (b : bool) :
  0 ≤ (if b then 1 else 0) < 256 ^ Z.of_nat 1.
Proof. destruct b; change (256 ^ Z.of_nat 1) with 256; lia. Qed.

Lemma Buffer_Read_app (v rest : list byte) :
  Buffer_Read (len v) (v ++ rest) = inl (v, rest).
Proof.
  unfold Buffer_Read, len. rewrite Nat2Z.id.
  destruct (v ++ rest) as [|b l] eqn:E.
  - apply app_eq_nil in E as [-> ->]. done.
  - rewrite <-E, take_app_length, drop_app_length, Nat.sub_diag. simpl.
    by rewrite app_nil_r.
Qed.

Lemma join_fmap_cons {A} (f : A → list byte) (x : A) (l : list A) :
  mjoin (f <$> (x :: l)) = f x ++ mjoin (f <$> l).
Proof. done. Qed.

Lemma foldl_putUint (buf : list byte) (offs : list Z) :
  foldl (λ buf off, buf ++ putUint 2 off) buf offs
  = buf ++ mjoin (putUint 2 <$> offs).
Proof.
  revert buf. induction offs as [|off offs IH]; intros buf; csimpl.
  - by rewrite app_nil_r.
  - rewrite IH. by rewrite <-app_assoc.
Qed.

Lemma length_join_putUint (w : nat) (offs : list Z) :
  length (mjoin (putUint w <$> offs)) = (w * length offs)%nat.
Proof.
  induction offs as [|off offs IH]; csimpl; [lia|].
  rewrite length_app, length_putUint, IH. lia.
Qed.

(** ** Page codec: encoded size *)

Lemma internal_footer (p : internalNode) (idxs : list Z)
    (cs : list internalNodeCell) (acc : list byte) :
  Forall2 (λ i c, ∃ off, index (offsets (in_node p)) i = Ret off ∧
                         cellAt (in_cells p) off = Some c) idxs cs →
  foldM (λ bufFooter i,
      off ← index (offsets (in_node p)) i;
      pc ← index (in_cells p) off;
      keyCell ← deref pc;
      Ret ((bufFooter ++ putUint 4 (inc_key keyCell))
           ++ putUint 8 (inc_fileOffset keyCell))) idxs acc
  = Ret (acc ++ mjoin (encodeInternalCell <$> cs)).
Proof.
  intros H. revert acc. induction H as [|i c idxs cs (off & Hi & Hc) _ IH];
    intros acc; csimpl.
  - by rewrite app_nil_r.
  - rewrite Hi. simpl. apply cellAt_Some in Hc.
    destruct (index (in_cells p) off) as [pc|]; [|done]. simpl in *.
    rewrite Hc. simpl. rewrite IH. unfold encodeInternalCell.
    by rewrite <-!app_assoc.
Qed.

Lemma leaf_footer (p : leafNode) (idxs : list Z)
    (cs : list leafNodeCell) (acc : list byte) :
  Forall2 (λ i c, ∃ off, index (offsets (ln_node p)) i = Ret off ∧
                         cellAt (ln_cells p) off = Some c) idxs cs →
  foldM (λ bufFooter i,
      off ← index (offsets (ln_node p)) i;
      pc ← index (ln_cells p) off;
      keyCell ← deref pc;
      Ret ((((bufFooter ++ putUint 4 (lnc_key keyCell))
             ++ putBool (lnc_deleted keyCell))
            ++ putUint 4 (lnc_valueSize keyCell))
           ++ lnc_valueBytes keyCell)) idxs acc
  = Ret (acc ++ mjoin (encodeLeafCell <$> cs)).
Proof.
  intros H. revert acc. induction H as [|i c idxs cs (off & Hi & Hc) _ IH];
    intros acc; csimpl.
  - by rewrite app_nil_r.
  - rewrite Hi. simpl. apply cellAt_Some in Hc.
    destruct (index (ln_cells p) off) as [pc|]; [|done]. simpl in *.
    rewrite Hc. simpl. rewrite IH. unfold encodeLeafCell.
    by rewrite <-!app_assoc.
Qed.

Lemma length_internal_footer (cs : list internalNodeCell) :
  len (mjoin (encodeInternalCell <$> cs)) = 12 * len cs.
Proof.
  unfold len. induction cs as [|c cs IH]; csimpl; [done|].
  lia.
Qed.

Lemma length_leaf_footer (cs : list leafNodeCell) :
  Forall (λ c, len (lnc_valueBytes c) ≤ maxValueSize) cs →
  0 ≤ len (mjoin (encodeLeafCell <$> cs)) ≤ 409 * len cs.
Proof.
  unfold len, maxValueSize. induction 1 as [|c cs Hc _ IH]; csimpl; [lia|].
  rewrite ?length_app. lia.
Qed.

(** The closed form of [encode] on a node within the page limits. *)
Lemma internalNode_encode_eq (p : internalNode) :
  internal_valid p →
  len (offsets (in_node p)) ≤ maxInternalNodeCells →
  internalNode_encode p =
  Ret (putUint 1 InternalNode ++ putUint 8 (fileOffset (in_node p))
       ++ putUint 8 (lastLSN (in_node p)) ++ putUint 8 (rightOffset p)
       ++ putUint 4 (len (offsets (in_node p)))
       ++ mjoin (putUint 2 <$> offsets (in_node p))
       ++ putUint 2 (4065 - 14 * len (offsets (in_node p)))
       ++ replicate (Z.to_nat (4065 - 14 * len (offsets (in_node p)))) x00
       ++ mjoin (encodeInternalCell <$> internal_entries p)).
Proof.
  intros Hv Hn. change maxInternalNodeCells with 290 in Hn.
  unfold internalNode_encode. cbv zeta.
  assert (0 ≤ len (offsets (in_node p))) by (unfold len; lia).
  rewrite uint32_small by lia.
  rewrite (internal_footer p _ _ [] (slots_seqZ_entries _ _ Hv)).
  rewrite go_bind_Ret, foldl_putUint, !app_nil_l.
  fold (internal_entries p).
  set (footer := mjoin (encodeInternalCell <$> internal_entries p)).
  assert (Hf : len footer = 12 * len (offsets (in_node p))).
  { unfold footer. rewrite length_internal_footer. unfold len, internal_entries.
    by rewrite entries_length. }
  set (body := mjoin (putUint 2 <$> offsets (in_node p))).
  assert (Hb : len body = 2 * len (offsets (in_node p))).
  { unfold body, len. rewrite length_join_putUint. lia. }
  repeat rewrite <-app_assoc.
  match goal with |- context [uint16 ?x] =>
    assert (x = 4065 - 14 * len (offsets (in_node p))) as -> end.
  { unfold len in *. rewrite !length_app, !length_putUint.
    change pageSize with 4096. lia. }
  rewrite uint16_small by lia.
  rewrite decide_False; [done|]. intros Hne. apply Hne.
  unfold len in *. rewrite !length_app, !length_putUint, length_replicate.
  change pageSize with 4096. lia.
Qed.

Lemma leafNode_encode_eq (p : leafNode) :
  leaf_valid p →
  len (offsets (ln_node p)) ≤ maxLeafNodeCells →
  Forall (λ c, len (lnc_valueBytes c) ≤ maxValueSize) (leaf_entries p) →
  let footer := mjoin (encodeLeafCell <$> leaf_entries p) in
  let free := 4055 - 2 * len (offsets (ln_node p)) - len footer in
  0 ≤ free < 65536 ∧
  leafNode_encode p =
  Ret (putUint 1 LeafNode ++ putUint 8 (fileOffset (ln_node p))
       ++ putUint 8 (lastLSN (ln_node p))
       ++ putBool (hasLSib p) ++ putBool (hasRSib p)
       ++ putUint 8 (lSibFileOffset p) ++ putUint 8 (rSibFileOffset p)
       ++ putUint 4 (len (offsets (ln_node p)))
       ++ mjoin (putUint 2 <$> offsets (ln_node p))
       ++ putUint 2 free ++ replicate (Z.to_nat free) x00 ++ footer).
Proof.
  intros Hv Hn Hvals footer free. change maxLeafNodeCells with 9 in Hn.
  assert (0 ≤ len (offsets (ln_node p))) by (unfold len; lia).
  assert (Hf : 0 ≤ len footer ≤ 409 * len (offsets (ln_node p))).
  { unfold footer. pose proof (length_leaf_footer _ Hvals) as Hl.
    unfold len, leaf_entries in *. by rewrite entries_length in Hl. }
  split; [unfold free; lia|].
  unfold leafNode_encode. cbv zeta.
  rewrite uint32_small by lia.
  rewrite (leaf_footer p _ _ [] (slots_seqZ_entries _ _ Hv)).
  rewrite go_bind_Ret, foldl_putUint, !app_nil_l.
  fold (leaf_entries p). fold footer.
  set (body := mjoin (putUint 2 <$> offsets (ln_node p))).
  assert (Hb : len body = 2 * len (offsets (ln_node p))).
  { unfold body, len. rewrite length_join_putUint. lia. }
  repeat rewrite <-app_assoc.
  match goal with |- context [uint16 ?x] => assert (x = free) as -> end.
  { unfold free, len in *. rewrite !length_app, !length_putUint.
    change pageSize with 4096. simpl. lia. }
  rewrite uint16_small by (unfold free; lia).
  rewrite decide_False; [done|]. intros Hne. apply Hne.
  unfold free, len in *.
  rewrite !length_app, !length_putUint, length_replicate.
  change pageSize with 4096. simpl. lia.
Qed.

(** C3. Page size. A node whose slots index allocated cells, whose slot
    count is within the maximum of its type and, for a leaf, whose values
    are at most 400 bytes long encodes without panicking into a buffer of
    exactly 4096 bytes. *)
Theorem encode_page_size (n : btreeNode) :
  btree_valid n →
  len (offsets (btree_node n)) ≤ btree_maxCells n →
  btree_values_fit n →
  ∃ buf, btree_encode n = Ret buf ∧ len buf = pageSize.
Proof.
  destruct n as [p|p]; simpl; intros Hv Hn Hfit.
  - assert (0 ≤ len (offsets (in_node p))) by (unfold len; lia).
    eexists. split; [by apply internalNode_encode_eq|].
    change maxInternalNodeCells with 290 in Hn.
    pose proof (length_internal_footer (internal_entries p)) as Hf.
    unfold internal_entries in Hf at 2.
    unfold len in *. rewrite entries_length in Hf by done.
    rewrite !length_app, !length_putUint, length_replicate,
      length_join_putUint.
    change pageSize with 4096. lia.
  - destruct (leafNode_encode_eq p Hv Hn Hfit) as [Hfree Heq].
    eexists. split; [exact Heq|].
    unfold len in *.
    rewrite !length_app, !length_putUint, length_replicate,
      length_join_putUint.
    change pageSize with 4096. simpl. lia.
Qed.

Lemma encode_page_size_witness :
  (∃ buf, btree_encode (Leaf ex_leaf) = Ret buf ∧ len buf = pageSize) ∧
  (∃ buf, btree_encode (Internal ex_internal) = Ret buf ∧ len buf = pageSize).
Proof.
  split.
  - apply (encode_page_size (Leaf ex_leaf)).
    + by_compute.
    + vm_compute. discriminate.
    + by_compute.
  - apply (encode_page_size (Internal ex_internal)).
    + by_compute.
    + vm_compute. discriminate.
    + exact I.
Defined.

(** ** Page codec: decoding an encoded page *)

(** C2. The sample leaf left behind by a split satisfies the node
    invariants (its slot indexes an allocated cell, keys strictly ordered,
    one slot and three cells of at most nine, [valueSize = len(value) <=
    400]) and encodes to
    4096 bytes, but decoding that page panics: [decode] allocates
    [cellCount = 1] cells and stores the cell at [p.cells[p.offsets[0]]]
    with [p.offsets[0] = 2]. *)
Theorem decode_encode_panics_after_split :
  leaf_valid ex_leaf_split ∧ leaf_sorted ex_leaf_split ∧
  len (offsets (ln_node ex_leaf_split)) ≤ maxLeafNodeCells ∧
  len (ln_cells ex_leaf_split) ≤ maxLeafNodeCells ∧
  Forall (λ c, lnc_valueSize c = len (lnc_valueBytes c) ∧
               len (lnc_valueBytes c) ≤ maxValueSize)
    (leaf_entries ex_leaf_split) ∧
  ∃ buf, leafNode_encode ex_leaf_split = Ret buf ∧ len buf = pageSize ∧
         leafNode_decode newLeafNode buf = Panic.
Proof.
  split; [by_compute|]. split; [by_compute|].
  split; [vm_compute; discriminate|]. split; [vm_compute; discriminate|].
  split; [by_compute|].
  eexists. split; [vm_compute; reflexivity|]. split; vm_compute; reflexivity.
Qed.

(** The loop of [decode] that reads the slot array. *)
Lemma decode_offsets_loop (idxs os acc : list Z) (rest : list byte) :
  length idxs = length os →
  Forall (λ o, 0 ≤ o < 65536) os →
  forEach (λ (_ : Z) '(offs, buf),
      match binary_Read 2 buf with
      | inr e => Ret ((offs, buf), Some e)
      | inl (offset, buf) => Ret ((offs ++ [offset], buf), None)
      end) idxs (acc, mjoin (putUint 2 <$> os) ++ rest)
  = Ret ((acc ++ os, rest), None).
Proof.
  intros Hlen Hos. revert idxs acc Hlen.
  induction Hos as [|o os Ho _ IH]; intros [|i idxs] acc Hlen; try done.
  - simpl. by rewrite app_nil_r.
  - rewrite forEach_cons, join_fmap_cons, <-app_assoc.
    rewrite binary_Read_putUint by (change (256 ^ Z.of_nat 2) with 65536; lia).
    rewrite go_bind_Ret. cbn [fst snd].
    rewrite IH by (simpl in Hlen; lia). by rewrite <-app_assoc.
Qed.

(** Scattering decoded cells to their slots. *)
Lemma scatter_cellAt {A} (ocs : list (Z * A)) (cells : list (option A)) :
  Forall (λ oc, 0 ≤ oc.1 < len cells) ocs →
  (∀ oc oc', oc ∈ ocs → oc' ∈ ocs → oc.1 = oc'.1 → oc.2 = oc'.2) →
  ∀ oc, oc ∈ ocs →
    cellAt (foldl (λ cells oc, <[Z.to_nat oc.1 := Some oc.2]> cells) cells ocs)
      oc.1 = Some oc.2.
Proof.
  induction ocs as [|x ocs IH] using rev_ind; intros Hr Hf oc Hoc.
  { inversion Hoc. }
  apply Forall_app in Hr as [Hr Hx]. rewrite Forall_singleton in Hx.
  simpl in Hx. rewrite foldl_app. simpl.
  assert (Hxin : x ∈ ocs ++ [x])
    by (apply elem_of_app; right; by apply list_elem_of_singleton).
  set (cs := foldl _ cells ocs).
  assert (Hl : length cs = length cells).
  { unfold cs. clear. revert cells. induction ocs as [|y ocs IH]; intros cells;
      simpl; [done|]. by rewrite IH, length_insert. }
  destruct (decide (oc.1 = x.1)) as [Heq|Hne].
  - rewrite Heq. rewrite (Hf oc x); [|done|done|done].
    apply cellAt_lookup. split; [lia|].
    apply list_lookup_insert_eq. unfold len in *. lia.
  - apply elem_of_app in Hoc as [Hoc|Hoc%list_elem_of_singleton];
      [|by subst].
    assert (Hoc' : cellAt cs oc.1 = Some oc.2).
    { apply IH; [done| |done]. intros. apply Hf; [| |done];
        apply elem_of_app; by left. }
    apply cellAt_lookup in Hoc' as [? Hoc']. apply cellAt_lookup.
    split; [done|]. rewrite list_lookup_insert_ne; [done|].
    lia.
Qed.

(** The cells of a decoded page, read through the slot array, are the
    encoded cells. *)
Lemma scatter_entries {A} (offs : list Z) (cs : list A)
    (orig cells : list (option A)) :
  Forall2 (λ off c, cellAt orig off = Some c) offs cs →
  Forall (λ off, off < len cells) offs →
  let cells' := foldl (λ cells oc, <[Z.to_nat oc.1 := Some oc.2]> cells)
                  cells (zip offs cs) in
  slots_valid offs cells' ∧ entries offs cells' = cs.
Proof.
  intros Hcs Hlt cells'. apply entries_of_Forall2.
  apply Forall2_same_length_lookup_2; [by eapply Forall2_length|].
  intros i off c Hoff Hc.
  assert (Hin : (off, c) ∈ zip offs cs).
  { apply list_elem_of_lookup. exists i. rewrite lookup_zip_with, Hoff. simpl.
    by rewrite Hc. }
  unfold cells'.
  refine (scatter_cellAt (zip offs cs) cells _ _ (off, c) Hin).
  - apply Forall_forall. intros [o x] [j Hj]%list_elem_of_lookup.
    apply lookup_zip_with_Some in Hj as (o' & x' & [= <- <-] & Ho & Hx).
    destruct (Forall2_lookup_l _ _ _ _ _ Hcs Ho) as (x'' & _ & Hcell).
    pose proof (cellAt_lt _ _ _ Hcell). rewrite Forall_forall in Hlt.
    simpl. split; [lia|]. apply Hlt, list_elem_of_lookup. eauto.
  - intros [o x] [o' x'] [j Hj]%list_elem_of_lookup
      [j' Hj']%list_elem_of_lookup. simpl. intros <-.
    apply lookup_zip_with_Some in Hj as (? & ? & [= <- <-] & Ho & Hx).
    apply lookup_zip_with_Some in Hj' as (? & ? & [= <- <-] & Ho' & Hx').
    destruct (Forall2_lookup_l _ _ _ _ _ Hcs Ho) as (y & Hy & Hcell).
    destruct (Forall2_lookup_l _ _ _ _ _ Hcs Ho') as (y' & Hy' & Hcell').
    congruence.
Qed.

Lemma decode_internal_cells_loop (offs idxs : list Z)
    (ocs : list (Z * internalNodeCell))
    (cells : list (option internalNodeCell)) (rest : list byte) :
  Forall2 (λ i oc, index offs i = Ret oc.1) idxs ocs →
  Forall (λ oc, 0 ≤ oc.1 < len cells ∧ internalCell_typed oc.2) ocs →
  forEach (λ i '(cells, buf),
      match binary_Read 4 buf with
      | inr e => Ret ((cells, buf), Some e)
      | inl (key, buf) =>
      match binary_Read 8 buf with
      | inr e => Ret ((cells, buf), Some e)
      | inl (fo, buf) =>
          off ← index offs i;
          cells ← store cells off (Some (mkInternalCell key fo));
          Ret ((cells, buf), None)
      end
      end) idxs (cells, mjoin ((λ oc, encodeInternalCell oc.2) <$> ocs) ++ rest)
  = Ret ((foldl (λ cells oc, <[Z.to_nat oc.1 := Some oc.2]> cells) cells ocs,
          rest), None).
Proof.
  intros H. revert cells.
  induction H as [|i [off c] idxs ocs Hi _ IH]; intros cells Hocs.
  - done.
  - apply Forall_cons in Hocs as [[Hoff [Hk Hf]] Hocs].
    simpl in Hoff, Hk, Hf, Hi.
    rewrite forEach_cons, join_fmap_cons. unfold encodeInternalCell at 1.
    cbn [fst snd].
    rewrite <-!app_assoc.
    rewrite binary_Read_putUint by (done || lia).
    rewrite binary_Read_putUint by (done || lia).
    rewrite Hi, go_bind_Ret. unfold store. rewrite decide_True by done.
    rewrite !go_bind_Ret. cbn [fst snd]. destruct c as [k fo]. simpl in *.
    apply IH. eapply Forall_impl; [exact Hocs|]. intros [o x] [? ?]. simpl in *.
    split; [|done]. unfold len in *. by rewrite length_insert.
Qed.

Lemma decode_leaf_cells_loop (offs idxs : list Z)
    (ocs : list (Z * leafNodeCell))
    (cells : list (option leafNodeCell)) (rest : list byte) :
  Forall2 (λ i oc, index offs i = Ret oc.1) idxs ocs →
  Forall (λ oc, 0 ≤ oc.1 < len cells ∧ leafCell_typed oc.2 ∧
                len (lnc_valueBytes oc.2) ≤ maxValueSize) ocs →
  forEach (λ i '(cells, buf),
      match binary_Read 4 buf with
      | inr e => Ret ((cells, buf), Some e)
      | inl (key, buf) =>
      match binary_Read 1 buf with
      | inr e => Ret ((cells, buf), Some e)
      | inl (deleted, buf) =>
      match binary_Read 4 buf with
      | inr e => Ret ((cells, buf), Some e)
      | inl (valueSize, buf) =>
      match Buffer_Read valueSize buf with
      | inr e => Ret ((cells, buf), Some e)
      | inl (strBuf, buf) =>
          off ← index offs i;
          cells ← store cells off
                    (Some (mkLeafCell key valueSize strBuf (getBool deleted)));
          Ret ((cells, buf), None)
      end
      end
      end
      end) idxs (cells, mjoin ((λ oc, encodeLeafCell oc.2) <$> ocs) ++ rest)
  = Ret ((foldl (λ cells oc, <[Z.to_nat oc.1 := Some oc.2]> cells) cells ocs,
          rest), None).
Proof.
  intros H. revert cells.
  induction H as [|i [off c] idxs ocs Hi _ IH]; intros cells Hocs.
  - done.
  - apply Forall_cons in Hocs as [[Hoff [[Hk Hsz] Hfit]] Hocs].
    simpl in Hoff, Hk, Hsz, Hfit, Hi.
    rewrite forEach_cons, join_fmap_cons. unfold encodeLeafCell at 1.
    cbn [fst snd].
    rewrite putBool_putUint, <-!app_assoc.
    rewrite binary_Read_putUint by (done || lia).
    rewrite binary_Read_putUint by (lia || apply bool_byte_range).
    rewrite binary_Read_putUint
      by (change (256 ^ Z.of_nat 4) with 4294967296;
          unfold len, maxValueSize in *; lia).
    rewrite Hsz, Buffer_Read_app.
    rewrite Hi, go_bind_Ret. unfold store. rewrite decide_True by done.
    rewrite !go_bind_Ret. cbn [fst snd]. rewrite getBool_of_bool, <-Hsz.
    destruct c as [k sz v d]. simpl in *.
    apply IH. eapply Forall_impl; [exact Hocs|]. intros [o x] [? ?]. simpl in *.
    split; [|done]. unfold len in *. by rewrite length_insert.
Qed.

Lemma slots_in_u16 {A} (offs : list Z) (cells : list (option A)) :
  slots_valid offs cells → Forall (λ off, off < len offs) offs →
  len offs ≤ 65536 →
  Forall (λ o, 0 ≤ o < 65536) offs.
Proof.
  intros Hv Hc Hn. apply Forall_forall. intros o Ho.
  unfold slots_valid in Hv. rewrite Forall_forall in Hv, Hc.
  destruct (Hv o Ho) as [c Hcell]. pose proof (cellAt_lt _ _ _ Hcell).
  specialize (Hc o Ho). lia.
Qed.

Lemma zip_index_Forall2 (offs : list Z) {A} (cs : list A) :
  length cs = length offs →
  Forall2 (λ i (oc : Z * A), index offs i = Ret oc.1)
    (seqZ 0 (len offs)) (zip offs cs).
Proof.
  intros Hl. apply Forall2_same_length_lookup_2.
  - unfold len. rewrite length_seqZ, length_zip_with. lia.
  - intros i j [o c] [-> ?]%lookup_seqZ Hz.
    apply lookup_zip_with_Some in Hz as (? & ? & [= <- <-] & Ho & _).
    apply index_Ret. simpl. split; [lia|].
    by replace (Z.to_nat (0 + Z.of_nat i)) with i by lia.
Qed.

Lemma join_fmap_zip_snd {A} (f : A → list byte) (offs : list Z) (cs : list A) :
  length cs = length offs →
  mjoin ((λ oc : Z * A, f oc.2) <$> zip offs cs) = mjoin (f <$> cs).
Proof.
  intros Hl. rewrite <-(snd_zip offs cs) at 2 by lia.
  by rewrite <-list_fmap_compose.
Qed.

Ltac node_simpl :=
  cbv beta zeta;
  cbn [in_node in_cells rightOffset ln_node ln_cells hasLSib hasRSib
       lSibFileOffset rSibFileOffset fileOffset offsets freeSize dirty lastLSN
       setFileOffset set_offsets internalNode_setRightMostKey
       internalNode_set_offsets internalNode_set_cells leafNode_set_node
       leafNode_set_offsets leafNode_set_cells newInternalNode newLeafNode
       zeroNode fst snd].

Lemma internalNode_roundtrip (p : internalNode) :
  btree_typed (Internal p) → internal_valid p →
  len (offsets (in_node p)) ≤ maxInternalNodeCells →
  btree_compact (Internal p) →
  ∃ buf p',
    internalNode_encode p = Ret buf ∧
    internalNode_decode newInternalNode buf = Ret (p', None) ∧
    btree_same (Internal p) (Internal p') ∧
    dirty (in_node p') = false ∧ internal_valid p' ∧
    (Z_of_byte <$> head buf) = Some InternalNode.
Proof.
  intros ((Hfo & Hlsn) & Hright & Hcells) Hv Hn Hcompact.
  pose proof Hn as Hn'. change maxInternalNodeCells with 290 in Hn'.
  simpl in Hcompact, Hfo, Hlsn. unfold btree_compact in Hcompact.
  simpl in Hcompact.
  set (offs := offsets (in_node p)) in *.
  set (es := internal_entries p) in *.
  assert (Hlen0 : 0 ≤ len offs) by (unfold len; lia).
  assert (Hles : length es = length offs) by (by apply entries_length).
  eexists _, _. split; [by apply internalNode_encode_eq|].
  fold offs es.
  split; [|].
  { unfold internalNode_decode.
    rewrite readInto_putUint by (lia || done). node_simpl.
    rewrite decide_False by (intros H; by apply H).
    rewrite readInto_putUint by (lia || done). node_simpl.
    rewrite readInto_putUint by (lia || done). node_simpl.
    rewrite readInto_putUint by (lia || done). node_simpl.
    rewrite readInto_putUint
      by (lia || (change (256 ^ Z.of_nat 4) with 4294967296; lia)).
    node_simpl.
    rewrite (decode_offsets_loop (seqZ 0 (len offs)) offs []);
      [|unfold len; rewrite length_seqZ; lia
       |by apply (slots_in_u16 offs (in_cells p)); [| |lia]].
    rewrite go_bind_Ret. node_simpl.
    rewrite readInto_putUint
      by (lia || (change (256 ^ Z.of_nat 2) with 65536; lia)).
    node_simpl.
    rewrite drop_app_length' by (by rewrite length_replicate).
    rewrite !app_nil_l.
    rewrite <-(join_fmap_zip_snd encodeInternalCell offs es Hles).
    rewrite <-(app_nil_r (mjoin _)).
    rewrite (decode_internal_cells_loop offs (seqZ 0 (len offs)) (zip offs es));
      [|by apply zip_index_Forall2|].
    - rewrite go_bind_Ret. node_simpl. reflexivity.
    - apply Forall_forall. intros [o c] [j Hj]%list_elem_of_lookup.
      apply lookup_zip_with_Some in Hj as (? & ? & [= <- <-] & Ho & Hc).
      pose proof (slots_in_u16 offs (in_cells p) Hv Hcompact ltac:(lia)) as Hu.
      rewrite Forall_forall in Hu. rewrite Forall_forall in Hcompact.
      rewrite Forall_forall in Hcells.
      assert (Hoin : o ∈ offs) by (apply list_elem_of_lookup; eauto).
      assert (Hcin : c ∈ es) by (apply list_elem_of_lookup; eauto).
      simpl. split; [|by apply Hcells].
      specialize (Hu o Hoin). specialize (Hcompact o Hoin). simpl in *.
      unfold len in *. rewrite length_replicate. lia. }
  destruct (scatter_entries offs es (in_cells p)
              (replicate (Z.to_nat (len offs)) None)) as [Hv' He'].
  { apply entries_Forall2, Hv. }
  { eapply Forall_impl; [exact Hcompact|]. intros o ?. simpl in *.
    unfold len in *. rewrite length_replicate. lia. }
  split; [|split; [done|split; [exact Hv'|]]].
  - split; [done|]. split; [done|]. split; [done|]. split; [done|].
    exact He'.
  - unfold InternalNode. simpl. by rewrite Z_of_byte_of_Z.
Qed.

Lemma leafNode_roundtrip (p : leafNode) :
  btree_typed (Leaf p) → leaf_valid p →
  len (offsets (ln_node p)) ≤ maxLeafNodeCells →
  btree_values_fit (Leaf p) →
  btree_compact (Leaf p) →
  ∃ buf p',
    leafNode_encode p = Ret buf ∧
    leafNode_decode newLeafNode buf = Ret (p', None) ∧
    btree_same (Leaf p) (Leaf p') ∧
    dirty (ln_node p') = false ∧ leaf_valid p' ∧
    (Z_of_byte <$> head buf) = Some LeafNode.
Proof.
  intros ((Hfo & Hlsn) & Hlsib & Hrsib & Hcells) Hv Hn Hfit Hcompact.
  pose proof Hn as Hn'. change maxLeafNodeCells with 9 in Hn'.
  simpl in Hcompact, Hfo, Hlsn, Hfit. unfold btree_compact in Hcompact.
  simpl in Hcompact.
  destruct (leafNode_encode_eq p Hv Hn Hfit) as [Hfree Henc].
  set (offs := offsets (ln_node p)) in *.
  set (es := leaf_entries p) in *.
  set (free := 4055 - 2 * len offs - len (mjoin (encodeLeafCell <$> es))) in *.
  assert (Hlen0 : 0 ≤ len offs) by (unfold len; lia).
  assert (Hles : length es = length offs) by (by apply entries_length).
  eexists _, _. split; [exact Henc|].
  split; [|].
  { unfold leafNode_decode.
    rewrite readInto_putUint by (lia || done). node_simpl.
    rewrite decide_False by (intros H; by apply H).
    rewrite readInto_putUint by (lia || done). node_simpl.
    rewrite readInto_putUint by (lia || done). node_simpl.
    rewrite !putBool_putUint.
    rewrite readInto_putUint by (lia || apply bool_byte_range). node_simpl.
    rewrite readInto_putUint by (lia || apply bool_byte_range). node_simpl.
    rewrite readInto_putUint by (lia || done). node_simpl.
    rewrite readInto_putUint by (lia || done). node_simpl.
    rewrite readInto_putUint
      by (lia || (change (256 ^ Z.of_nat 4) with 4294967296; lia)).
    node_simpl.
    rewrite (decode_offsets_loop (seqZ 0 (len offs)) offs []);
      [|unfold len; rewrite length_seqZ; lia
       |by apply (slots_in_u16 offs (ln_cells p)); [| |lia]].
    rewrite go_bind_Ret. node_simpl.
    rewrite readInto_putUint
      by (lia || (change (256 ^ Z.of_nat 2) with 65536; lia)).
    node_simpl.
    rewrite drop_app_length' by (by rewrite length_replicate).
    rewrite !app_nil_l.
    rewrite <-(join_fmap_zip_snd encodeLeafCell offs es Hles).
    rewrite <-(app_nil_r (mjoin _)).
    rewrite (decode_leaf_cells_loop offs (seqZ 0 (len offs)) (zip offs es));
      [|by apply zip_index_Forall2|].
    - rewrite go_bind_Ret. node_simpl. rewrite !getBool_of_bool. reflexivity.
    - apply Forall_forall. intros [o c] [j Hj]%list_elem_of_lookup.
      apply lookup_zip_with_Some in Hj as (? & ? & [= <- <-] & Ho & Hc).
      pose proof (slots_in_u16 offs (ln_cells p) Hv Hcompact ltac:(lia)) as Hu.
      rewrite Forall_forall in Hu. rewrite Forall_forall in Hcompact.
      rewrite Forall_forall in Hcells. rewrite Forall_forall in Hfit.
      assert (Hoin : o ∈ offs) by (apply list_elem_of_lookup; eauto).
      assert (Hcin : c ∈ es) by (apply list_elem_of_lookup; eauto).
      simpl. split; [|split; [by apply Hcells | by apply Hfit]].
      specialize (Hu o Hoin). specialize (Hcompact o Hoin). simpl in *.
      unfold len in *. rewrite length_replicate. lia. }
  destruct (scatter_entries offs es (ln_cells p)
              (replicate (Z.to_nat (len offs)) None)) as [Hv' He'].
  { apply entries_Forall2, Hv. }
  { eapply Forall_impl; [exact Hcompact|]. intros o ?. simpl in *.
    unfold len in *. rewrite length_replicate. lia. }
  split; [|split; [done|split; [exact Hv'|]]].
  - split; [done|]. split; [done|]. split; [done|]. repeat (split; [done|]).
    exact He'.
  - unfold LeafNode. simpl. by rewrite Z_of_byte_of_Z.
Qed.

(** X11. Round trip on pages that [decode] can read. For a node of either
    type that satisfies the node invariants, whose fields are within their
    Go types and whose slot indices are all below the slot count, the
    type switch of [fetch] and [decode] applied to [encode]'s page return
    nil and a clean node with the same header fields, the same slot array
    and the same cells in slot order (for a leaf: key, deleted flag, value
    size and value bytes). *)
Lemma decode_encode_compact (n : btreeNode) :
  btree_typed n → btree_valid n →
  len (offsets (btree_node n)) ≤ btree_maxCells n →
  btree_values_fit n → btree_compact n →
  ∃ buf n',
    btree_encode n = Ret buf ∧ decodePage buf = Ret (n', None) ∧
    btree_same n n' ∧ btree_isDirty n' = false ∧ btree_valid n'.
Proof.
  intros Ht Hv Hn Hfit Hc. destruct n as [p|p].
  - destruct (internalNode_roundtrip p Ht Hv Hn Hc)
      as (buf & p' & Henc & Hdec & Hsame & Hd & Hv' & Hhd).
    exists buf, (Internal p'). split; [done|]. split; [|done].
    unfold decodePage. destruct buf as [|b buf]; [done|].
    injection Hhd as Hb. change (index (b :: buf) 0) with (Ret b).
    rewrite go_bind_Ret, decide_True by done. by rewrite Hdec.
  - destruct (leafNode_roundtrip p Ht Hv Hn Hfit Hc)
      as (buf & p' & Henc & Hdec & Hsame & Hd & Hv' & Hhd).
    exists buf, (Leaf p'). split; [done|]. split; [|done].
    unfold decodePage. destruct buf as [|b buf]; [done|].
    injection Hhd as Hb. change (index (b :: buf) 0) with (Ret b).
    rewrite go_bind_Ret, decide_False by (rewrite Hb; done).
    rewrite decide_True by done. by rewrite Hdec.
Qed.

Lemma ex_leaf_typed : btree_typed (Leaf ex_leaf).
Proof.
  unfold btree_typed, node_typed. simpl.
  split; [lia|]. split; [lia|]. split; [lia|].
  repeat constructor; simpl; try lia; done.
Qed.

Lemma decode_encode_compact_witness :
  ∃ buf n',
    btree_encode (Leaf ex_leaf) = Ret buf ∧ decodePage buf = Ret (n', None) ∧
    btree_same (Leaf ex_leaf) n' ∧ btree_isDirty n' = false ∧ btree_valid n'.
Proof.
  apply (decode_encode_compact (Leaf ex_leaf)).
  - exact ex_leaf_typed.
  - by_compute.
  - vm_compute. discriminate.
  - by_compute.
  - repeat constructor.
Defined.

(** ** The persistent header *)

Lemma File_binary_Read_at (w : nat) (z : Z) (data pre rest : list byte)
    (pos : Z) (faults : list (option nat)) (log : list writeEvent) :
  (0 < w)%nat → 0 ≤ z < 256 ^ Z.of_nat w →
  data = pre ++ putUint w z ++ rest → pos = len pre →
  File_binary_Read w (mkFile data pos faults log)
  = (mkFile data (pos + Z.of_nat w) faults log, inl z).
Proof.
  intros Hw Hz -> ->. unfold File_binary_Read, len. simpl.
  rewrite Nat2Z.id, drop_app_length.
  destruct (putUint w z ++ rest) as [|b l] eqn:E.
  { apply (f_equal length) in E. rewrite length_app, length_putUint in E.
    simpl in E. lia. }
  rewrite <-E. rewrite decide_False by (rewrite length_app, length_putUint; lia).
  rewrite take_app_length' by (by rewrite length_putUint).
  by rewrite getUint_putUint.
Qed.

Lemma headerBytes_eq (f : fileStore) :
  headerBytes f = putUint 4 (lastKey f) ++ putUint 8 (pageTableRoot f)
                  ++ putUint 8 (nextFreeOffset f) ++ putUint 8 (_nextLSN f).
Proof. unfold headerBytes. cbv zeta. by rewrite app_nil_l, <-!app_assoc. Qed.

Lemma length_headerBytes (f : fileStore) : length (headerBytes f) = 28%nat.
Proof. rewrite headerBytes_eq, !length_app, !length_putUint. done. Qed.

Lemma write_at_start (data b : list byte) :
  b ≠ [] → write_at data 0 b = b ++ drop (length b) data.
Proof. intros Hb. unfold write_at. destruct b; [done|]. by rewrite take_0. Qed.

Lemma WriteAt_ok (fl fl' : osFile) (b : list byte) (off : Z) :
  WriteAt fl b off = (fl', None) →
  0 ≤ off ∧
  f_data fl' = write_at (f_data fl) (Z.to_nat off) b ∧
  f_pos fl' = f_pos fl ∧
  f_log fl' = f_log fl ++ [mkWrite off b true].
Proof.
  unfold WriteAt. case_decide; [intros [=]|].
  destruct (f_faults fl) as [|[k|] faults]; intros [= <-]; simpl;
    (split; [lia | done]).
Qed.

(** C9. Header round trip. A successful [save] issues one write: the 28
    bytes [last_key(u32) | page_table_root(u64) | next_free_offset(u64) |
    next_lsn(u64)], little-endian, at file offset 0, leaving the rest of the
    file as it was; and [open] on a freshly opened store over the saved
    file returns nil and restores the four fields to the saved values. *)
Theorem header_roundtrip (f f' : fileStore) (faults : list (option nat)) :
  store_typed f →
  fileStore_save f = (f', None) →
  f_log (file f') = f_log (file f) ++ [mkWrite 0 (headerBytes f) true] ∧
  headerBytes f = putUint 4 (lastKey f) ++ putUint 8 (pageTableRoot f)
                  ++ putUint 8 (nextFreeOffset f) ++ putUint 8 (_nextLSN f) ∧
  len (headerBytes f) = 28 ∧
  f_data (file f') = headerBytes f ++ drop 28 (f_data (file f)) ∧
  ∃ g, fileStore_open (newFileStore (f_data (file f')) faults) = (g, None) ∧
       lastKey g = lastKey f ∧ pageTableRoot g = pageTableRoot f ∧
       nextFreeOffset g = nextFreeOffset f ∧ _nextLSN g = _nextLSN f.
Proof.
  intros (Hk & Hr & Hn & Hl) Hsave. unfold fileStore_save in Hsave.
  destruct (WriteAt (file f) (headerBytes f) 0) as [fl err] eqn:Hw.
  injection Hsave as <- ->. simpl.
  apply WriteAt_ok in Hw as (_ & Hdata & _ & Hlog).
  assert (Hne : headerBytes f ≠ []).
  { intros E. apply (f_equal length) in E. by rewrite length_headerBytes in E. }
  rewrite (write_at_start _ _ Hne), length_headerBytes in Hdata.
  split; [done|]. split; [apply headerBytes_eq|].
  split; [unfold len; by rewrite length_headerBytes|]. split; [done|].
  rewrite Hdata, headerBytes_eq. set (tail := drop 28 (f_data (file f))).
  rewrite <-!app_assoc.
  set (A := putUint 4 (lastKey f)). set (B := putUint 8 (pageTableRoot f)).
  set (C := putUint 8 (nextFreeOffset f)). set (D := putUint 8 (_nextLSN f)).
  assert (Hla : length A = 4%nat) by apply length_putUint.
  assert (Hlb : length B = 8%nat) by apply length_putUint.
  assert (Hlc : length C = 8%nat) by apply length_putUint.
  unfold fileStore_open, newFileStore. simpl file.
  rewrite (File_binary_Read_at 4 (lastKey f) _ [] (B ++ C ++ D ++ tail));
    [|lia|done|done|done].
  simpl file.
  rewrite (File_binary_Read_at 8 (pageTableRoot f) _ A (C ++ D ++ tail));
    [|lia|done|done|by unfold len; rewrite Hla].
  simpl file.
  rewrite (File_binary_Read_at 8 (nextFreeOffset f) _ (A ++ B) (D ++ tail));
    [|lia|done|by rewrite <-!app_assoc
     |by unfold len; rewrite length_app, Hla, Hlb].
  simpl file.
  rewrite (File_binary_Read_at 8 (_nextLSN f) _ (A ++ B ++ C) tail);
    [|lia|done|by rewrite <-!app_assoc
     |by unfold len; rewrite !length_app, Hla, Hlb, Hlc].
  eexists. split; [reflexivity|]. done.
Qed.

Lemma header_roundtrip_witness :
  ∃ g, fileStore_open
         (newFileStore (f_data (file (fileStore_save ex_store).1)) [])
       = (g, None) ∧
       lastKey g = 7 ∧ pageTableRoot g = 4096 ∧
       nextFreeOffset g = 8192 ∧ _nextLSN g = 3.
Proof.
  destruct (header_roundtrip ex_store (fileStore_save ex_store).1 [])
    as (_ & _ & _ & _ & g & Hg).
  - unfold store_typed. simpl. lia.
  - vm_compute. reflexivity.
  - exists g. exact Hg.
Defined.

(** ** Flushing the cache *)

Lemma find_snd_cons {A} (P : A → Prop) `{∀ x, Decision (P x)} x l :
  snd <$> list_find P (x :: l)
  = if decide (P x) then Some x else snd <$> list_find P l.
Proof. simpl. case_decide; [done|]. by destruct (list_find P l) as [[]|]. Qed.

Lemma find_snd_delete {A} (P : A → Prop) `{∀ x, Decision (P x)} l i x :
  l !! i = Some x → ¬ P x →
  snd <$> list_find P (delete i l) = snd <$> list_find P l.
Proof.
  revert i. induction l as [|y l IH]; intros [|i] Hi Hx; try done.
  - injection Hi as ->. rewrite find_snd_cons. by rewrite decide_False.
  - change (delete (S i) (y :: l)) with (y :: delete i l).
    rewrite !find_snd_cons. case_decide; [done|]. by apply IH.
Qed.

Lemma lru_lookup_Some (c : LRUCache) k e :
  lru_lookup c k = Some e → e ∈ lru_entries c ∧ ce_key e = k.
Proof.
  unfold lru_lookup, lru_find. intros H.
  destruct (list_find _ _) as [[i e']|] eqn:E; [|done]. injection H as ->.
  apply list_find_Some in E as (Hi & Hk & _). split; [|done].
  apply list_elem_of_lookup. eauto.
Qed.

Lemma lru_lookup_elem (c : LRUCache) e :
  NoDup (ce_key <$> lru_entries c) → e ∈ lru_entries c →
  lru_lookup c (ce_key e) = Some e.
Proof.
  unfold lru_lookup, lru_find. intros Hnd [i Hi]%list_elem_of_lookup.
  destruct (list_find _ _) as [[j e']|] eqn:E.
  - apply list_find_Some in E as (Hj & Hk & _). simpl. f_equal.
    assert (i = j); [|congruence].
    eapply NoDup_lookup; [exact Hnd|rewrite list_lookup_fmap, Hi; done|].
    rewrite list_lookup_fmap, Hj. simpl. by rewrite Hk.
  - apply list_find_None in E. rewrite Forall_forall in E.
    destruct (E e); [|done]. apply list_elem_of_lookup. eauto.
Qed.

(** Replacing the value of a resident key by the same address moves the
    entry to the front and leaves every lookup as it was. *)
Lemma lru_set_resident (isD : loc → bool) (c : LRUCache) k e :
  lru_lookup c k = Some e →
  ∃ c', lru_set isD c k (ce_val e) = (c', true) ∧
        ∀ k', lru_lookup c' k' = lru_lookup c k'.
Proof.
  unfold lru_lookup, lru_set, lru_find. intros H.
  destruct (list_find _ _) as [[i e']|] eqn:E; [|done]. injection H as ->.
  eexists. split; [done|]. intros k'. cbn [lru_entries].
  pose proof E as (Hi & Hk & _)%list_find_Some.
  assert (mkEntry k (ce_val e) = e) as -> by (destruct e; simpl in *; by subst).
  rewrite find_snd_cons. case_decide as Hk'.
  - assert (k' = k) as -> by congruence. by rewrite E.
  - by apply (find_snd_delete _ _ i e).
Qed.

Lemma int64_small (z : Z) : 0 ≤ z < 2 ^ 63 → int64 z = z.
Proof.
  change (2 ^ 63) with 9223372036854775808. intros. unfold int64.
  rewrite Z.mod_small; lia.
Qed.

Lemma WriteAt_log (fl : osFile) (b : list byte) (off : Z) :
  ∃ fl' err, WriteAt fl b off = (fl', err) ∧
    f_log fl' = f_log fl ++
      [mkWrite off b (match err with None => true | Some _ => false end)].
Proof.
  unfold WriteAt. case_decide; [by eexists _, _|].
  destruct (f_faults fl) as [|[k|] faults]; by eexists _, _.
Qed.

Lemma fileStore_update_spec (f : fileStore) (h : heap) (l : loc)
    (n : btreeNode) (buf : list byte) (e : cacheEntry) :
  h !! l = Some n → btree_encode n = Ret buf →
  lru_lookup (cache f) (btree_getFileOffset n) = Some e → ce_val e = l →
  ∃ f' err, fileStore_update f h l = Ret (f', err) ∧
    (∀ k, lru_lookup (cache f') k = lru_lookup (cache f) k) ∧
    headerBytes f' = headerBytes f ∧
    f_log (file f') = f_log (file f) ++
      [mkWrite (int64 (btree_getFileOffset n)) buf
         (match err with None => true | Some _ => false end)].
Proof.
  intros Hl Henc Hlook <-. unfold fileStore_update. rewrite Hl. simpl.
  rewrite Henc. simpl.
  destruct (WriteAt_log (file f) buf (int64 (btree_getFileOffset n)))
    as (fl & err & -> & Hlog).
  unfold fileStore_setCache. simpl.
  destruct (lru_set_resident (heap_isDirty h) (cache f) _ e Hlook)
    as (c' & -> & Hc'). simpl.
  exists (fileStore_set_cache (fileStore_set_file f fl) c'), err.
  split; [by destruct err|]. split; [done|]. split; [done|]. done.
Qed.

Lemma btree_markClean_clean (n : btreeNode) :
  btree_isDirty (btree_markClean n) = false.
Proof. by destruct n. Qed.

Lemma btree_markClean_fileOffset (n : btreeNode) :
  btree_getFileOffset (btree_markClean n) = btree_getFileOffset n.
Proof. by destruct n. Qed.

Section flush.
Variables (f0 : fileStore) (h0 : heap).
Hypothesis Hok : cache_ok (cache f0) h0.
Hypothesis Henc : cache_encodable (cache f0) h0.

(** A node that is still dirty during the flush is the node of the
    initial heap. *)
Lemma heap_flushed_dirty h pages l n :
  heap_flushed (cache f0) h0 h pages →
  h !! l = Some n → btree_isDirty n = true → h0 !! l = Some n.
Proof.
  intros Hh Hl Hd. destruct (Hh l) as [<-|(n' & ev & _ & Hl' & _)]; [done|].
  rewrite Hl in Hl'. injection Hl' as ->.
  by rewrite btree_markClean_clean in Hd.
Qed.

Lemma heap_flushed_node h pages e :
  heap_flushed (cache f0) h0 h pages → e ∈ lru_entries (cache f0) →
  ∃ n, h !! ce_val e = Some n ∧ btree_getFileOffset n = ce_key e.
Proof.
  intros Hh He. destruct Hok as [_ Hall]. rewrite Forall_forall in Hall.
  destruct (Hall e He) as (n & Hn & Hfo).
  destruct (Hh (ce_val e)) as [Heq|(n' & ev & (_ & Hn' & _) & Hl' & _)].
  - exists n. by rewrite Heq.
  - exists (btree_markClean n'). split; [done|].
    rewrite btree_markClean_fileOffset. congruence.
Qed.

(** One iteration of the flush loop on a resident key. *)
Lemma flushPages_iter_spec f h pages k e :
  flush_inv f0 h0 f h pages →
  lru_lookup (cache f0) k = Some e →
  ∃ f' h' err, flushPages_iter k (f, h) = Ret ((f', h'), err) ∧
    (∀ l n, h !! l = Some n → btree_isDirty n = false → h' !! l = Some n) ∧
    match err with
    | None =>
        ∃ more, flush_inv f0 h0 f' h' (pages ++ more) ∧
          ∃ n', h' !! ce_val e = Some n' ∧ btree_isDirty n' = false
    | Some _ =>
        h' = h ∧
        ∃ ev n, f_log (file f') = f_log (file f0) ++ pages ++ [ev] ∧
          w_ok ev = false ∧ cachedDirty (cache f0) h0 (ce_val e) n ∧
          pageWriteOf n ev ∧ h !! ce_val e = Some n
    end.
Proof.
  intros (Hlook & Hhdr & Hlog & Hheap & Hpages & Hoks) He.
  pose proof (lru_lookup_Some _ _ _ He) as [Hin Hkey].
  destruct (heap_flushed_node h pages e Hheap Hin) as (n & Hn & Hfo).
  unfold flushPages_iter. 
  assert (Hfind : ∃ i, lru_find (cache f) k = Some (i, e)).
  { specialize (Hlook k). rewrite He in Hlook. unfold lru_lookup in Hlook.
    destruct (lru_find (cache f) k) as [[i e']|]; [|done].
    injection Hlook as ->. eauto. }
  destruct Hfind as [i ->]. rewrite Hn. simpl.
  destruct (btree_isDirty n) eqn:Hd; simpl.
  - pose proof (heap_flushed_dirty h pages _ n Hheap Hn Hd) as Hn0.
    assert (Hcd : cachedDirty (cache f0) h0 (ce_val e) n)
      by (split; [eauto | done]).
    pose proof Henc as Hall. unfold cache_encodable in Hall.
    rewrite Forall_forall in Hall.
    destruct (Hall e Hin n Hn0 Hd) as [buf Hbuf].
    destruct (fileStore_update_spec f h (ce_val e) n buf e Hn Hbuf)
      as (f' & err & -> & Hlook' & Hhdr' & Hlog'); [|done|].
    { rewrite Hlook, Hfo, Hkey. done. }
    simpl. destruct err as [err|]; simpl.
    + eexists _, _, _. split; [done|]. split; [done|]. split; [done|].
      eexists _, n. split; [by rewrite Hlog', Hlog, <-app_assoc|].
      split; [done|]. split; [done|]. split; [|done]. by split.
    + eexists _, _, _. split; [done|]. split.
      { intros l n' Hl' Hd'. rewrite lookup_insert_ne; [done|].
        intros <-. congruence. }
      set (ev := mkWrite (int64 (btree_getFileOffset n)) buf true).
      exists [ev]. split.
      * split; [intros; by rewrite Hlook'|]. split; [congruence|].
        split; [by rewrite Hlog', Hlog, <-app_assoc|].
        split; [|split].
        -- intros l. destruct (decide (l = ce_val e)) as [->|Hne].
           ++ right. exists n, ev. rewrite lookup_insert_eq.
              split; [exact Hcd|]. split; [done|]. split; [by split|].
              split; [done|]. apply elem_of_app. right.
              by apply list_elem_of_singleton.
           ++ rewrite lookup_insert_ne by done.
              destruct (Hheap l) as [?|(n' & ev' & ? & ? & ? & ? & ?)];
                [by left|]. right. exists n', ev'.
              split; [done|]. split; [done|]. split; [done|].
              split; [done|]. apply elem_of_app. by left.
        -- apply Forall_app. split; [done|]. constructor; [|done].
           exists (ce_val e), n. split; [done|]. by split.
        -- apply Forall_app. split; [done|]. by constructor.
      * exists (btree_markClean n). rewrite lookup_insert_eq.
        split; [done | apply btree_markClean_clean].
  - eexists _, _, _. split; [done|]. split; [done|].
    exists []. rewrite app_nil_r. split; [done|]. eauto.
Qed.

Lemma flush_loop_spec rest f h pages :
  flush_inv f0 h0 f h pages →
  Forall (λ k, is_Some (lru_lookup (cache f0) k)) rest →
  ∃ f' h' err, forEach flushPages_iter rest (f, h) = Ret ((f', h'), err) ∧
    (∀ l n, h !! l = Some n → btree_isDirty n = false → h' !! l = Some n) ∧
    match err with
    | None =>
        ∃ more, flush_inv f0 h0 f' h' (pages ++ more) ∧
          ∀ k e, k ∈ rest → lru_lookup (cache f0) k = Some e →
            ∃ n', h' !! ce_val e = Some n' ∧ btree_isDirty n' = false
    | Some _ =>
        ∃ oks ev l n,
          f_log (file f') = f_log (file f0) ++ (pages ++ oks) ++ [ev] ∧
          w_ok ev = false ∧ cachedDirty (cache f0) h0 l n ∧
          pageWriteOf n ev ∧ h' !! l = Some n ∧
          heap_flushed (cache f0) h0 h' (pages ++ oks) ∧
          pages_of (cache f0) h0 (pages ++ oks) ∧
          Forall (λ ev, w_ok ev = true) (pages ++ oks)
    end.
Proof.
  intros Hinv Hrest. revert f h pages Hinv.
  induction Hrest as [|k rest [e He] _ IH]; intros f h pages Hinv.
  - exists f, h, None. split; [done|]. split; [done|].
    exists []. rewrite app_nil_r. split; [done|]. intros k e Hk. inversion Hk.
  - destruct (flushPages_iter_spec f h pages k e Hinv He)
      as (f1 & h1 & err1 & Hiter & Hclean1 & Hpost1).
    rewrite forEach_cons, Hiter, go_bind_Ret. cbn [fst snd].
    destruct err1 as [err1|].
    + destruct Hpost1 as (-> & ev & n & Hlog & Hev & Hcd & Hpw & Hn).
      destruct Hinv as (_ & _ & _ & Hheap & Hpages & Hoks).
      exists f1, h, (Some err1). split; [done|]. split; [done|].
      exists [], ev, (ce_val e), n. rewrite !app_nil_r.
      split; [by rewrite Hlog|]. done.
    + destruct Hpost1 as (more1 & Hinv1 & n1 & Hn1 & Hd1).
      destruct (IH f1 h1 (pages ++ more1) Hinv1)
        as (f' & h' & err & Hloop & Hclean & Hpost).
      exists f', h', err. split; [done|]. split; [by eauto|].
      destruct err as [err|].
      * destruct Hpost as (oks & ev & l & n & Hpost).
        exists (more1 ++ oks), ev, l, n. by rewrite !app_assoc in *.
      * destruct Hpost as (more & Hinv' & Hkeys).
        exists (more1 ++ more). rewrite app_assoc. split; [done|].
        intros k' e' [->|Hk']%elem_of_cons He'; [|by eauto].
        assert (e' = e) as -> by congruence. exists n1. eauto.
Qed.
End flush.


Lemma ex_cached_store_ok faults :
  cache_ok (cache (ex_cached_store faults)) ex_heap ∧
  cache_encodable (cache (ex_cached_store faults)) ex_heap.
Proof.
  split; [split|].
  - by_compute.
  - repeat constructor; eexists; split; vm_compute; reflexivity.
  - repeat constructor; intros n Hn Hd; vm_compute in Hn; injection Hn as <-;
      [discriminate Hd | eexists; vm_compute; reflexivity].
Qed.


(** A failed page write: with the first [WriteAt] cut short after 100
    bytes, the call returns the error, only the page write is logged, and
    the leaf at address 0 is still dirty. *)
Example flushPages_failed_write :
  ∃ f' h' n,
    fileStore_flushPages [8192; 4096] (ex_cached_store [Some 100%nat]) ex_heap
      = Ret (f', h', Some ErrIO) ∧
    length (f_log (file f')) = 1%nat ∧
    Forall (λ ev, w_off ev = 4096 ∧ w_ok ev = false) (f_log (file f')) ∧
    h' !! 0%nat = Some n ∧ btree_isDirty n = true.
Proof.
  do 3 eexists. split; [vm_compute; reflexivity|].
  split; [reflexivity|]. split; [by repeat constructor|].
  split; vm_compute; reflexivity.
Qed.

(** ** Inserting into a leaf *)

Lemma entries_cons {A} (off : Z) (offs : list Z) (cells : list (option A)) c :
  cellAt cells off = Some c →
  entries (off :: offs) cells = c :: entries offs cells.
Proof. intros Hc. unfold entries. csimpl. by rewrite Hc. Qed.

(** A new cell appended to the cell array and entered at slot [s]. *)
Lemma slots_insert_new {A} (offs : list Z) (cells : list (option A))
    (s : nat) (c : A) :
  slots_valid offs cells →
  slots_valid (take s offs ++ len cells :: drop s offs) (cells ++ [Some c]) ∧
  entries (take s offs ++ len cells :: drop s offs) (cells ++ [Some c])
  = take s (entries offs cells) ++ c :: drop s (entries offs cells).
Proof.
  intros Hv.
  destruct (entries_cells_app offs cells [Some c] Hv) as [Hv' He'].
  rewrite <-(take_drop s offs) in Hv'.
  apply slots_valid_app in Hv' as [Hv1 Hv2].
  split.
  - apply slots_valid_app. split; [done|].
    apply Forall_cons. split; [|done]. rewrite cellAt_snoc. eauto.
  - rewrite entries_app, (entries_cons _ _ _ c) by apply cellAt_snoc.
    rewrite <-(entries_take offs cells s), <-(entries_drop offs cells s) by done.
    f_equal; [|f_equal].
    + eapply entries_cells_app. rewrite <-(take_drop s offs) in Hv.
      by apply slots_valid_app in Hv as [? _].
    + eapply entries_cells_app. rewrite <-(take_drop s offs) in Hv.
      by apply slots_valid_app in Hv as [_ ?].
Qed.

(** The closed form of [leafNode.insertCell] at a slot in [0, len]. *)
Lemma leafNode_insertCell_eq (n : leafNode) (s k : Z) (v : list byte) :
  len v ≤ maxValueSize → len (ln_cells n) < 65536 →
  len (offsets (ln_node n)) < 4294967296 →
  0 ≤ s ≤ len (offsets (ln_node n)) →
  leafNode_insertCell n s k v =
  Ret (mkLeaf
         (set_offsets (ln_node n)
            (take (Z.to_nat s) (offsets (ln_node n)) ++
             len (ln_cells n) :: drop (Z.to_nat s) (offsets (ln_node n))))
         (ln_cells n ++ [Some (mkLeafCell k (len v) v false)])
         (hasLSib n) (hasRSib n) (lSibFileOffset n) (rSibFileOffset n), None).
Proof.
  intros Hlen Hcells Hoffs Hs. unfold leafNode_insertCell.
  rewrite checkRowSizeLimit_small by done.
  assert (0 ≤ len (ln_cells n)) by (unfold len; lia).
  assert (0 ≤ len v) by (unfold len; lia).
  change maxValueSize with 400 in Hlen.
  rewrite (uint32_small (len (offsets _))) by lia.
  rewrite (uint32_small (len v)) by lia.
  rewrite (uint16_small (len (ln_cells n))) by lia.
  destruct (decide (len (offsets (ln_node n)) = s)) as [<-|Hne].
  - replace (Z.to_nat (len (offsets (ln_node n))))
      with (length (offsets (ln_node n))) by (unfold len; lia).
    rewrite firstn_all, drop_all. done.
  - rewrite decide_True by lia. rewrite openSlot_insert by lia. done.
Qed.

(** X1. Insert, then look up. On a leaf whose slots index allocated cells and
    whose keys are strictly increasing, [insertCell] at the insertion point
    [s] that [findCellOffsetByKey] returned for an absent key [k] returns
    nil; the new entry [(k, v)] is at slot [s], between the entries that
    were before and after that slot; the node invariants still hold; and
    [findCellOffsetByKey k] now finds the key at slot [s]. *)
Theorem leafNode_insert_then_find (n : leafNode) (s k : Z) (v : list byte) :
  leaf_valid n → leaf_sorted n →
  len (ln_cells n) < 65536 → len (offsets (ln_node n)) < 4294967296 →
  len v ≤ maxValueSize →
  leafNode_findCellOffsetByKey n k = Ret (s, false) →
  ∃ n', leafNode_insertCell n s k v = Ret (n', None) ∧
    leaf_valid n' ∧ leaf_sorted n' ∧
    leaf_entries n' =
      take (Z.to_nat s) (leaf_entries n)
      ++ mkLeafCell k (len v) v false :: drop (Z.to_nat s) (leaf_entries n) ∧
    leaf_kv n' ≡ₚ (k, v) :: leaf_kv n ∧
    leafNode_findCellOffsetByKey n' k = Ret (s, true).
Proof.
  intros Hv Hs Hcells Hoffs Hlen Hfind.
  destruct (search_spec _ _ k _ (leaf_cellKey_keys n Hv) Hs)
    as (i & b & Hsearch & Hi & Hb).
  unfold leafNode_findCellOffsetByKey in Hfind.
  rewrite Hfind in Hsearch. injection Hsearch as <- <-.
  eexists. split; [by apply leafNode_insertCell_eq|].
  destruct (slots_insert_new (offsets (ln_node n)) (ln_cells n) (Z.to_nat s)
              (mkLeafCell k (len v) v false) Hv) as [Hv' He'].
  assert (Hkeys : leaf_keys
            (mkLeaf
               (set_offsets (ln_node n)
                  (take (Z.to_nat s) (offsets (ln_node n)) ++
                   len (ln_cells n) :: drop (Z.to_nat s) (offsets (ln_node n))))
               (ln_cells n ++ [Some (mkLeafCell k (len v) v false)])
               (hasLSib n) (hasRSib n) (lSibFileOffset n) (rSibFileOffset n))
          = take (Z.to_nat s) (leaf_keys n) ++ k :: drop (Z.to_nat s) (leaf_keys n)).
  { unfold leaf_keys, leaf_entries. simpl. rewrite He'.
    by rewrite fmap_app, fmap_cons, fmap_take, fmap_drop. }
  assert (Hsorted : StronglySorted Z.lt
            (take (Z.to_nat s) (leaf_keys n) ++ k :: drop (Z.to_nat s) (leaf_keys n))).
  { apply sorted_insert_at; [done|]. intros j kj Hj.
    destruct (Hb j kj Hj) as [H1 H2]. split; intros; [apply H1 | apply H2]; lia. }
  split; [exact Hv'|]. split; [unfold leaf_sorted; by rewrite Hkeys|].
  split; [exact He'|]. split.
  - unfold leaf_kv, leaf_entries. simpl. rewrite He'.
    rewrite fmap_app, fmap_cons, <-Permutation_middle, <-fmap_app.
    by rewrite take_drop.
  - replace (Ret (s, true)) with (Ret (Z.of_nat (Z.to_nat s), true))
      by (by rewrite Z2Nat.id by lia).
    apply leafNode_find_found; [exact Hv' | unfold leaf_sorted; by rewrite Hkeys|].
    rewrite Hkeys. rewrite lookup_app_r by (rewrite length_take; lia).
    rewrite length_take.
    assert (length (leaf_keys n) = length (offsets (ln_node n))).
    { unfold leaf_keys, leaf_entries. by rewrite length_fmap, entries_length. }
    unfold len in *.
    replace (Z.to_nat s - Z.to_nat s `min` length (leaf_keys n))%nat with 0%nat
      by lia.
    done.
Qed.

Lemma leafNode_insert_then_find_witness :
  ∃ n', leafNode_insertCell ex_leaf 2 25 ["d"%byte] = Ret (n', None) ∧
    leaf_kv n' ≡ₚ (25, ["d"%byte]) :: leaf_kv ex_leaf ∧
    leafNode_findCellOffsetByKey n' 25 = Ret (2, true).
Proof.
  destruct (leafNode_insert_then_find ex_leaf 2 25 ["d"%byte])
    as (n' & Hins & _ & _ & _ & Hkv & Hfind).
  - by_compute.
  - by_compute.
  - vm_compute. reflexivity.
  - vm_compute. reflexivity.
  - vm_compute. discriminate.
  - reflexivity.
  - exists n'. split; [exact Hins|]. split; [exact Hkv | exact Hfind].
Defined.

(** ** Appending to a leaf *)

(** X2. [appendCell] never fails and never checks the row size. It enters the
    slot count, not the index of the new cell, in the slot array: on a
    node with as many cells as slots the new slot shows the new entry, but
    when the cell array is longer than the slot array (as on the old page
    after a split) the new slot shows the old cell at that index and the
    appended entry is not reachable through the slots. *)
Theorem leafNode_appendCell_slot (n : leafNode) (k : Z) (v : list byte) :
  leaf_valid n → len (offsets (ln_node n)) < 65536 →
  ∃ n', leafNode_appendCell n k v = (n', None) ∧
    (len (offsets (ln_node n)) = len (ln_cells n) →
       leaf_valid n' ∧
       leaf_entries n' =
         leaf_entries n ++ [mkLeafCell k (uint32 (len v)) v false]) ∧
    (∀ c, cellAt (ln_cells n) (len (offsets (ln_node n))) = Some c →
       leaf_valid n' ∧ leaf_entries n' = leaf_entries n ++ [c]).
Proof.
  intros Hv Hlen. eexists. split; [reflexivity|].
  assert (H0 : 0 ≤ len (offsets (ln_node n))) by (unfold len; lia).
  unfold leaf_valid, leaf_entries. simpl. rewrite uint16_small by lia.
  destruct (entries_cells_app _ _
              [Some (mkLeafCell k (uint32 (len v)) v false)] Hv) as [Hv' He'].
  assert (Hgen : ∀ c,
    cellAt (ln_cells n ++ [Some (mkLeafCell k (uint32 (len v)) v false)])
      (len (offsets (ln_node n))) = Some c →
    slots_valid (offsets (ln_node n) ++ [len (offsets (ln_node n))])
      (ln_cells n ++ [Some (mkLeafCell k (uint32 (len v)) v false)]) ∧
    entries (offsets (ln_node n) ++ [len (offsets (ln_node n))])
      (ln_cells n ++ [Some (mkLeafCell k (uint32 (len v)) v false)])
    = entries (offsets (ln_node n)) (ln_cells n) ++ [c]).
  { intros c Hc. split.
    - apply slots_valid_app. split; [done|]. apply Forall_singleton. eauto.
    - rewrite entries_app, He'. f_equal. by rewrite (entries_cons _ _ _ c). }
  split.
  - intros Heq. apply Hgen. rewrite Heq. apply cellAt_snoc.
  - intros c Hc. apply Hgen. by apply cellAt_app_l.
Qed.

Lemma leafNode_appendCell_slot_witness :
  ∃ n', leafNode_appendCell ex_leaf_split 40 ["d"%byte] = (n', None) ∧
    leaf_entries n' =
      leaf_entries ex_leaf_split ++ [mkLeafCell 30 1 ["c"%byte] false].
Proof.
  destruct (leafNode_appendCell_slot ex_leaf_split 40 ["d"%byte])
    as (n' & Happ & _ & Hstale).
  - by_compute.
  - vm_compute. reflexivity.
  - exists n'. split; [exact Happ|].
    apply (Hstale (mkLeafCell 30 1 ["c"%byte] false)). reflexivity.
Defined.

(** ** Leaf split and lookup *)

(** The closed form of [leafNode.split] into an empty page. *)
Lemma leafNode_split_eq (p newPg : leafNode) :
  leaf_valid p →
  1 ≤ len (offsets (ln_node p)) ≤ 65536 →
  offsets (ln_node newPg) = [] → ln_cells newPg = [] →
  ∃ c0,
    leaf_entries p !! Z.to_nat (len (offsets (ln_node p)) ÷ 2) = Some c0 ∧
    leafNode_split p newPg =
    Ret (leafNode_set_offsets p
           (take (Z.to_nat (len (offsets (ln_node p)) ÷ 2))
              (offsets (ln_node p))),
         mkLeaf
           (set_offsets (ln_node newPg)
              (seqZ 0 (len (drop (Z.to_nat (len (offsets (ln_node p)) ÷ 2))
                              (leaf_entries p)))))
           (Some <$> (leaf_copy <$>
              drop (Z.to_nat (len (offsets (ln_node p)) ÷ 2)) (leaf_entries p)))
           (hasLSib newPg) (hasRSib newPg)
           (lSibFileOffset newPg) (rSibFileOffset newPg),
         (lnc_key c0, None)).
Proof.
  intros Hv Hn Hoffs Hcells.
  destruct (quot2_half (len (offsets (ln_node p)))) as [Hm0 Hm]; [lia|].
  set (mid := len (offsets (ln_node p)) ÷ 2) in *.
  set (cs := drop (Z.to_nat mid) (leaf_entries p)).
  assert (Hlcs : len cs = len (offsets (ln_node p)) - mid).
  { unfold cs, len, leaf_entries. rewrite length_drop, entries_length by done.
    unfold len in *. lia. }
  assert (Hloop := slots_seqZ_drop _ _ mid Hv Hm0).
  fold (leaf_entries p) in Hloop. fold cs in Hloop.
  destruct cs as [|c0 cs'] eqn:Ecs; [unfold len in *; simpl in *; lia|].
  exists c0. split.
  { unfold cs in Ecs. rewrite <-(Nat.add_0_r (Z.to_nat mid)), <-lookup_drop.
    by rewrite Ecs. }
  rewrite <-Ecs in *.
  assert (Hsplit_loop := leafNode_split_loop p _ _ newPg Hloop).
  rewrite Hoffs, Hcells in Hsplit_loop. simpl in Hsplit_loop.
  change (len []) with 0 in Hsplit_loop.
  rewrite uint16_seqZ in Hsplit_loop by (unfold len in *; lia).
  unfold leafNode_split. fold mid. rewrite Hsplit_loop, go_bind_Ret.
  cbn [fst snd]. cbv zeta. cbn [ln_node ln_cells offsets set_offsets].
  rewrite Hlcs, Ecs. rewrite (seqZ_cons 0) by lia. simpl.
  rewrite <-Hlcs. done.
Qed.

(** X5. Split, then look up. After [split] of a valid, key-ordered leaf with
    at least one slot into an empty page, both pages are valid and
    key-ordered, the new page holds fresh copies of the entries of slots
    [mid, n) (same key and value, the value size recomputed and the deleted
    flag cleared), and every key of the leaf is found on the page the
    separator points to: a key below the separator is found on the old
    page at its old slot, any other key on the new page at its old slot
    less [mid]. *)
Theorem leafNode_split_then_find (p newPg p' newPg' : leafNode) (sep : Z) :
  leaf_valid p → leaf_sorted p →
  1 ≤ len (offsets (ln_node p)) ≤ 65536 →
  offsets (ln_node newPg) = [] → ln_cells newPg = [] →
  leafNode_split p newPg = Ret (p', newPg', (sep, None)) →
  let mid := Z.to_nat (len (offsets (ln_node p)) ÷ 2) in
  leaf_valid p' ∧ leaf_sorted p' ∧ leaf_valid newPg' ∧ leaf_sorted newPg' ∧
  leaf_entries newPg' = leaf_copy <$> drop mid (leaf_entries p) ∧
  ∀ (j : nat) (k : Z), leaf_keys p !! j = Some k →
    if decide (k < sep)
    then (j < mid)%nat ∧
         leafNode_findCellOffsetByKey p' k = Ret (Z.of_nat j, true)
    else (mid ≤ j)%nat ∧
         leafNode_findCellOffsetByKey newPg' k = Ret (Z.of_nat (j - mid), true).
Proof.
  intros Hv Hs Hn Hoffs Hcells Hsplit mid.
  destruct (leafNode_split_eq p newPg Hv Hn Hoffs Hcells) as (c0 & Hc0 & Heq).
  rewrite Heq in Hsplit. fold mid in Hsplit, Hc0.
  injection Hsplit as <- <- <-.
  set (cs := drop mid (leaf_entries p)) in *.
  destruct (entries_in_order (leaf_copy <$> cs)) as [Hnv Hne].
  assert (Hlcopy : len (leaf_copy <$> cs) = len cs)
    by (unfold len; by rewrite length_fmap).
  rewrite Hlcopy in Hnv, Hne.
  assert (Hp' : leaf_entries (leafNode_set_offsets p
                  (take mid (offsets (ln_node p))))
                = take mid (leaf_entries p)).
  { unfold leaf_entries. simpl. by apply entries_take. }
  assert (Hk1 : leaf_keys (leafNode_set_offsets p
                  (take mid (offsets (ln_node p))))
                = take mid (leaf_keys p)).
  { unfold leaf_keys. by rewrite Hp', fmap_take. }
  set (newPg' := mkLeaf (set_offsets (ln_node newPg) (seqZ 0 (len cs)))
                   (Some <$> (leaf_copy <$> cs)) (hasLSib newPg) (hasRSib newPg)
                   (lSibFileOffset newPg) (rSibFileOffset newPg)).
  assert (Hn' : leaf_entries newPg' = leaf_copy <$> cs) by exact Hne.
  assert (Hk2 : leaf_keys newPg' = drop mid (leaf_keys p)).
  { unfold leaf_keys. rewrite Hn', <-list_fmap_compose. unfold cs.
    by rewrite fmap_drop. }
  assert (Hs12 : StronglySorted Z.lt
                   (take mid (leaf_keys p) ++ drop mid (leaf_keys p)))
    by (rewrite take_drop; exact Hs).
  apply StronglySorted_app in Hs12 as (_ & Hs1 & Hs2).
  assert (Hv1 : leaf_valid (leafNode_set_offsets p
                  (take mid (offsets (ln_node p)))))
    by (unfold leaf_valid; simpl; by apply Forall_take).
  assert (Hsep : leaf_keys p !! mid = Some (lnc_key c0)).
  { unfold leaf_keys. by rewrite list_lookup_fmap, Hc0. }
  split; [done|]. split; [unfold leaf_sorted; by rewrite Hk1|].
  split; [exact Hnv|]. split; [unfold leaf_sorted; by rewrite Hk2|].
  split; [done|].
  intros j k Hj. destruct (decide (j < mid)%nat) as [Hlt|Hge].
  - assert (k < lnc_key c0)
      by (by apply (StronglySorted_lookup_lt (leaf_keys p) j mid)).
    rewrite decide_True by done. split; [done|].
    apply leafNode_find_found; [done|unfold leaf_sorted; by rewrite Hk1|].
    rewrite Hk1. by rewrite lookup_take_lt.
  - assert (lnc_key c0 ≤ k).
    { destruct (decide (j = mid)) as [->|Hne'].
      - rewrite Hsep in Hj. injection Hj as <-. lia.
      - assert (lnc_key c0 < k); [|lia].
        apply (StronglySorted_lookup_lt (leaf_keys p) mid j); [done|lia|done..]. }
    rewrite decide_False by lia. split; [lia|].
    apply leafNode_find_found; [exact Hnv|unfold leaf_sorted; by rewrite Hk2|].
    rewrite Hk2, lookup_drop. rewrite <-Hj. f_equal. lia.
Qed.

Lemma leafNode_split_then_find_witness :
  ∃ p' newPg' sep,
    leafNode_split ex_leaf newLeafNode = Ret (p', newPg', (sep, None)) ∧
    leafNode_findCellOffsetByKey p' 10 = Ret (0, true) ∧
    leafNode_findCellOffsetByKey newPg' 30 = Ret (1, true).
Proof.
  destruct (leafNode_split ex_leaf newLeafNode)
    as [[[p' newPg'] [sep [e|]]]|] eqn:E; try (vm_compute in E; discriminate).
  destruct (leafNode_split_then_find ex_leaf newLeafNode p' newPg' sep)
    as (_ & _ & _ & _ & _ & Hfind).
  - by_compute.
  - by_compute.
  - vm_compute. split; discriminate.
  - reflexivity.
  - reflexivity.
  - exact E.
  - exists p', newPg', sep. split; [reflexivity|].
    assert (Hsep : sep = 20) by (vm_compute in E; congruence).
    pose proof (Hfind 0%nat 10 eq_refl) as H0.
    pose proof (Hfind 2%nat 30 eq_refl) as H2.
    rewrite Hsep in H0, H2.
    split; [apply H0 | apply H2].
Defined.

(** ** Dense nodes *)

Lemma slots_dense_length {A} (offs : list Z) (cells : list (option A)) :
  slots_dense offs cells → len offs = len cells.
Proof.
  intros [Hp _]. apply Permutation_length in Hp. rewrite length_seqZ in Hp.
  unfold len in *. lia.
Qed.

Lemma slots_dense_valid {A} (offs : list Z) (cells : list (option A)) :
  slots_dense offs cells →
  slots_valid offs cells ∧ Forall (λ off, off < len offs) offs.
Proof.
  intros Hd. pose proof (slots_dense_length _ _ Hd) as Hlen.
  destruct Hd as [Hp Hc].
  assert (Hin : Forall (λ off, 0 ≤ off < len cells) offs).
  { rewrite Hp. apply Forall_forall. intros x Hx%elem_of_seqZ. lia. }
  split.
  - eapply Forall_impl; [exact Hin|]. intros off [H0 H1]. simpl.
    unfold cellAt. rewrite decide_True by done.
    destruct (lookup_lt_is_Some_2 cells (Z.to_nat off)) as [c Hc'];
      [unfold len in *; lia|].
    rewrite Hc'. rewrite Forall_forall in Hc.
    apply Hc. eapply list_elem_of_lookup_2. exact Hc'.
  - eapply Forall_impl; [exact Hin|]. intros off ?. simpl in *. lia.
Qed.

Lemma slots_dense_snoc {A} (offs : list Z) (cells : list (option A))
    (s : nat) (c : A) :
  slots_dense offs cells →
  slots_dense (take s offs ++ len cells :: drop s offs) (cells ++ [Some c]).
Proof.
  intros [Hp Hc]. split.
  - rewrite <-Permutation_middle, take_drop, Hp.
    unfold len. rewrite length_app. simpl.
    replace (Z.of_nat (length cells + 1)) with (Z.of_nat (length cells) + 1) by lia.
    rewrite seqZ_snoc by lia. by rewrite Permutation_cons_append.
  - apply Forall_app. split; [done|]. by apply Forall_singleton.
Qed.

Lemma slots_dense_insert {A} (offs : list Z) (cells : list (option A))
    (i : nat) (c : A) :
  slots_dense offs cells → slots_dense offs (<[i := Some c]> cells).
Proof.
  intros [Hp Hc]. split.
  - unfold len. by rewrite length_insert.
  - by apply Forall_insert.
Qed.

(** X8. The mutators of a leaf keep it dense. The empty leaf is dense; a
    dense leaf with fewer than 65536 cells stays dense under [appendCell],
    under [insertCell] at any slot for which the call returns, and under
    [updateCell]; the new page that [split] fills from an empty one is
    dense. A dense leaf has the slot properties the codec needs: every
    slot indexes an allocated cell, and every slot index is below the slot
    count. *)
Theorem leaf_dense_preserved (n : leafNode) (k : Z) (v : list byte) :
  leaf_dense n → len (ln_cells n) < 65536 →
  leaf_dense newLeafNode ∧
  (leaf_valid n ∧ btree_compact (Leaf n)) ∧
  leaf_dense (leafNode_appendCell n k v).1 ∧
  (∀ s n' e, leafNode_insertCell n s k v = Ret (n', e) → leaf_dense n') ∧
  (∀ n' e, leafNode_updateCell n k v = Ret (n', e) → leaf_dense n') ∧
  (∀ newPg p' newPg' r,
     offsets (ln_node newPg) = [] → ln_cells newPg = [] →
     leafNode_split n newPg = Ret (p', newPg', r) → leaf_dense newPg').
Proof.
  intros Hd Hcells.
  pose proof (slots_dense_length _ _ Hd) as Hlen.
  destruct (slots_dense_valid _ _ Hd) as [Hv Hc].
  assert (H0 : 0 ≤ len (ln_cells n)) by (unfold len; lia).
  assert (Hsnoc : ∀ c, slots_dense (offsets (ln_node n) ++ [len (ln_cells n)])
                         (ln_cells n ++ [Some c])).
  { intros c.
    pose proof (slots_dense_snoc _ _ (length (offsets (ln_node n))) c Hd) as Hs.
    by rewrite firstn_all, drop_all in Hs. }
  split; [|split; [done|split; [|split; [|split]]]].
  - split; [done | constructor].
  - unfold leaf_dense, leafNode_appendCell. simpl.
    rewrite Hlen, uint16_small by lia. apply Hsnoc.
  - intros s n' e. unfold leafNode_insertCell.
    destruct (checkRowSizeLimit v); [by intros [= <- <-]|].
    rewrite (uint16_small (len (ln_cells n))) by lia.
    destruct (decide (uint32 (len (offsets (ln_node n))) = s)).
    + intros [= <- <-]. apply Hsnoc.
    + destruct (decide (0 ≤ s < len (offsets (ln_node n)))); [|done].
      intros [= <- <-]. unfold leaf_dense. simpl.
      rewrite openSlot_insert by done. by apply slots_dense_snoc.
  - intros n' e. unfold leafNode_updateCell.
    destruct (checkRowSizeLimit v); [by intros [= <- <-]|].
    destruct (leafNode_findCellOffsetByKey n k) as [[s found]|]; [|done].
    rewrite go_bind_Ret. simpl. destruct found; simpl; [|by intros [= <- <-]].
    destruct (index (ln_cells n) s) as [p|]; [|done]. simpl.
    destruct p as [c|]; [|done]. simpl. intros [= <- <-].
    unfold leaf_dense. simpl. by apply slots_dense_insert.
  - intros newPg p' newPg' r Ho Hcs. unfold leafNode_split.
    destruct (quot2_half (len (offsets (ln_node n)))) as [Hm0 Hm]; [lia|].
    set (mid := len (offsets (ln_node n)) ÷ 2) in *.
    assert (Hloop := slots_seqZ_drop _ _ mid Hv Hm0).
    rewrite (leafNode_split_loop n _ _ newPg Hloop), go_bind_Ret.
    rewrite Ho, Hcs. cbn [fst snd]. cbv zeta. simpl.
    set (cs := drop (Z.to_nat mid) (entries (offsets (ln_node n)) (ln_cells n))).
    change (len []) with 0.
    assert (Hlcs : len cs ≤ 65536).
    { unfold cs, len in *. rewrite length_drop, entries_length by done. lia. }
    rewrite uint16_seqZ by done.
    destruct (index (seqZ 0 (len cs)) 0) as [off|]; [|done]. simpl.
    destruct (index (Some <$> (leaf_copy <$> cs)) off) as [pc|]; [|done]. simpl.
    destruct pc as [cell|]; [|done]. simpl. intros [= <- <- <-].
    unfold leaf_dense. simpl. split.
    + unfold len. by rewrite !length_fmap.
    + apply Forall_fmap, Forall_forall. intros x _. simpl. eauto.
Qed.

Lemma leaf_dense_preserved_witness :
  leaf_valid ex_leaf ∧ btree_compact (Leaf ex_leaf) ∧
  leaf_dense (leafNode_appendCell ex_leaf 40 ["d"%byte]).1.
Proof.
  destruct (leaf_dense_preserved ex_leaf 40 ["d"%byte])
    as (_ & [Hv Hc] & Ha & _).
  - split; [apply perm_skip, perm_swap | repeat constructor; eauto].
  - vm_compute. reflexivity.
  - split; [exact Hv|]. split; [exact Hc | exact Ha].
Defined.

(** X9. The mutators of an internal node keep it dense: the empty node is
    dense; a dense node with fewer than 65536 cells stays dense under
    [appendCell] and under [insertCell] at any slot for which the call
    returns; the new page that [split] fills from an empty one is dense.
    A dense node has the slot properties the codec needs. *)
Theorem internal_dense_preserved (n : internalNode) (k fo : Z) :
  internal_dense n → len (in_cells n) < 65536 →
  internal_dense newInternalNode ∧
  (internal_valid n ∧ btree_compact (Internal n)) ∧
  internal_dense (internalNode_appendCell n k fo).1 ∧
  (∀ s n' e, internalNode_insertCell n s k fo = Ret (n', e) →
     internal_dense n') ∧
  (∀ newPg p' newPg' r,
     offsets (in_node newPg) = [] → in_cells newPg = [] →
     internalNode_split n newPg = Ret (p', newPg', r) → internal_dense newPg').
Proof.
  intros Hd Hcells.
  pose proof (slots_dense_length _ _ Hd) as Hlen.
  destruct (slots_dense_valid _ _ Hd) as [Hv Hc].
  assert (H0 : 0 ≤ len (in_cells n)) by (unfold len; lia).
  split; [|split; [done|split; [|split]]].
  - split; [done | constructor].
  - unfold internal_dense, internalNode_appendCell. simpl.
    rewrite Hlen, uint16_small by lia.
    pose proof (slots_dense_snoc _ _ (length (offsets (in_node n)))
                  (mkInternalCell k fo) Hd) as Hs.
    by rewrite firstn_all, drop_all in Hs.
  - intros s n' e Hins.
    assert (Hs : 0 ≤ s < len (offsets (in_node n))).
    { unfold internalNode_insertCell in Hins.
      by destruct (decide (0 ≤ s < len (offsets (in_node n)))). }
    destruct (lookup_lt_is_Some_2 (offsets (in_node n)) (Z.to_nat s))
      as [b Hb]; [unfold len in *; lia|].
    unfold slots_valid in Hv. rewrite Forall_forall in Hv.
    destruct (Hv b) as [c Hcell]; [by eapply list_elem_of_lookup_2|].
    rewrite (internalNode_insertCell_eq n s k fo b c) in Hins by (done || lia).
    injection Hins as <- <-. unfold internal_dense. simpl.
    pose proof (slots_dense_snoc _ _ (Z.to_nat s)
                  (mkInternalCell k (inc_fileOffset c))
                  (slots_dense_insert _ _ (Z.to_nat b)
                     (mkInternalCell (inc_key c) fo) Hd)) as Hs'.
    unfold len in Hs' at 1. rewrite length_insert in Hs'. exact Hs'.
  - intros newPg p' newPg' r Ho Hcs. unfold internalNode_split.
    destruct (quot2_half (len (offsets (in_node n)))) as [Hm0 Hm]; [lia|].
    set (mid := len (offsets (in_node n)) ÷ 2) in *.
    assert (Hloop := slots_seqZ_drop _ _ (mid + 1) Hv ltac:(lia)).
    rewrite (internalNode_split_loop n _ _ newPg Hloop), go_bind_Ret.
    rewrite Ho, Hcs. cbn [fst snd]. cbv zeta. simpl.
    set (cs := drop (Z.to_nat (mid + 1))
                 (entries (offsets (in_node n)) (in_cells n))).
    change (len []) with 0.
    assert (Hlcs : len cs ≤ 65536).
    { unfold cs, len in *. rewrite length_drop, entries_length by done. lia. }
    rewrite uint16_seqZ by done.
    destruct (index (in_cells n) mid) as [pk|]; [|done]. simpl.
    destruct pk as [ck|]; [|done]. simpl. intros [= <- <- <-].
    unfold internal_dense. simpl. split.
    + unfold len. by rewrite !length_fmap.
    + apply Forall_fmap, Forall_forall. intros x _. simpl. eauto.
Qed.

Lemma internal_dense_preserved_witness :
  internal_valid ex_internal ∧ btree_compact (Internal ex_internal) ∧
  internal_dense (internalNode_appendCell ex_internal 40 20480).1.
Proof.
  destruct (internal_dense_preserved ex_internal 40 20480)
    as (_ & [Hv Hc] & Ha & _).
  - split; [apply perm_skip, perm_swap | repeat constructor; eauto].
  - vm_compute. reflexivity.
  - split; [exact Hv|]. split; [exact Hc | exact Ha].
Defined.

(** ** The rightmost key of an internal node *)

(** X7. [getRightmostKey] panics on a node without slots; otherwise it returns
    the key of the last slot, which is the largest key of a key-ordered
    node. *)
Theorem internalNode_getRightmostKey_last (p : internalNode) :
  internal_valid p →
  (offsets (in_node p) = [] → internalNode_getRightmostKey p = Panic) ∧
  (offsets (in_node p) ≠ [] →
     ∃ k, internalNode_getRightmostKey p = Ret k ∧
          last (internal_keys p) = Some k ∧
          (internal_sorted p → Forall (λ kj, kj ≤ k) (internal_keys p))).
Proof.
  intros Hv. unfold internalNode_getRightmostKey. split.
  - intros ->. done.
  - intros Hne.
    destruct (last (offsets (in_node p))) as [off|] eqn:Hlast;
      [|by apply last_None in Hlast].
    rewrite last_lookup in Hlast.
    pose proof (lookup_lt_Some _ _ _ Hlast) as Hlt.
    assert (Hidx : index (offsets (in_node p)) (len (offsets (in_node p)) - 1)
                   = Ret off).
    { apply index_Ret. unfold len. split; [lia|].
      by replace (Z.to_nat (Z.of_nat (length (offsets (in_node p))) - 1))
        with (pred (length (offsets (in_node p)))) by lia. }
    rewrite Hidx, go_bind_Ret.
    pose proof (entries_lookup _ _ _ _ Hv Hlast) as He.
    pose proof Hv as Hall. unfold internal_valid, slots_valid in Hall.
    rewrite Forall_forall in Hall.
    destruct (Hall off) as [c Hc]; [by eapply list_elem_of_lookup_2|].
    rewrite Hc in He. apply cellAt_Some in Hc.
    destruct (index (in_cells p) off) as [pc|]; [|done]. simpl in *.
    rewrite Hc. simpl. exists (inc_key c). split; [done|].
    assert (Hk : internal_keys p !! pred (length (offsets (in_node p)))
                 = Some (inc_key c)).
    { unfold internal_keys, internal_entries. by rewrite list_lookup_fmap, He. }
    assert (Hl : length (internal_keys p) = length (offsets (in_node p))).
    { unfold internal_keys, internal_entries.
      by rewrite length_fmap, entries_length. }
    split; [by rewrite last_lookup, Hl|].
    intros Hs. apply Forall_forall. intros kj [j Hj]%list_elem_of_lookup.
    pose proof (lookup_lt_Some _ _ _ Hj) as Hjlt.
    destruct (decide (j = pred (length (offsets (in_node p))))) as [->|Hnj].
    + rewrite Hk in Hj. injection Hj as <-. lia.
    + assert (kj < inc_key c); [|lia].
      eapply (StronglySorted_lookup_lt _ j); [exact Hs| |exact Hj|exact Hk]. lia.
Qed.

Lemma internalNode_getRightmostKey_last_witness :
  ∃ k, internalNode_getRightmostKey ex_internal = Ret k ∧
       last (internal_keys ex_internal) = Some k ∧
       Forall (λ kj, kj ≤ k) (internal_keys ex_internal).
Proof.
  destruct (internalNode_getRightmostKey_last ex_internal) as [_ H].
  - by_compute.
  - destruct H as (k & Hk & Hl & Hs); [discriminate|].
    exists k. split; [exact Hk|]. split; [exact Hl|]. apply Hs. by_compute.
Defined.

(** ** Page codec: capacity *)

Lemma uint16_range (z : Z) : 0 ≤ uint16 z < 65536.
Proof. unfold uint16. apply Z.mod_pos_bound. lia. Qed.

Lemma internalNode_encode_overfull (p : internalNode) :
  internal_valid p →
  maxInternalNodeCells < len (offsets (in_node p)) < 4294967296 →
  internalNode_encode p = Panic.
Proof.
  intros Hv Hn. change maxInternalNodeCells with 290 in Hn.
  unfold internalNode_encode. cbv zeta.
  rewrite uint32_small by lia.
  rewrite (internal_footer p _ _ [] (slots_seqZ_entries _ _ Hv)).
  rewrite go_bind_Ret, foldl_putUint, !app_nil_l.
  fold (internal_entries p).
  set (footer := mjoin (encodeInternalCell <$> internal_entries p)).
  assert (Hf : len footer = 12 * len (offsets (in_node p))).
  { unfold footer. rewrite length_internal_footer. unfold len, internal_entries.
    by rewrite entries_length. }
  set (body := mjoin (putUint 2 <$> offsets (in_node p))).
  assert (Hb : len body = 2 * len (offsets (in_node p))).
  { unfold body, len. rewrite length_join_putUint. lia. }
  repeat rewrite <-app_assoc.
  match goal with |- context [uint16 ?x] =>
    pose proof (uint16_range x); set (u := uint16 x) in * end.
  rewrite decide_True; [done|].
  unfold len in *. rewrite !length_app, !length_putUint, length_replicate.
  change pageSize with 4096. lia.
Qed.

(** The closed form of [leafNode.encode] for any content size. *)
Lemma leafNode_encode_gen (p : leafNode) :
  leaf_valid p → len (offsets (ln_node p)) < 4294967296 →
  let footer := mjoin (encodeLeafCell <$> leaf_entries p) in
  let free := 4055 - 2 * len (offsets (ln_node p)) - len footer in
  leafNode_encode p =
  if decide (0 ≤ free) then
    Ret (putUint 1 LeafNode ++ putUint 8 (fileOffset (ln_node p))
         ++ putUint 8 (lastLSN (ln_node p))
         ++ putBool (hasLSib p) ++ putBool (hasRSib p)
         ++ putUint 8 (lSibFileOffset p) ++ putUint 8 (rSibFileOffset p)
         ++ putUint 4 (len (offsets (ln_node p)))
         ++ mjoin (putUint 2 <$> offsets (ln_node p))
         ++ putUint 2 free ++ replicate (Z.to_nat free) x00 ++ footer)
  else Panic.
Proof.
  intros Hv Hn footer free.
  assert (0 ≤ len (offsets (ln_node p))) by (unfold len; lia).
  assert (Hf : 0 ≤ len footer) by (unfold len; lia).
  unfold leafNode_encode. cbv zeta.
  rewrite uint32_small by lia.
  rewrite (leaf_footer p _ _ [] (slots_seqZ_entries _ _ Hv)).
  rewrite go_bind_Ret, foldl_putUint, !app_nil_l.
  fold (leaf_entries p). fold footer.
  set (body := mjoin (putUint 2 <$> offsets (ln_node p))).
  assert (Hb : len body = 2 * len (offsets (ln_node p))).
  { unfold body, len. rewrite length_join_putUint. lia. }
  repeat rewrite <-app_assoc.
  match goal with |- context [uint16 ?x] => assert (x = free) as -> end.
  { unfold free, len in *. rewrite !length_app, !length_putUint.
    change pageSize with 4096. simpl. lia. }
  destruct (decide (0 ≤ free)) as [Hfree|Hfree].
  - rewrite uint16_small by (unfold free in *; lia).
    rewrite decide_False; [done|]. intros Hne. apply Hne.
    unfold free, len in *.
    rewrite !length_app, !length_putUint, length_replicate.
    change pageSize with 4096. simpl. lia.
  - pose proof (uint16_range free). set (u := uint16 free) in *.
    rewrite decide_True; [done|].
    unfold free, len in *.
    rewrite !length_app, !length_putUint, length_replicate.
    change pageSize with 4096. simpl. lia.
Qed.

Lemma length_leaf_footer_exact (cs : list leafNodeCell) (w : Z) :
  Forall (λ c, len (lnc_valueBytes c) = w) cs →
  len (mjoin (encodeLeafCell <$> cs)) = (9 + w) * len cs.
Proof.
  induction 1 as [|c cs Hc _ IH]; [unfold len; simpl; lia|].
  rewrite join_fmap_cons. unfold len in *. rewrite length_app.
  unfold encodeLeafCell at 1. rewrite !length_app, !length_putUint.
  simpl length. lia.
Qed.

(** X10. [encode] returns exactly when the content fits a page. For a node whose
    slots index allocated cells, [encode] returns a 4096-byte page if header,
    slot array and cells take at most 4096 bytes, and panics otherwise (the
    16-bit free size wraps around and the final size check fails). An
    internal node fits exactly when it has at most [maxInternalNodeCells]
    slots; a leaf whose values all have the maximum size of 400 bytes fits
    exactly when it has at most [maxLeafNodeCells] slots. *)
Theorem encode_returns_iff_fits (n : btreeNode) :
  btree_valid n → len (offsets (btree_node n)) < 4294967296 →
  (btree_encodedSize n ≤ pageSize →
     ∃ buf, btree_encode n = Ret buf ∧ len buf = pageSize) ∧
  (pageSize < btree_encodedSize n → btree_encode n = Panic) ∧
  match n with
  | Internal p =>
      btree_encodedSize n ≤ pageSize ↔
      len (offsets (in_node p)) ≤ maxInternalNodeCells
  | Leaf p =>
      Forall (λ c, len (lnc_valueBytes c) = maxValueSize) (leaf_entries p) →
      (btree_encodedSize n ≤ pageSize ↔
       len (offsets (ln_node p)) ≤ maxLeafNodeCells)
  end.
Proof.
  destruct n as [p|p]; simpl; intros Hv Hn.
  - assert (0 ≤ len (offsets (in_node p))) by (unfold len; lia).
    assert (Hf : len (mjoin (encodeInternalCell <$> internal_entries p))
                 = 12 * len (offsets (in_node p))).
    { rewrite length_internal_footer. unfold len, internal_entries.
      by rewrite entries_length. }
    rewrite Hf. change internalNodeHeaderSize with 31.
    change offsetElemSize with 2. change pageSize with 4096.
    change maxInternalNodeCells with 290.
    split; [|split; [|lia]].
    + intros Hfit. eexists. split.
      { apply internalNode_encode_eq; [done|].
        change maxInternalNodeCells with 290. lia. }
      unfold len in *.
      rewrite !length_app, !length_putUint, length_replicate,
        length_join_putUint.
      unfold internal_entries in *. lia.
    + intros Hfit. apply internalNode_encode_overfull; [done|].
      change maxInternalNodeCells with 290. lia.
  - assert (0 ≤ len (offsets (ln_node p))) by (unfold len; lia).
    pose proof (leafNode_encode_gen p Hv Hn) as Henc. cbv zeta in Henc.
    change leafNodeHeaderSize with 41.
    change offsetElemSize with 2. change pageSize with 4096.
    change maxLeafNodeCells with 9. change maxValueSize with 400.
    set (footer := mjoin (encodeLeafCell <$> leaf_entries p)) in *.
    split; [|split].
    + intros Hfit. rewrite decide_True in Henc by lia.
      eexists. split; [exact Henc|].
      unfold len in *.
      rewrite !length_app, !length_putUint, length_replicate,
        length_join_putUint.
      simpl. lia.
    + intros Hfit. by rewrite decide_False in Henc by lia.
    + intros Hvals. unfold footer.
      rewrite (length_leaf_footer_exact _ 400 Hvals).
      unfold len, leaf_entries. rewrite entries_length by done. lia.
Qed.

Lemma encode_returns_iff_fits_witness :
  (∃ buf, btree_encode (Leaf ex_leaf) = Ret buf ∧ len buf = pageSize) ∧
  (btree_encodedSize (Internal ex_internal) ≤ pageSize ↔
   len (offsets (in_node ex_internal)) ≤ maxInternalNodeCells).
Proof.
  split.
  - apply (encode_returns_iff_fits (Leaf ex_leaf)).
    + by_compute.
    + vm_compute. reflexivity.
    + vm_compute. discriminate.
  - apply (encode_returns_iff_fits (Internal ex_internal)).
    + by_compute.
    + vm_compute. reflexivity.
Defined.

(** ** The file store: appending and fetching *)

Lemma btree_setFileOffset_get (n : btreeNode) (off : Z) :
  btree_getFileOffset (btree_setFileOffset n off) = off.
Proof. by destruct n. Qed.

Lemma btree_setFileOffset_dirty (n : btreeNode) (off : Z) :
  btree_isDirty (btree_setFileOffset n off) = btree_isDirty n.
Proof. by destruct n. Qed.

Lemma sublist_reverse {A} (l1 l2 : list A) :
  l1 `sublist_of` l2 → reverse l1 `sublist_of` reverse l2.
Proof.
  induction 1 as [|x l1 l2 _ IH|x l1 l2 _ IH]; [done| |].
  - rewrite !reverse_cons. by apply sublist_app.
  - rewrite reverse_cons. by apply sublist_inserts_r.
Qed.

(** A successful [set] leaves the entry at the most recently used end; the
    other entries come from the cache as it was, and none of them has the
    key. *)
Lemma lru_set_true (isD : loc → bool) (c c' : LRUCache) k v :
  lru_set isD c k v = (c', true) →
  lru_cap c' = lru_cap c ∧
  ∃ rest, lru_entries c' = mkEntry k v :: rest ∧
    rest `sublist_of` lru_entries c ∧
    (NoDup (ce_key <$> lru_entries c) → k ∉ ce_key <$> rest).
Proof.
  unfold lru_set, lru_find.
  destruct (list_find _ (lru_entries c)) as [[i e]|] eqn:E.
  - intros [= <-]. split; [done|]. eexists. split; [done|].
    split; [apply sublist_delete|].
    apply list_find_Some in E as (Hi & Hk & _).
    intros Hnd Hin. apply list_elem_of_fmap in Hin as (e' & He' & Hin).
    apply list_elem_of_lookup in Hin as [j Hj].
    rewrite <-(take_drop_middle _ _ _ Hi) in Hnd.
    rewrite fmap_app, fmap_cons in Hnd.
    apply NoDup_app in Hnd as (_ & Hdisj & Hnd2).
    apply NoDup_cons in Hnd2 as [Hnotin _].
    rewrite delete_take_drop in Hj. apply lookup_app_Some in Hj as [Hj|[_ Hj]].
    + apply (Hdisj k); [|rewrite Hk; left].
      apply list_elem_of_fmap. exists e'. split; [done|].
      by eapply list_elem_of_lookup_2.
    + apply Hnotin. rewrite Hk. apply list_elem_of_fmap. exists e'.
      split; [done|]. by eapply list_elem_of_lookup_2.
  - apply list_find_None in E.
    assert (Hk : ∀ rest, rest `sublist_of` lru_entries c → k ∉ ce_key <$> rest).
    { intros rest Hsub Hin. apply list_elem_of_fmap in Hin as (e' & He' & Hin).
      rewrite Forall_forall in E. apply (E e'); [|done].
      eapply sublist_submseteq, elem_of_submseteq in Hsub; done. }
    case_decide.
    + intros [= <-]. split; [done|]. eexists. split; [done|].
      split; [done|]. intros _. by apply Hk.
    + destruct (list_find _ (reverse (lru_entries c))) as [[j e]|]; [|done].
      intros [= <-]. split; [done|]. eexists. split; [done|].
      assert (Hsub : reverse (delete j (reverse (lru_entries c)))
                     `sublist_of` lru_entries c).
      { rewrite <-(reverse_involutive (lru_entries c)) at 2.
        apply sublist_reverse, sublist_delete. }
      split; [done|]. intros _. by apply Hk.
Qed.

Lemma lru_set_false (isD : loc → bool) (c c' : LRUCache) k v :
  lru_set isD c k v = (c', false) → c' = c.
Proof.
  unfold lru_set. destruct (lru_find c k) as [[i e]|]; [done|].
  case_decide; [done|].
  destruct (list_find _ (reverse (lru_entries c))) as [[j e]|]; [done|].
  by intros [= <-].
Qed.

Lemma lru_set_room (isD : loc → bool) (c : LRUCache) k v :
  cache_has_room c →
  ∃ c', lru_set isD c k v = (c', true) ∧
    ∀ k', k' ≠ k → lru_lookup c' k' = lru_lookup c k'.
Proof.
  unfold cache_has_room, lru_set, lru_lookup, lru_find. intros Hroom.
  destruct (list_find _ (lru_entries c)) as [[i e]|] eqn:E.
  - eexists. split; [done|]. intros k' Hk'. cbn [lru_entries].
    apply list_find_Some in E as (Hi & Hk & _).
    rewrite find_snd_cons, decide_False by done.
    apply (find_snd_delete _ _ i e); [done|]. simpl. congruence.
  - rewrite decide_True by done. eexists. split; [done|].
    intros k' Hk'. cbn [lru_entries]. by rewrite find_snd_cons, decide_False.
Qed.

Lemma lru_get_head (c : LRUCache) k v rest :
  lru_entries c = mkEntry k v :: rest →
  lru_get c k = (c, Some v).
Proof.
  intros He. unfold lru_get, lru_find. rewrite He. simpl.
  rewrite decide_True by done. simpl. destruct c; simpl in *. by subst.
Qed.

(** What [get] does to the cache. *)
Lemma lru_get_spec (c : LRUCache) k :
  (lru_lookup c k = None ∧ lru_get c k = (c, None)) ∨
  ∃ i e, lru_lookup c k = Some e ∧ lru_entries c !! i = Some e ∧
    lru_get c k = (mkLRU (lru_cap c) (e :: delete i (lru_entries c)),
                   Some (ce_val e)).
Proof.
  unfold lru_lookup, lru_get, lru_find.
  destruct (list_find _ (lru_entries c)) as [[i e]|] eqn:E; [|by left].
  right. exists i, e. apply list_find_Some in E as (Hi & _). done.
Qed.

Lemma lru_get_lookup (c : LRUCache) k :
  ∀ k', lru_lookup (lru_get c k).1 k' = lru_lookup c k'.
Proof.
  intros k'. unfold lru_lookup, lru_get, lru_find.
  destruct (list_find _ (lru_entries c)) as [[i e]|] eqn:E; [|done].
  cbn [fst lru_entries]. pose proof E as (Hi & Hk & _)%list_find_Some.
  rewrite find_snd_cons. case_decide as Hk'.
  - assert (k' = k) as -> by congruence. by rewrite E.
  - by apply (find_snd_delete _ _ i e).
Qed.

(** X12. Append, then fetch. When [append] returns nil it has stored the next
    free offset in the node, advanced the next free offset by one page
    without touching the file, and cached the node: [fetch] of that offset
    returns the same node object without reading the file, and after
    [setRoot] of the node [getRoot] returns it too. *)
Theorem fileStore_append_then_fetch (f f1 : fileStore) (h h1 : heap) (l : loc) :
  fileStore_append f h l = Ret (f1, h1, None) →
  (∃ n, h !! l = Some n ∧
        h1 = <[l := btree_setFileOffset n (nextFreeOffset f)]> h) ∧
  nextFreeOffset f1 = uint64 (nextFreeOffset f + pageSize) ∧
  file f1 = file f ∧
  (∃ f2, fileStore_fetch f1 h1 (nextFreeOffset f)
           = Ret (f2, h1, (Some l, None)) ∧ file f2 = file f) ∧
  (∃ f3 f4, fileStore_setRoot f1 h1 l = Ret f3 ∧
            rootOffset f3 = nextFreeOffset f ∧
            fileStore_getRoot f3 h1 = Ret (f4, h1, (Some l, None))).
Proof.
  unfold fileStore_append. destruct (h !! l) as [n|] eqn:Hl; [|done].
  cbn [deref]. rewrite go_bind_Ret. cbv zeta. rewrite btree_setFileOffset_get.
  unfold fileStore_setCache.
  destruct (lru_set _ (cache f) (nextFreeOffset f) l) as [c ok] eqn:Hset.
  destruct ok; simpl; [|done]. intros [= <- <-].
  apply lru_set_true in Hset as (_ & rest & Hc & _).
  split; [eauto|]. split; [done|]. split; [done|].
  assert (Hfetch : ∀ g, cache g = c →
    fileStore_fetch g (<[l := btree_setFileOffset n (nextFreeOffset f)]> h)
      (nextFreeOffset f)
    = Ret (g, <[l := btree_setFileOffset n (nextFreeOffset f)]> h,
           (Some l, None))).
  { intros g Hg. unfold fileStore_fetch.
    rewrite Hg, (lru_get_head c _ l rest Hc). destruct g; simpl in *.
    by subst. }
  split.
  - eexists. split; [by apply Hfetch|]. done.
  - unfold fileStore_setRoot, fileStore_getRoot.
    rewrite lookup_insert_eq. simpl. rewrite btree_setFileOffset_get.
    eexists _, _. split; [done|]. split; [done|]. simpl. by apply Hfetch.
Qed.

Lemma fileStore_append_then_fetch_witness :
  ∃ f1 h1 f2,
    fileStore_append (ex_cached_store []) (<[2%nat := Leaf newLeafNode]> ex_heap)
      2%nat = Ret (f1, h1, None) ∧
    nextFreeOffset f1 = 16384 ∧
    fileStore_fetch f1 h1 12288 = Ret (f2, h1, (Some 2%nat, None)).
Proof.
  destruct (fileStore_append (ex_cached_store [])
              (<[2%nat := Leaf newLeafNode]> ex_heap) 2%nat)
    as [[[f1 h1] [e|]]|] eqn:E; try (vm_compute in E; discriminate).
  destruct (fileStore_append_then_fetch _ _ _ _ _ E)
    as (_ & Hn & _ & (f2 & Hf & _) & _).
  exists f1, h1, f2. split; [reflexivity|]. split; [exact Hn | exact Hf].
Defined.

(** X13. A failed [append]. When the next free offset is not resident and the
    cache is at capacity with every resident node dirty, [append] returns
    [ErrLRUCacheFull] and leaves the store as it was, the next free offset
    included; but the node's file offset has already been overwritten. *)
Theorem fileStore_append_cache_full (f : fileStore) (h : heap) (l : loc)
    (n : btreeNode) :
  h !! l = Some n →
  lru_lookup (cache f) (nextFreeOffset f) = None →
  ¬ cache_has_room (cache f) →
  Forall (λ e, heap_isDirty h (ce_val e) = true) (lru_entries (cache f)) →
  fileStore_append f h l
  = Ret (f, <[l := btree_setFileOffset n (nextFreeOffset f)]> h,
         Some ErrLRUCacheFull).
Proof.
  intros Hl Hk Hroom Hdirty. unfold fileStore_append. rewrite Hl.
  cbn [deref]. rewrite go_bind_Ret. cbv zeta. rewrite btree_setFileOffset_get.
  unfold fileStore_setCache, lru_set.
  unfold lru_lookup in Hk. destruct (lru_find (cache f) _) as [[i e]|]; [done|].
  unfold cache_has_room in Hroom. rewrite decide_False by done.
  destruct (list_find _ (reverse (lru_entries (cache f)))) as [[j e]|] eqn:E;
    [|done].
  apply list_find_Some in E as (Hj & Hclean & _).
  rewrite Forall_forall in Hdirty.
  assert (He : e ∈ lru_entries (cache f)).
  { apply elem_of_reverse. by eapply list_elem_of_lookup_2. }
  apply Hdirty in He. unfold heap_isDirty in *.
  destruct (decide (ce_val e = l)) as [Heq|Hne].
  - rewrite Heq in *. rewrite lookup_insert_eq in Hclean. rewrite Hl in He.
    rewrite btree_setFileOffset_dirty in Hclean. congruence.
  - assert (l ≠ ce_val e) by congruence.
    rewrite lookup_insert_ne in Hclean by done. congruence.
Qed.

Lemma fileStore_append_cache_full_witness :
  fileStore_append
    (mkStore (mkFile [] 0 [] []) 0 0 8192 0 (mkLRU 1 [mkEntry 4096 0%nat]) 0)
    (<[2%nat := Leaf newLeafNode]> ex_heap) 2%nat
  = Ret (mkStore (mkFile [] 0 [] []) 0 0 8192 0 (mkLRU 1 [mkEntry 4096 0%nat]) 0,
         <[2%nat := btree_setFileOffset (Leaf newLeafNode) 8192]>
           (<[2%nat := Leaf newLeafNode]> ex_heap),
         Some ErrLRUCacheFull).
Proof.
  apply (fileStore_append_cache_full
           (mkStore (mkFile [] 0 [] []) 0 0 8192 0
              (mkLRU 1 [mkEntry 4096 0%nat]) 0)
           (<[2%nat := Leaf newLeafNode]> ex_heap) 2%nat (Leaf newLeafNode)).
  - reflexivity.
  - reflexivity.
  - unfold cache_has_room. vm_compute. discriminate.
  - repeat constructor.
Defined.

(** X14. A cache hit. [fetch] of a resident offset returns the resident node
    object; it reads and writes nothing, changes no node, and every offset
    is resident afterwards exactly as before. *)
Theorem fileStore_fetch_hit (f : fileStore) (h : heap) (offset : Z)
    (e : cacheEntry) :
  lru_lookup (cache f) offset = Some e →
  ∃ g, fileStore_fetch f h offset = Ret (g, h, (Some (ce_val e), None)) ∧
    file g = file f ∧ headerBytes g = headerBytes f ∧
    rootOffset g = rootOffset f ∧
    ∀ k, lru_lookup (cache g) k = lru_lookup (cache f) k.
Proof.
  intros He. unfold fileStore_fetch.
  pose proof (lru_get_lookup (cache f) offset) as Hlook.
  destruct (lru_get_spec (cache f) offset) as [[Hnone _]|(i & e' & He' & _ & Hget)];
    [congruence|].
  assert (e' = e) as -> by congruence.
  rewrite Hget in *. eexists. split; [reflexivity|]. done.
Qed.

Lemma fileStore_fetch_hit_witness :
  ∃ g, fileStore_fetch (ex_cached_store []) ex_heap 4096
       = Ret (g, ex_heap, (Some 0%nat, None)) ∧
    file g = file (ex_cached_store []).
Proof.
  destruct (fileStore_fetch_hit (ex_cached_store []) ex_heap 4096
              (mkEntry 4096 0%nat)) as (g & Hfetch & Hfile & _).
  - reflexivity.
  - exists g. split; [exact Hfetch | exact Hfile].
Defined.

(** [encode] returns a buffer only through its final size check. *)
Lemma btree_encode_len (n : btreeNode) (buf : list byte) :
  btree_encode n = Ret buf → len buf = pageSize.
Proof.
  destruct n as [p|p]; simpl.
  - unfold internalNode_encode. cbv zeta.
    destruct (foldM _ _ _) as [footer|]; [|done]. rewrite go_bind_Ret.
    case_decide as Hlen; [done|]. intros [= <-]. exact Hlen.
  - unfold leafNode_encode. cbv zeta.
    destruct (foldM _ _ _) as [footer|]; [|done]. rewrite go_bind_Ret.
    case_decide as Hlen; [done|]. intros [= <-]. exact Hlen.
Qed.

Lemma ReadAt_write_at (fl : osFile) (data b : list byte) (off : Z) :
  b ≠ [] → 0 ≤ off →
  f_data fl = write_at data (Z.to_nat off) b →
  ReadAt fl (length b) off = (b, None).
Proof.
  intros Hb Hoff Hdata. unfold ReadAt. rewrite decide_False by lia.
  rewrite Hdata. unfold write_at. destruct b as [|x b]; [done|].
  set (pre := take (Z.to_nat off)
                (data ++ replicate (Z.to_nat off - length data) x00)).
  assert (Hpre : length pre = Z.to_nat off).
  { unfold pre. rewrite length_take, length_app, length_replicate. lia. }
  rewrite drop_app_length' by done.
  rewrite take_app_length' by done.
  rewrite decide_False by lia. by rewrite Nat.sub_diag, app_nil_r.
Qed.

(** X15. Update, then fetch from the file. When [update] of a node returns
    nil, the node's page is in the file: [fetch] of the node's file offset
    on a freshly opened store over that file reads the page, returns nil
    and a new clean node with the same header fields, slot array and cells
    in slot order, and caches it under that offset. The node satisfies the
    node invariants, its fields are within their Go types, its slot
    indices are below the slot count and its file offset is below 2^63. *)
Theorem fileStore_update_then_fetch (f f' : fileStore) (h : heap) (l : loc)
    (n : btreeNode) :
  h !! l = Some n →
  btree_typed n → btree_valid n →
  len (offsets (btree_node n)) ≤ btree_maxCells n →
  btree_values_fit n → btree_compact n →
  btree_getFileOffset n < 2 ^ 63 →
  fileStore_update f h l = Ret (f', None) →
  ∀ (faults : list (option nat)) (h2 : heap), ∃ g n',
    fileStore_fetch (newFileStore (f_data (file f')) faults) h2
      (btree_getFileOffset n)
    = Ret (g, <[fresh (dom h2) := n']> h2, (Some (fresh (dom h2)), None)) ∧
    btree_same n n' ∧ btree_isDirty n' = false ∧ btree_valid n' ∧
    lru_lookup (cache g) (btree_getFileOffset n)
    = Some (mkEntry (btree_getFileOffset n) (fresh (dom h2))).
Proof.
  intros Hl Ht Hv Hn Hfit Hc Hoff Hupd faults h2.
  assert (Hrt : ∃ buf n',
    btree_encode n = Ret buf ∧ decodePage buf = Ret (n', None) ∧
    btree_same n n' ∧ btree_isDirty n' = false ∧ btree_valid n').
  { destruct n as [p|p].
    - destruct (internalNode_roundtrip p Ht Hv Hn Hc)
        as (buf & p' & Henc & Hdec & Hsame & Hd & Hv' & Hhd).
      exists buf, (Internal p'). split; [done|]. split; [|done].
      unfold decodePage. destruct buf as [|b buf]; [done|].
      injection Hhd as Hb. change (index (b :: buf) 0) with (Ret b).
      rewrite go_bind_Ret, decide_True by done. by rewrite Hdec.
    - destruct (leafNode_roundtrip p Ht Hv Hn Hfit Hc)
        as (buf & p' & Henc & Hdec & Hsame & Hd & Hv' & Hhd).
      exists buf, (Leaf p'). split; [done|]. split; [|done].
      unfold decodePage. destruct buf as [|b buf]; [done|].
      injection Hhd as Hb. change (index (b :: buf) 0) with (Ret b).
      rewrite go_bind_Ret, decide_False by (rewrite Hb; done).
      rewrite decide_True by done. by rewrite Hdec. }
  destruct Hrt as (buf & n' & Henc & Hdec & Hsame & Hdirty & Hv').
  pose proof (btree_encode_len _ _ Henc) as Hlen.
  assert (Hoff' : 0 ≤ btree_getFileOffset n < 2 ^ 63).
  { split; [|done]. destruct Ht as [[[? _] _] _]. done. }
  assert (Hfo : btree_getFileOffset n' = btree_getFileOffset n).
  { destruct Hsame as [Hfo _]. done. }
  (* what [update] did to the file *)
  unfold fileStore_update in Hupd. rewrite Hl in Hupd. cbn [deref] in Hupd.
  rewrite go_bind_Ret, Henc, go_bind_Ret in Hupd.
  rewrite int64_small in Hupd by done.
  destruct (WriteAt (file f) buf (btree_getFileOffset n)) as [fl err] eqn:Hw.
  unfold fileStore_setCache in Hupd.
  destruct (lru_set _ _ _ l) as [c ok].
  assert (Hfile : file f' = fl ∧ err = None).
  { destruct ok; simpl in Hupd; [|done]. by injection Hupd as <- ->. }
  destruct Hfile as [Hfile ->].
  apply WriteAt_ok in Hw as (_ & Hdata & _).
  (* the fetch *)
  exists (fileStore_set_cache (newFileStore (f_data (file f')) faults)
            (mkLRU 10000 [mkEntry (btree_getFileOffset n) (fresh (dom h2))])),
    n'.
  split; [|split; [done|split; [done|split; [done|]]];
            unfold lru_lookup, lru_find; simpl;
            by rewrite decide_True by done].
  unfold fileStore_fetch. cbn [newFileStore cache NewLRU lru_get lru_find
    lru_entries list_find fmap option_fmap option_map fileStore_set_cache file
    lastKey rootOffset nextFreeOffset pageTableRoot _nextLSN].
  rewrite int64_small by done.
  assert (Hbuf : buf ≠ []).
  { intros ->. change pageSize with 4096 in Hlen. done. }
  replace (Z.to_nat pageSize) with (length buf) by (unfold len in Hlen; lia).
  rewrite (ReadAt_write_at _ (f_data (file f)) buf) by
    (done || lia || (simpl; by rewrite Hfile)).
  rewrite Hdec, go_bind_Ret. cbn [fst snd]. cbv zeta.
  unfold fileStore_setCache, lru_set. cbn [cache lru_find lru_entries list_find
    fmap option_fmap option_map lru_cap].
  rewrite Hfo. done.
Qed.

Lemma fileStore_update_then_fetch_witness :
  ∃ f' g n',
    fileStore_update (ex_cached_store []) ex_heap 0%nat = Ret (f', None) ∧
    fileStore_fetch (newFileStore (f_data (file f')) []) ∅ 4096
    = Ret (g, <[fresh (dom (∅ : heap)) := n']> ∅,
           (Some (fresh (dom (∅ : heap))), None)) ∧
    btree_isDirty n' = false.
Proof.
  destruct (fileStore_update (ex_cached_store []) ex_heap 0%nat)
    as [[f' [e|]]|] eqn:E; try (vm_compute in E; discriminate).
  destruct (fileStore_update_then_fetch (ex_cached_store []) f' ex_heap 0%nat
              (Leaf (mkLeaf (mkNode 4096 [0] 0 true 1)
                       [Some (mkLeafCell 1 1 ["a"%byte] false)]
                       false false 0 0))) with (faults := @nil (option nat))
      (h2 := (∅ : heap))
    as (g & n' & Hfetch & _ & Hd & _).
  - reflexivity.
  - unfold btree_typed, node_typed. simpl.
    split; [lia|]. split; [lia|]. split; [lia|].
    repeat constructor; simpl; try lia; done.
  - by_compute.
  - vm_compute. discriminate.
  - by_compute.
  - repeat constructor.
  - reflexivity.
  - exact E.
  - exists f', g, n'. split; [reflexivity|]. split; [exact Hfetch | exact Hd].
Defined.

(** X16. Fetching past the end of the file. [fetch] of a non-resident offset
    at or beyond the end of the file does not fail: [ReadAt] leaves the
    buffer zeroed, the zero type byte selects an internal node, and
    [decode] yields the empty internal node with file offset 0. The new
    node is cached under key 0, so the requested offset is still not
    resident afterwards (unless it is 0). *)
Theorem fileStore_fetch_past_end (f : fileStore) (h : heap) (offset : Z) :
  lru_lookup (cache f) offset = None →
  len (f_data (file f)) ≤ offset < 2 ^ 63 →
  cache_has_room (cache f) →
  ∃ g, fileStore_fetch f h offset
       = Ret (g, <[fresh (dom h) := Internal newInternalNode]> h,
              (Some (fresh (dom h)), None)) ∧
    file g = file f ∧
    lru_lookup (cache g) 0 = Some (mkEntry 0 (fresh (dom h))) ∧
    (offset ≠ 0 → lru_lookup (cache g) offset = None).
Proof.
  intros Hmiss Hoff Hroom.
  assert (0 ≤ len (f_data (file f))) by (unfold len; lia).
  unfold fileStore_fetch.
  destruct (lru_get_spec (cache f) offset) as [[_ ->]|(i & e & He & _)];
    [|congruence].
  unfold ReadAt. cbn [file fileStore_set_cache].
  rewrite int64_small by lia. rewrite decide_False by lia.
  rewrite drop_ge by (unfold len in *; lia).
  rewrite take_nil. cbn [length app].
  rewrite decide_True by (vm_compute; lia).
  assert (Hzero : decodePage (replicate (Z.to_nat pageSize - 0) x00)
                  = Ret (Internal newInternalNode, None))
    by (vm_compute; reflexivity).
  rewrite Hzero, go_bind_Ret. cbn [fst snd]. cbv zeta.
  unfold fileStore_setCache.
  change (btree_getFileOffset (Internal newInternalNode)) with 0.
  cbn [cache fileStore_set_cache].
  destruct (lru_set_room (heap_isDirty
              (<[fresh (dom h) := Internal newInternalNode]> h))
              (cache f) 0 (fresh (dom h)) Hroom) as (c' & Hset & Hother).
  rewrite Hset. cbn [negb].
  eexists. split; [reflexivity|]. cbn [file cache fileStore_set_cache].
  split; [done|]. split.
  - apply lru_set_true in Hset as (_ & rest & Hc & _).
    unfold lru_lookup, lru_find. rewrite Hc. done.
  - intros Hne. by rewrite Hother.
Qed.

Lemma fileStore_fetch_past_end_witness :
  ∃ g, fileStore_fetch (ex_cached_store []) ex_heap 16384
       = Ret (g, <[fresh (dom ex_heap) := Internal newInternalNode]> ex_heap,
              (Some (fresh (dom ex_heap)), None)) ∧
    lru_lookup (cache g) 16384 = None.
Proof.
  destruct (fileStore_fetch_past_end (ex_cached_store []) ex_heap 16384)
    as (g & Hfetch & _ & _ & Hmiss).
  - reflexivity.
  - vm_compute. split; [discriminate | reflexivity].
  - vm_compute. reflexivity.
  - exists g. split; [exact Hfetch|]. apply Hmiss. discriminate.
Defined.

Lemma cache_ok_setCache (f f' : fileStore) (h : heap) (l : loc)
    (n : btreeNode) (e : option error) :
  cache_ok (cache f) h → h !! l = Some n →
  fileStore_setCache f h (btree_getFileOffset n) l = (f', e) →
  cache_ok (cache f') h.
Proof.
  intros [Hnd Hall] Hl. unfold fileStore_setCache.
  destruct (lru_set _ (cache f) _ l) as [c ok] eqn:Hset.
  destruct ok; simpl; intros [= <- <-]; [|done].
  apply lru_set_true in Hset as (_ & rest & Hc & Hsub & Hk).
  unfold cache_ok. cbn [cache fileStore_set_cache]. rewrite Hc. split.
  - rewrite fmap_cons. apply NoDup_cons. split; [by apply Hk|].
    eapply sublist_NoDup; [exact Hnd | by apply fmap_sublist].
  - apply Forall_cons. split; [eauto|].
    apply Forall_forall. intros x Hx. rewrite Forall_forall in Hall.
    apply Hall. eapply elem_of_submseteq; [exact Hx|].
    by apply sublist_submseteq.
Qed.

Lemma cache_ok_insert (c : LRUCache) (h : heap) (l : loc) (n : btreeNode) :
  cache_ok c h → not_cached c l → cache_ok c (<[l := n]> h).
Proof.
  intros [Hnd Hall] Hl. split; [done|].
  unfold not_cached in Hl. rewrite Forall_forall in Hall, Hl.
  apply Forall_forall. intros e He.
  destruct (Hall e He) as (m & Hm & Hoff). exists m. split; [|done].
  rewrite lookup_insert_ne; [done|]. intros Heq. by apply (Hl e He).
Qed.

Lemma cache_ok_live (c : LRUCache) (h : heap) (l : loc) :
  cache_ok c h → h !! l = None → not_cached c l.
Proof.
  intros [_ Hall] Hl. unfold not_cached. eapply Forall_impl; [exact Hall|].
  intros e (m & Hm & _) Heq. simpl in *. congruence.
Qed.

Lemma cache_ok_get (c : LRUCache) (h : heap) k :
  cache_ok c h → cache_ok (lru_get c k).1 h.
Proof.
  intros [Hnd Hall]. destruct (lru_get_spec c k) as [[_ ->]|(i & e & _ & Hi & ->)];
    [done|].
  pose proof (delete_Permutation _ _ _ Hi) as Hp.
  unfold cache_ok. cbn [fst lru_entries]. by rewrite <-Hp.
Qed.

(** X17. The store operations keep the cache invariant that [flushPages]
    relies on: the cache holds no key twice and every entry holds the
    address of a live node stored under its own file offset. [update] and
    [fetch] keep it from any such state, [append] when the node is not
    already resident; [fetch] changes no node of the heap. *)
Theorem store_ops_keep_cache_ok (f : fileStore) (h : heap) :
  cache_ok (cache f) h →
  (∀ l f' e, fileStore_update f h l = Ret (f', e) → cache_ok (cache f') h) ∧
  (∀ l f' h' e, not_cached (cache f) l →
     fileStore_append f h l = Ret (f', h', e) → cache_ok (cache f') h') ∧
  (∀ offset f' h' r, fileStore_fetch f h offset = Ret (f', h', r) →
     cache_ok (cache f') h' ∧ h ⊆ h').
Proof.
  intros Hok. split; [|split].
  - intros l f' e. unfold fileStore_update.
    destruct (h !! l) as [n|] eqn:Hl; [|done]. cbn [deref].
    rewrite go_bind_Ret. destruct (btree_encode n) as [buf|]; [|done].
    rewrite go_bind_Ret.
    destruct (WriteAt _ _ _) as [fl err].
    destruct (fileStore_setCache _ _ _ _) as [f1 err1] eqn:Hset.
    apply (cache_ok_setCache (fileStore_set_file f fl) _ _ _ _ _ Hok Hl) in Hset.
    by destruct err1; intros [= <- <-].
  - intros l f' h' e Hnc. unfold fileStore_append.
    destruct (h !! l) as [n|] eqn:Hl; [|done]. cbn [deref].
    rewrite go_bind_Ret. cbv zeta.
    destruct (fileStore_setCache _ _ _ _) as [f1 err1] eqn:Hset.
    apply cache_ok_setCache in Hset;
      [|by apply cache_ok_insert|by rewrite lookup_insert_eq].
    by destruct err1; intros [= <- <- <-].
  - intros offset f' h' r. unfold fileStore_fetch.
    pose proof (cache_ok_get _ _ offset Hok) as Hget.
    pose proof (lru_get_spec (cache f) offset) as Hspec.
    destruct (lru_get (cache f) offset) as [c hit]. cbn [fst] in Hget.
    destruct hit as [l|]; [by intros [= <- <- <-]|].
    destruct (ReadAt _ _ _) as [buf err].
    assert (Hrest :
      (r ← decodePage buf;
       match r.2 with
       | Some e => Ret (fileStore_set_cache f c, h, (None, Some e))
       | None =>
           let l := fresh (dom h) in
           let h := <[l := r.1]> h in
           let '(f, err) :=
             fileStore_setCache (fileStore_set_cache f c) h
               (btree_getFileOffset r.1) l in
           match err with
           | Some e => Ret (f, h, (None, Some e))
           | None => Ret (f, h, (Some l, None))
           end
       end) = Ret (f', h', r) → cache_ok (cache f') h' ∧ h ⊆ h').
    { destruct (decodePage buf) as [[n' derr]|]; [|done].
      rewrite go_bind_Ret. cbn [fst snd].
      destruct derr; [by intros [= <- <- <-]|]. cbv zeta.
      assert (Hfresh : h !! fresh (dom h) = None)
        by apply not_elem_of_dom, is_fresh.
      destruct (fileStore_setCache _ _ _ _) as [f1 err1] eqn:Hset.
      apply cache_ok_setCache in Hset;
        [|apply cache_ok_insert; [done|by eapply cache_ok_live]
         |by rewrite lookup_insert_eq].
      destruct err1; intros [= <- <- <-];
        (split; [done | by apply insert_subseteq]). }
    destruct err as [[]|]; try exact Hrest; by intros [= <- <- <-].
Qed.

Lemma store_ops_keep_cache_ok_witness :
  ∃ f' h' r,
    fileStore_fetch (ex_cached_store []) ex_heap 16384 = Ret (f', h', r) ∧
    cache_ok (cache f') h' ∧ ex_heap ⊆ h'.
Proof.
  destruct (fileStore_fetch (ex_cached_store []) ex_heap 16384)
    as [[[f' h'] r]|] eqn:E; [|vm_compute in E; discriminate].
  exists f', h', r. split; [reflexivity|].
  apply (proj2 (proj2 (store_ops_keep_cache_ok (ex_cached_store []) ex_heap
                         (proj1 (ex_cached_store_ok []))))
           16384 f' h' r E).
Defined.

(** ** Flushed pages can be read back *)

Lemma write_at_lookup (data b : list byte) (off i : nat) :
  b ≠ [] →
  write_at data off b !! i =
  if decide (i < off)%nat then
    (if decide (i < length data)%nat then data !! i else Some x00)
  else if decide (i < off + length b)%nat then b !! (i - off)%nat
  else data !! i.
Proof.
  intros Hb. unfold write_at. destruct b as [|x b]; [done|].
  set (bs := x :: b).
  set (pre := take off (data ++ replicate (off - length data) x00)).
  assert (Hpre : length pre = off).
  { unfold pre. rewrite length_take, length_app, length_replicate. lia. }
  destruct (decide (i < off)%nat) as [Hi|Hi].
  - rewrite lookup_app_l by lia. unfold pre. rewrite lookup_take_lt by done.
    destruct (decide (i < length data)%nat).
    + by rewrite lookup_app_l.
    + rewrite lookup_app_r by lia. apply lookup_replicate_2. lia.
  - rewrite lookup_app_r by lia. rewrite Hpre.
    destruct (decide (i < off + length bs)%nat).
    + by rewrite lookup_app_l by lia.
    + rewrite lookup_app_r by lia. rewrite lookup_drop. f_equal. lia.
Qed.

Lemma page_at_lookup (data buf : list byte) (off : Z) :
  page_at data off buf ↔
  0 ≤ off ∧ ∀ j : nat, (j < length buf)%nat →
    data !! (Z.to_nat off + j)%nat = buf !! j.
Proof.
  unfold page_at. split; intros [H0 H]; (split; [done|]).
  - intros j Hj. rewrite <-H at 1. rewrite lookup_take_lt by done.
    by rewrite lookup_drop.
  - apply list_eq. intros j. destruct (decide (j < length buf)%nat).
    + rewrite lookup_take_lt, lookup_drop by done. by apply H.
    + rewrite lookup_take_ge by lia. symmetry. apply lookup_ge_None. lia.
Qed.

Lemma page_at_write (data b : list byte) (off : Z) :
  b ≠ [] → 0 ≤ off → page_at (write_at data (Z.to_nat off) b) off b.
Proof.
  intros Hb Hoff. apply page_at_lookup. split; [done|]. intros j Hj.
  rewrite write_at_lookup by done. rewrite decide_False by lia.
  rewrite decide_True by lia. f_equal. lia.
Qed.

(** A write that does not overlap a page leaves the page as it is. *)
Lemma page_at_write_other (data b buf : list byte) (off off' : Z) :
  page_at data off buf → 0 ≤ off' →
  off' + len b ≤ off ∨ off + len buf ≤ off' →
  page_at (write_at data (Z.to_nat off') b) off buf.
Proof.
  intros Hp Hoff' Hdis. destruct b as [|x b]; [done|].
  apply page_at_lookup in Hp as [Hoff Hp]. apply page_at_lookup.
  split; [done|]. intros j Hj. rewrite write_at_lookup by done.
  rewrite <-(Hp j Hj).
  assert (Hin : (Z.to_nat off + j < length data)%nat).
  { apply lookup_lt_is_Some. rewrite (Hp j Hj). by apply lookup_lt_is_Some. }
  unfold len in Hdis.
  destruct (decide (Z.to_nat off + j < Z.to_nat off')%nat).
  - by rewrite decide_True.
  - rewrite decide_False; [done|]. lia.
Qed.

Lemma ReadAt_page_at (fl : osFile) (buf : list byte) (off : Z) :
  page_at (f_data fl) off buf →
  ReadAt fl (length buf) off = (buf, None).
Proof.
  intros [Hoff Hp]. unfold ReadAt. rewrite decide_False by lia. rewrite Hp.
  rewrite decide_False by lia. by rewrite Nat.sub_diag, app_nil_r.
Qed.

Lemma replay_snoc (data : list byte) (log : list writeEvent) (ev : writeEvent) :
  replay data (log ++ [ev])
  = write_at (replay data log) (Z.to_nat (w_off ev)) (w_data ev).
Proof. unfold replay. by rewrite foldl_app. Qed.

(** After a run of writes of which at least one wrote [buf] at [off],
    every write at [off] wrote [buf] and every other write was disjoint
    from that page, the file holds [buf] at [off]. *)
Lemma page_at_replay (data buf : list byte) (off : Z) (log : list writeEvent) :
  buf ≠ [] → 0 ≤ off →
  Forall (λ ev, 0 ≤ w_off ev ∧
                ((w_off ev = off ∧ w_data ev = buf) ∨
                 w_off ev + len (w_data ev) ≤ off ∨
                 off + len buf ≤ w_off ev)) log →
  (∃ ev, ev ∈ log ∧ w_off ev = off ∧ w_data ev = buf) →
  page_at (replay data log) off buf.
Proof.
  intros Hbuf Hoff. induction log as [|ev log IH] using rev_ind.
  - intros _ (ev & Hin & _). by apply elem_of_nil in Hin.
  - intros Hall Hex. apply Forall_app in Hall as [Hall Hev].
    apply Forall_singleton in Hev as [Hev0 Hev]. rewrite replay_snoc.
    destruct Hev as [[-> ->]|Hdis].
    + by apply page_at_write.
    + apply page_at_write_other; [|done|done]. apply IH; [done|].
      destruct Hex as (ev' & Hin & Ho & Hd).
      apply elem_of_app in Hin as [Hin|Hin%list_elem_of_singleton]; [eauto|].
      subst ev'. rewrite Ho, Hd in Hdis. unfold len in Hdis.
      assert (0 < length buf)%nat by (destruct buf; [done|simpl; lia]). lia.
Qed.

(** What a run of store operations does to the file: it appends events to
    the log, and when all of them succeeded the content is the replay of
    these writes. *)
Lemma WriteAt_step (fl fl' : osFile) (b : list byte) (off : Z)
    (err : option error) :
  WriteAt fl b off = (fl', err) →
  ∃ ok, f_log fl' = f_log fl ++ [mkWrite off b ok] ∧
    (err = None → ok = true) ∧
    (ok = true → f_data fl' = write_at (f_data fl) (Z.to_nat off) b).
Proof.
  unfold WriteAt. case_decide.
  - intros [= <- <-]. by exists false.
  - destruct (f_faults fl) as [|[k|] faults]; intros [= <- <-];
      by eexists.
Qed.

Lemma file_step_trans (d0 d1 d2 : list byte) (evs1 evs2 : list writeEvent) :
  (Forall (λ ev, w_ok ev = true) evs1 → d1 = replay d0 evs1) →
  (Forall (λ ev, w_ok ev = true) evs2 → d2 = replay d1 evs2) →
  Forall (λ ev, w_ok ev = true) (evs1 ++ evs2) → d2 = replay d0 (evs1 ++ evs2).
Proof.
  intros H1 H2 [Ha Hb]%Forall_app. unfold replay in *. rewrite foldl_app.
  rewrite <-H1 by done. by apply H2.
Qed.

Lemma fileStore_update_step (f f' : fileStore) (h : heap) (l : loc)
    (e : option error) :
  fileStore_update f h l = Ret (f', e) →
  ∃ evs, f_log (file f') = f_log (file f) ++ evs ∧
    (Forall (λ ev, w_ok ev = true) evs →
     f_data (file f') = replay (f_data (file f)) evs).
Proof.
  unfold fileStore_update. destruct (h !! l) as [n|]; [|done]. cbn [deref].
  rewrite go_bind_Ret. destruct (btree_encode n) as [buf|]; [|done].
  rewrite go_bind_Ret.
  destruct (WriteAt _ _ _) as [fl err] eqn:Hw.
  apply WriteAt_step in Hw as (ok & Hlog & _ & Hdata).
  unfold fileStore_setCache.
  destruct (lru_set _ _ _ l) as [c okc].
  intros Hupd. assert (Hfile : file f' = fl).
  { destruct okc; simpl in Hupd; revert Hupd; by intros [= <- _]. }
  rewrite Hfile. eexists. split; [exact Hlog|].
  intros Hok. rewrite Forall_singleton in Hok. simpl in Hok.
  unfold replay. simpl. by apply Hdata.
Qed.

Lemma flushPages_loop_step (order : list Z) (f f' : fileStore) (h h' : heap)
    (e : option error) :
  forEach flushPages_iter order (f, h) = Ret ((f', h'), e) →
  ∃ evs, f_log (file f') = f_log (file f) ++ evs ∧
    (Forall (λ ev, w_ok ev = true) evs →
     f_data (file f') = replay (f_data (file f)) evs).
Proof.
  revert f h. induction order as [|k order IH]; intros f h.
  - intros [= <- <- <-]. exists []. by rewrite app_nil_r.
  - rewrite forEach_cons.
    destruct (flushPages_iter k (f, h)) as [[[f1 h1] e1]|] eqn:Hiter; [|done].
    rewrite go_bind_Ret. cbn [fst snd].
    assert (Hstep1 : ∃ evs, f_log (file f1) = f_log (file f) ++ evs ∧
              (Forall (λ ev, w_ok ev = true) evs →
               f_data (file f1) = replay (f_data (file f)) evs)).
    { unfold flushPages_iter in Hiter.
      destruct (lru_find (cache f) k) as [[i v]|];
        [|injection Hiter as <- _ _; exists []; by rewrite app_nil_r].
      destruct (h !! ce_val v) as [n|]; [|done]. cbn [deref] in Hiter.
      rewrite go_bind_Ret in Hiter.
      destruct (btree_isDirty n); cbn [negb] in Hiter;
        [|injection Hiter as <- _ _; exists []; by rewrite app_nil_r].
      destruct (fileStore_update f h (ce_val v)) as [[f2 e2]|] eqn:Hupd; [|done].
      rewrite go_bind_Ret in Hiter. cbn [fst snd] in Hiter.
      apply fileStore_update_step in Hupd.
      by destruct e2; injection Hiter as <- _ _. }
    destruct Hstep1 as (evs1 & Hlog1 & Hdata1).
    destruct e1.
    + intros [= <- <- <-]. eauto.
    + intros Hrest. destruct (IH _ _ Hrest) as (evs2 & Hlog2 & Hdata2).
      exists (evs1 ++ evs2). split; [by rewrite Hlog2, Hlog1, app_assoc|].
      by apply (file_step_trans _ (f_data (file f1))).
Qed.

Lemma cachedDirty_same_offset (c : LRUCache) (h : heap) (l1 l2 : loc)
    (n1 n2 : btreeNode) :
  cache_ok c h → cachedDirty c h l1 n1 → cachedDirty c h l2 n2 →
  btree_getFileOffset n1 = btree_getFileOffset n2 → n1 = n2.
Proof.
  intros [Hnd Hall] ((e1 & He1 & <-) & Hn1 & _) ((e2 & He2 & <-) & Hn2 & _) Ho.
  rewrite Forall_forall in Hall.
  destruct (Hall e1 He1) as (m1 & Hm1 & Hk1).
  destruct (Hall e2 He2) as (m2 & Hm2 & Hk2).
  assert (m1 = n1) as -> by congruence. assert (m2 = n2) as -> by congruence.
  assert (Some e1 = Some e2) as [= ->]; [|congruence].
  rewrite <-(lru_lookup_elem c e1), <-(lru_lookup_elem c e2) by done.
  congruence.
Qed.

Lemma btree_storable_roundtrip (n : btreeNode) :
  btree_storable n →
  ∃ buf n',
    btree_encode n = Ret buf ∧ len buf = pageSize ∧
    decodePage buf = Ret (n', None) ∧
    btree_same n n' ∧ btree_isDirty n' = false ∧ btree_valid n'.
Proof.
  intros (Ht & Hv & Hn & Hfit & Hc).
  assert (Hrt : ∃ buf n',
    btree_encode n = Ret buf ∧ decodePage buf = Ret (n', None) ∧
    btree_same n n' ∧ btree_isDirty n' = false ∧ btree_valid n').
  { destruct n as [p|p].
    - destruct (internalNode_roundtrip p Ht Hv Hn Hc)
        as (buf & p' & Henc & Hdec & Hsame & Hd & Hv' & Hhd).
      exists buf, (Internal p'). split; [done|]. split; [|done].
      unfold decodePage. destruct buf as [|b buf]; [done|].
      injection Hhd as Hb. change (index (b :: buf) 0) with (Ret b).
      rewrite go_bind_Ret, decide_True by done. by rewrite Hdec.
    - destruct (leafNode_roundtrip p Ht Hv Hn Hfit Hc)
        as (buf & p' & Henc & Hdec & Hsame & Hd & Hv' & Hhd).
      exists buf, (Leaf p'). split; [done|]. split; [|done].
      unfold decodePage. destruct buf as [|b buf]; [done|].
      injection Hhd as Hb. change (index (b :: buf) 0) with (Ret b).
      rewrite go_bind_Ret, decide_False by (rewrite Hb; done).
      rewrite decide_True by done. by rewrite Hdec. }
  destruct Hrt as (buf & n' & Henc & Hrest). exists buf, n'.
  split; [done|]. split; [by eapply btree_encode_len|done].
Qed.

(** [fetch] on a freshly opened store over a file that holds the page of
    a storable node at the node's offset. *)
Lemma fetch_fresh_page (data : list byte) (faults : list (option nat))
    (h2 : heap) (n : btreeNode) (buf : list byte) :
  btree_storable n → btree_getFileOffset n < 2 ^ 63 →
  btree_encode n = Ret buf → page_at data (btree_getFileOffset n) buf →
  ∃ g n',
    fileStore_fetch (newFileStore data faults) h2 (btree_getFileOffset n)
    = Ret (g, <[fresh (dom h2) := n']> h2, (Some (fresh (dom h2)), None)) ∧
    btree_same n n' ∧ btree_isDirty n' = false ∧ btree_valid n'.
Proof.
  intros Hst Hoff Henc Hpage.
  destruct (btree_storable_roundtrip n Hst)
    as (buf' & n' & Henc' & Hlen & Hdec & Hsame & Hdirty & Hv').
  assert (buf' = buf) as -> by congruence.
  assert (Hoff' : 0 ≤ btree_getFileOffset n < 2 ^ 63)
    by (split; [apply Hpage | done]).
  assert (Hfo : btree_getFileOffset n' = btree_getFileOffset n)
    by (by destruct Hsame as [Hfo _]).
  exists (fileStore_set_cache (newFileStore data faults)
            (mkLRU 10000 [mkEntry (btree_getFileOffset n) (fresh (dom h2))])),
    n'.
  split; [|done].
  unfold fileStore_fetch. cbn [newFileStore cache NewLRU lru_get lru_find
    lru_entries list_find fmap option_fmap option_map fileStore_set_cache file
    lastKey rootOffset nextFreeOffset pageTableRoot _nextLSN].
  rewrite int64_small by done.
  replace (Z.to_nat pageSize) with (length buf) by (unfold len in Hlen; lia).
  rewrite (ReadAt_page_at _ buf) by done.
  rewrite Hdec, go_bind_Ret. cbn [fst snd]. cbv zeta.
  unfold fileStore_setCache, lru_set. cbn [cache lru_find lru_entries list_find
    fmap option_fmap option_map lru_cap].
  rewrite Hfo. done.
Qed.

(** X18. Flush, then fetch from the file. When the resident pages lie on page
    boundaries behind the header page and every dirty resident node is one
    the codec round trip covers, a [flushPages] that returns nil has made
    every such node durable: [fetch] of its file offset on a freshly
    opened store over the resulting file returns nil and a new clean node
    with the same header fields, slot array and cells in slot order. *)
Theorem flushPages_then_fetch (order : list Z) (f f' : fileStore)
    (h h' : heap) :
  cache_ok (cache f) h → cache_aligned (cache f) →
  (∀ l n, cachedDirty (cache f) h l n → btree_storable n) →
  order ≡ₚ ce_key <$> lru_entries (cache f) →
  fileStore_flushPages order f h = Ret (f', h', None) →
  ∀ l n, cachedDirty (cache f) h l n →
  ∀ (faults : list (option nat)) (h2 : heap), ∃ g n',
    fileStore_fetch (newFileStore (f_data (file f')) faults) h2
      (btree_getFileOffset n)
    = Ret (g, <[fresh (dom h2) := n']> h2, (Some (fresh (dom h2)), None)) ∧
    btree_same n n' ∧ btree_isDirty n' = false ∧ btree_valid n'.
Proof.
  intros Hok Halign Hst Horder Hflush l n Hcd faults h2.
  assert (Henc : cache_encodable (cache f) h).
  { apply Forall_forall. intros e He m Hm Hd.
    destruct (btree_storable_roundtrip m) as (buf & _ & Hb & _); [|eauto].
    apply (Hst (ce_val e)). split; [eauto|done]. }
  assert (Hoffs : ∀ l1 n1, cachedDirty (cache f) h l1 n1 →
            pageSize ≤ btree_getFileOffset n1 < 2 ^ 63 ∧
            btree_getFileOffset n1 mod pageSize = 0).
  { intros l1 n1 ((e & He & <-) & Hn1 & _).
    destruct Hok as [_ Hall]. rewrite Forall_forall in Hall.
    destruct (Hall e He) as (m & Hm & Hk). assert (m = n1) as -> by congruence.
    unfold cache_aligned in Halign. rewrite Forall_forall in Halign.
    rewrite Hk. by apply Halign. }
  (* the loop and the header write *)
  assert (Hinv : flush_inv f h f h []).
  { split; [done|]. split; [done|]. split; [by rewrite app_nil_r|].
    split; [by left|]. split; constructor. }
  assert (Hrest : Forall (λ k, is_Some (lru_lookup (cache f) k)) order).
  { apply Forall_forall. intros k Hk. rewrite Horder in Hk.
    apply list_elem_of_fmap in Hk as (e & -> & He).
    rewrite (lru_lookup_elem _ e); [eauto | apply Hok | done]. }
  destruct (flush_loop_spec f h Hok Henc order f h [] Hinv Hrest)
    as (f1 & h1 & err1 & Hloop & _ & Hpost).
  unfold fileStore_flushPages in Hflush. rewrite Hloop in Hflush.
  rewrite go_bind_Ret in Hflush. cbn [fst snd] in Hflush.
  destruct err1 as [err1|]; [done|].
  destruct Hpost as (pages & (Hlook & Hhdr & Hlog & Hheap & Hpages & Hoks)
                     & Hkeys). simpl in Hlog.
  unfold fileStore_save in Hflush.
  destruct (WriteAt (file f1) (headerBytes f1) 0) as [fl err] eqn:Hw.
  injection Hflush as <- <- ->.
  apply WriteAt_step in Hw as (ok & Hlogw & Hokw & Hdataw).
  specialize (Hokw eq_refl). subst ok. specialize (Hdataw eq_refl).
  destruct (flushPages_loop_step _ _ _ _ _ _ Hloop) as (evs & Hlog' & Hdata).
  assert (evs = pages) as -> by (rewrite Hlog in Hlog'; by apply app_inv_head in Hlog').
  specialize (Hdata Hoks).
  cbn [file fileStore_set_file].
  (* the page write of [n] *)
  pose proof (Hst l n Hcd) as Hstn.
  destruct (btree_storable_roundtrip n Hstn) as (buf & _ & Hbuf & Hlen & _).
  destruct (Hoffs l n Hcd) as [Hrange Hmod].
  change pageSize with 4096 in *.
  assert (Hev : ∃ ev, ev ∈ pages ∧ w_off ev = btree_getFileOffset n ∧
                      w_data ev = buf).
  { pose proof Hcd as ((e & He & <-) & Hn & Hd).
    assert (Hk : ce_key e ∈ order).
    { rewrite Horder. apply list_elem_of_fmap. eauto. }
    destruct (Hkeys (ce_key e) e Hk) as (n' & Hn' & Hd').
    { apply lru_lookup_elem; [apply Hok | done]. }
    destruct (Hheap (ce_val e)) as [Heq|(n2 & ev & Hcd2 & Hl2 & [Hpw Hpo] & _ & Hin)].
    - rewrite Heq, Hn in Hn'. injection Hn' as <-. congruence.
    - destruct Hcd2 as (_ & Hn2 & _). rewrite Hn in Hn2. injection Hn2 as <-.
      exists ev. split; [done|]. rewrite Hpo, int64_small by lia.
      split; [done|]. congruence. }
  assert (Hbne : buf ≠ []) by (intros ->; done).
  apply fetch_fresh_page with (buf := buf); [done|lia|done|].
  rewrite Hdataw, Hdata.
  apply page_at_write_other; [|lia|].
  - apply page_at_replay; [done|lia| |done].
    apply Forall_forall. intros ev Hin.
    unfold pages_of in Hpages. rewrite Forall_forall in Hpages.
    destruct (Hpages ev Hin) as (l1 & n1 & Hcd1 & Hpw1 & Hpo1).
    destruct (Hoffs l1 n1 Hcd1) as [Hrange1 Hmod1].
    rewrite Hpo1, int64_small by lia. split; [lia|].
    pose proof (btree_encode_len _ _ Hpw1) as Hlen1.
    change pageSize with 4096 in Hlen1.
    destruct (decide (btree_getFileOffset n1 = btree_getFileOffset n)) as [Heq|Hne].
    + left. split; [done|].
      assert (n1 = n) as -> by (by eapply cachedDirty_same_offset).
      congruence.
    + right. rewrite Hlen1, Hlen.
      apply Z.mod_divide in Hmod, Hmod1; try lia.
      destruct Hmod as [a Ha], Hmod1 as [a1 Ha1]. lia.
  - left. unfold len. rewrite length_headerBytes. lia.
Qed.

Lemma ex_cached_store_storable (faults : list (option nat)) :
  ∀ l n, cachedDirty (cache (ex_cached_store faults)) ex_heap l n →
         btree_storable n.
Proof.
  intros l n ((e & He & <-) & Hn & Hd).
  apply elem_of_cons in He as [->|He].
  { simpl in Hn. vm_compute in Hn. injection Hn as <-. discriminate. }
  apply list_elem_of_singleton in He as ->.
  simpl in Hn. vm_compute in Hn. injection Hn as <-.
  split; [|split; [by_compute|split; [vm_compute; discriminate|split;
    [by_compute|repeat constructor]]]].
  unfold btree_typed, node_typed. simpl.
  split; [lia|]. split; [lia|]. split; [lia|].
  repeat constructor; simpl; try lia; done.
Qed.

Lemma flushPages_then_fetch_witness :
  ∃ f' h' g n',
    fileStore_flushPages [8192; 4096] (ex_cached_store []) ex_heap
      = Ret (f', h', None) ∧
    fileStore_fetch (newFileStore (f_data (file f')) []) ∅ 4096
    = Ret (g, <[fresh (dom (∅ : heap)) := n']> ∅,
           (Some (fresh (dom (∅ : heap))), None)) ∧
    btree_isDirty n' = false.
Proof.
  destruct (fileStore_flushPages [8192; 4096] (ex_cached_store []) ex_heap)
    as [[[f' h'] [e|]]|] eqn:E; try (vm_compute in E; discriminate).
  destruct (flushPages_then_fetch [8192; 4096] (ex_cached_store []) f'
              ex_heap h' (proj1 (ex_cached_store_ok []))) with
      (l := 0%nat)
      (n := Leaf (mkLeaf (mkNode 4096 [0] 0 true 1)
                    [Some (mkLeafCell 1 1 ["a"%byte] false)]
                    false false 0 0))
      (faults := @nil (option nat)) (h2 := (∅ : heap))
    as (g & n' & Hfetch & _ & Hd & _).
  - repeat constructor; vm_compute; congruence.
  - apply ex_cached_store_storable.
  - reflexivity.
  - exact E.
  - split; [|split; reflexivity].
    exists (mkEntry 4096 0%nat). split; [|reflexivity].
    apply elem_of_cons. right. apply elem_of_cons. by left.
  - exists f', h', g, n'. split; [reflexivity|].
    split; [exact Hfetch | exact Hd].
Defined.

(** ** Opening a store *)

Lemma File_binary_Read_cases (w : nat) (data : list byte) (pos : Z)
    (faults : list (option nat)) (log : list writeEvent) :
  (0 < w)%nat → 0 ≤ pos →
  File_binary_Read w (mkFile data pos faults log) =
  if decide (len data ≤ pos) then (mkFile data pos faults log, inr ErrEOF)
  else if decide (len data < pos + Z.of_nat w) then
    (mkFile data (len data) faults log, inr ErrUnexpectedEOF)
  else (mkFile data (pos + Z.of_nat w) faults log,
        inl (getUint (take w (drop (Z.to_nat pos) data)))).
Proof.
  intros Hw Hpos. unfold File_binary_Read. cbn [f_pos f_data f_faults f_log].
  destruct (drop (Z.to_nat pos) data) as [|b rest] eqn:Hd.
  - rewrite decide_True; [done|].
    apply (f_equal length) in Hd. rewrite length_drop in Hd.
    unfold len. simpl in Hd. lia.
  - assert (Hl : length (b :: rest) = (length data - Z.to_nat pos)%nat)
      by (by rewrite <-Hd, length_drop).
    simpl in Hl.
    rewrite (decide_False (P := len data ≤ pos)) by (unfold len; lia).
    destruct (decide (length (b :: rest) < w)%nat) as [Hlt|Hlt]; simpl in Hlt.
    + rewrite decide_True by (unfold len; lia). done.
    + rewrite decide_False by (unfold len; lia). done.
Qed.

(** X19. [open] needs the whole header. On a freshly opened store, [open]
    returns nil exactly when the file holds at least 28 bytes; on an empty
    file it returns [io.EOF] and changes no field; on a file cut inside the
    header it returns [io.ErrUnexpectedEOF], or [io.EOF] when the cut is
    at a field boundary. *)
Theorem fileStore_open_needs_header (data : list byte)
    (faults : list (option nat)) :
  ((∃ g, fileStore_open (newFileStore data faults) = (g, None))
   ↔ 28 ≤ len data) ∧
  (data = [] →
     fileStore_open (newFileStore data faults)
     = (newFileStore data faults, Some ErrEOF)) ∧
  (len data < 28 →
     ∃ g e, fileStore_open (newFileStore data faults) = (g, Some e) ∧
       (e = ErrEOF ∨ e = ErrUnexpectedEOF) ∧
       (e = ErrEOF ↔ len data ∈ [0; 4; 12; 20])).
Proof.
  assert (H0 : 0 ≤ len data) by (unfold len; lia).
  unfold fileStore_open, newFileStore.
  cbn [file lastKey rootOffset nextFreeOffset pageTableRoot cache _nextLSN
       fileStore_set_file].
  rewrite File_binary_Read_cases by lia.
  destruct (decide (len data ≤ 0)) as [Hz|Hz].
  { assert (data = []) as -> by (destruct data; [done|unfold len in Hz; simpl in Hz; lia]).
    split; [|split].
    - split; [by intros [g [=]] | unfold len; simpl; lia].
    - done.
    - intros _. eexists _, _. split; [done|]. split; [by left|].
      split; [intros _; by left | done]. }
  assert (Hne : data ≠ []) by (intros ->; unfold len in Hz; simpl in Hz; lia).
  destruct (decide (len data < 0 + Z.of_nat 4)) as [H4|H4].
  { split; [|split; [done|]].
    - split; [by intros [g [=]] | lia].
    - intros _. eexists _, _. split; [done|]. split; [by right|].
      split; [done|]. rewrite !elem_of_cons, elem_of_nil. lia. }
  cbn [file lastKey rootOffset nextFreeOffset pageTableRoot cache _nextLSN
       fileStore_set_file].
  rewrite File_binary_Read_cases by lia.
  destruct (decide (len data ≤ 0 + Z.of_nat 4)) as [H4'|H4'].
  { split; [|split; [done|]].
    - split; [by intros [g [=]] | lia].
    - intros _. eexists _, _. split; [done|]. split; [by left|].
      split; [intros _|done]. rewrite !elem_of_cons. right. left. lia. }
  destruct (decide (len data < 0 + Z.of_nat 4 + Z.of_nat 8)) as [H12|H12].
  { split; [|split; [done|]].
    - split; [by intros [g [=]] | lia].
    - intros _. eexists _, _. split; [done|]. split; [by right|].
      split; [done|]. rewrite !elem_of_cons, elem_of_nil. lia. }
  cbn [file lastKey rootOffset nextFreeOffset pageTableRoot cache _nextLSN
       fileStore_set_file].
  rewrite File_binary_Read_cases by lia.
  destruct (decide (len data ≤ 0 + Z.of_nat 4 + Z.of_nat 8)) as [H12'|H12'].
  { split; [|split; [done|]].
    - split; [by intros [g [=]] | lia].
    - intros _. eexists _, _. split; [done|]. split; [by left|].
      split; [intros _|done]. rewrite !elem_of_cons. right. right. left. lia. }
  destruct (decide (len data < 0 + Z.of_nat 4 + Z.of_nat 8 + Z.of_nat 8))
    as [H20|H20].
  { split; [|split; [done|]].
    - split; [by intros [g [=]] | lia].
    - intros _. eexists _, _. split; [done|]. split; [by right|].
      split; [done|]. rewrite !elem_of_cons, elem_of_nil. lia. }
  cbn [file lastKey rootOffset nextFreeOffset pageTableRoot cache _nextLSN
       fileStore_set_file].
  rewrite File_binary_Read_cases by lia.
  destruct (decide (len data ≤ 0 + Z.of_nat 4 + Z.of_nat 8 + Z.of_nat 8))
    as [H20'|H20'].
  { split; [|split; [done|]].
    - split; [by intros [g [=]] | lia].
    - intros _. eexists _, _. split; [done|]. split; [by left|].
      split; [intros _|done]. rewrite !elem_of_cons. do 3 right. left. lia. }
  destruct (decide (len data < 0 + Z.of_nat 4 + Z.of_nat 8 + Z.of_nat 8
                               + Z.of_nat 8)) as [H28|H28].
  { split; [|split; [done|]].
    - split; [by intros [g [=]] | lia].
    - intros _. eexists _, _. split; [done|]. split; [by right|].
      split; [done|]. rewrite !elem_of_cons, elem_of_nil. lia. }
  split; [|split; [done|lia]].
  split; [lia|]. intros _. by eexists.
Qed.

Lemma fileStore_open_needs_header_witness :
  fileStore_open (newFileStore [] []) = (newFileStore [] [], Some ErrEOF) ∧
  ¬ ∃ g, fileStore_open (newFileStore (replicate 27 x00) []) = (g, None).
Proof.
  split.
  - apply (proj1 (proj2 (fileStore_open_needs_header [] []))). reflexivity.
  - intros Hg.
    apply (proj1 (proj1 (fileStore_open_needs_header (replicate 27 x00) [])))
      in Hg.
    vm_compute in Hg. apply Hg. reflexivity.
Defined.

(** ** Closing and reopening a store *)

Lemma fileStore_update_header (f f' : fileStore) (h : heap) (l : loc)
    (e : option error) :
  fileStore_update f h l = Ret (f', e) → headerBytes f' = headerBytes f.
Proof.
  unfold fileStore_update. destruct (h !! l) as [n|]; [|done]. cbn [deref].
  rewrite go_bind_Ret. destruct (btree_encode n) as [buf|]; [|done].
  rewrite go_bind_Ret. destruct (WriteAt _ _ _) as [fl err].
  unfold fileStore_setCache. destruct (lru_set _ _ _ l) as [c okc].
  destruct okc; simpl; by intros [= <- _].
Qed.

Lemma flushPages_loop_header (order : list Z) (f f' : fileStore) (h h' : heap)
    (e : option error) :
  forEach flushPages_iter order (f, h) = Ret ((f', h'), e) →
  headerBytes f' = headerBytes f.
Proof.
  revert f h. induction order as [|k order IH]; intros f h.
  - by intros [= <- <- <-].
  - rewrite forEach_cons.
    destruct (flushPages_iter k (f, h)) as [[[f1 h1] e1]|] eqn:Hiter; [|done].
    rewrite go_bind_Ret. cbn [fst snd].
    assert (Hstep1 : headerBytes f1 = headerBytes f).
    { unfold flushPages_iter in Hiter.
      destruct (lru_find (cache f) k) as [[i v]|];
        [|by injection Hiter as <- _ _].
      destruct (h !! ce_val v) as [n|]; [|done]. cbn [deref] in Hiter.
      rewrite go_bind_Ret in Hiter.
      destruct (btree_isDirty n); cbn [negb] in Hiter;
        [|by injection Hiter as <- _ _].
      destruct (fileStore_update f h (ce_val v)) as [[f2 e2]|] eqn:Hupd; [|done].
      rewrite go_bind_Ret in Hiter. cbn [fst snd] in Hiter.
      apply fileStore_update_header in Hupd.
      by destruct e2; injection Hiter as <- _ _. }
    destruct e1.
    + by intros [= <- <- <-].
    + intros Hrest. rewrite <-Hstep1. by eapply IH.
Qed.

(** [open] on a fresh store over a file that starts with a header. *)
Lemma fileStore_open_header (f : fileStore) (tail : list byte)
    (faults : list (option nat)) :
  store_typed f →
  ∃ g, fileStore_open (newFileStore (headerBytes f ++ tail) faults) = (g, None) ∧
       lastKey g = lastKey f ∧ pageTableRoot g = pageTableRoot f ∧
       nextFreeOffset g = nextFreeOffset f ∧ _nextLSN g = _nextLSN f.
Proof.
  intros (Hk & Hr & Hn & Hl). rewrite headerBytes_eq. rewrite <-!app_assoc.
  set (A := putUint 4 (lastKey f)). set (B := putUint 8 (pageTableRoot f)).
  set (C := putUint 8 (nextFreeOffset f)). set (D := putUint 8 (_nextLSN f)).
  assert (Hla : length A = 4%nat) by apply length_putUint.
  assert (Hlb : length B = 8%nat) by apply length_putUint.
  assert (Hlc : length C = 8%nat) by apply length_putUint.
  unfold fileStore_open, newFileStore. simpl file.
  rewrite (File_binary_Read_at 4 (lastKey f) _ [] (B ++ C ++ D ++ tail));
    [|lia|done|done|done].
  simpl file.
  rewrite (File_binary_Read_at 8 (pageTableRoot f) _ A (C ++ D ++ tail));
    [|lia|done|done|by unfold len; rewrite Hla].
  simpl file.
  rewrite (File_binary_Read_at 8 (nextFreeOffset f) _ (A ++ B) (D ++ tail));
    [|lia|done|by rewrite <-!app_assoc
     |by unfold len; rewrite length_app, Hla, Hlb].
  simpl file.
  rewrite (File_binary_Read_at 8 (_nextLSN f) _ (A ++ B ++ C) tail);
    [|lia|done|by rewrite <-!app_assoc
     |by unfold len; rewrite !length_app, Hla, Hlb, Hlc].
  eexists. split; [reflexivity|]. done.
Qed.

(** X20. Close, then reopen. The header fields stay within their Go types under
    [incrementLastKey] and [incrLSN], which wrap around. When [close] of a
    store with such fields returns nil, whatever the cache held, the file
    starts with the header: [open] on a freshly opened store over it
    returns nil, and [getLastKey], [nextLSN], the page table root and the
    next free offset are those of the closed store. *)
Theorem fileStore_close_then_open (order : list Z) (f f' : fileStore)
    (h h' : heap) (faults : list (option nat)) :
  store_typed f →
  fileStore_close order f h = Ret (f', h', None) →
  store_typed (fileStore_incrementLastKey f).1 ∧
  store_typed (fileStore_incrLSN f) ∧
  ∃ g, fileStore_open (newFileStore (f_data (file f')) faults) = (g, None) ∧
       fileStore_getLastKey g = fileStore_getLastKey f ∧
       fileStore_nextLSN g = fileStore_nextLSN f ∧
       pageTableRoot g = pageTableRoot f ∧
       nextFreeOffset g = nextFreeOffset f.
Proof.
  intros Ht Hclose.
  split; [|split].
  - destruct Ht as (Hk & Hr & Hn & Hl).
    split; [|split; [done|split; done]].
    cbn [fst lastKey fileStore_incrementLastKey]. unfold uint32.
    change (2 ^ 32) with 4294967296. apply Z.mod_pos_bound. lia.
  - destruct Ht as (Hk & Hr & Hn & Hl).
    split; [done|split; [done|split; [done|]]].
    cbn [_nextLSN fileStore_incrLSN]. unfold uint64.
    change (2 ^ 64) with 18446744073709551616. apply Z.mod_pos_bound. lia.
  - unfold fileStore_close, fileStore_flushPages in Hclose.
    destruct (forEach flushPages_iter order (f, h)) as [[[f1 h1] e1]|] eqn:Hloop;
      [|done].
    rewrite go_bind_Ret in Hclose. cbn [fst snd] in Hclose.
    destruct e1; [done|].
    apply flushPages_loop_header in Hloop.
    unfold fileStore_save in Hclose.
    destruct (WriteAt (file f1) (headerBytes f1) 0) as [fl err] eqn:Hw.
    injection Hclose as <- _ ->.
    apply WriteAt_ok in Hw as (_ & Hdata & _).
    assert (Hne : headerBytes f1 ≠ []).
    { intros E. apply (f_equal length) in E. by rewrite length_headerBytes in E. }
    rewrite (write_at_start _ _ Hne), Hloop in Hdata.
    cbn [file fileStore_set_file]. rewrite Hdata.
    destruct (fileStore_open_header f (drop (length (headerBytes f))
                                         (f_data (file f1))) faults Ht)
      as (g & Hopen & Hk & Hr & Hn & Hl).
    exists g. done.
Qed.

Lemma fileStore_close_then_open_witness :
  ∃ f' h' g,
    fileStore_close [8192; 4096] (ex_cached_store []) ex_heap
      = Ret (f', h', None) ∧
    fileStore_open (newFileStore (f_data (file f')) []) = (g, None) ∧
    fileStore_getLastKey g = 7 ∧ fileStore_nextLSN g = 2.
Proof.
  destruct (fileStore_close [8192; 4096] (ex_cached_store []) ex_heap)
    as [[[f' h'] [e|]]|] eqn:E; try (vm_compute in E; discriminate).
  destruct (fileStore_close_then_open [8192; 4096] (ex_cached_store []) f'
              ex_heap h' [])
    as (_ & _ & g & Hopen & Hk & Hl & _).
  - split; [|split; [|split]]; split; vm_compute; congruence.
  - exact E.
  - exists f', h', g. split; [reflexivity|]. split; [exact Hopen|].
    split; [exact Hk | exact Hl].
Defined.

(** ** The root offset is not part of the header *)

(** X21. [setRoot] records the file offset of the node, but [save] and [open]
    do not carry it: the file that [save] leaves is the same whatever root
    was set, and on a freshly opened store over that file [open] leaves the
    root offset at 0, so that [getRoot] fetches offset 0 and not the
    offset of the root that was set. *)
Theorem rootOffset_not_persisted (f : fileStore) (h : heap) (l : loc)
    (n : btreeNode) (faults : list (option nat)) :
  h !! l = Some n →
  ∃ f1, fileStore_setRoot f h l = Ret f1 ∧
    rootOffset f1 = btree_getFileOffset n ∧
    f_data (file (fileStore_save f1).1) = f_data (file (fileStore_save f).1) ∧
    ∀ h2 : heap,
      let g := (fileStore_open
                  (newFileStore (f_data (file (fileStore_save f1).1)) faults)).1
      in rootOffset g = 0 ∧ fileStore_getRoot g h2 = fileStore_fetch g h2 0.
Proof.
  intros Hl. unfold fileStore_setRoot. rewrite Hl. cbn [deref].
  rewrite go_bind_Ret. eexists. split; [reflexivity|]. split; [reflexivity|].
  split.
  - unfold fileStore_save, headerBytes. cbn [file lastKey nextFreeOffset
      pageTableRoot _nextLSN].
    by destruct (WriteAt _ _ _).
  - intros h2.
    set (data := f_data (file (fileStore_save _).1)).
    assert (Hroot : rootOffset (fileStore_open (newFileStore data faults)).1 = 0).
    { unfold fileStore_open, newFileStore.
      cbn [file lastKey rootOffset nextFreeOffset pageTableRoot cache _nextLSN
           fileStore_set_file].
      repeat (destruct (File_binary_Read _ _) as [? [?|?]];
              cbn [file lastKey rootOffset nextFreeOffset pageTableRoot cache
                   _nextLSN fileStore_set_file fst]; try done). }
    cbv zeta. split; [exact Hroot|].
    unfold fileStore_getRoot. by rewrite Hroot.
Qed.

Lemma rootOffset_not_persisted_witness :
  ∃ f1, fileStore_setRoot (ex_cached_store []) ex_heap 0%nat = Ret f1 ∧
    rootOffset f1 = 4096 ∧
    rootOffset (fileStore_open
                  (newFileStore (f_data (file (fileStore_save f1).1)) [])).1
    = 0.
Proof.
  destruct (rootOffset_not_persisted (ex_cached_store []) ex_heap 0%nat
              (Leaf (mkLeaf (mkNode 4096 [0] 0 true 1)
                       [Some (mkLeafCell 1 1 ["a"%byte] false)]
                       false false 0 0)) [])
    as (f1 & Hset & Hroot & _ & Hopen).
  - reflexivity.
  - exists f1. split; [exact Hset|]. split; [exact Hroot|].
    apply (Hopen ∅).
Defined.

(** ** The in-memory store *)

(** X22. Append, then fetch. [append] of a live node returns nil, stores the
    page count in the node as its file offset and adds the node as the
    last page; [fetch] of that offset returns the same node object, and
    every page that could be fetched before is fetched as before. *)
Theorem memoryStore_append_then_fetch (m : memoryStore) (h : heap) (l : loc)
    (n : btreeNode) :
  h !! l = Some n → len (ms_pages m) < 2 ^ 63 →
  ∃ m' h',
    memoryStore_append m h l = Ret (m', h', None) ∧
    h' = <[l := btree_setFileOffset n (len (ms_pages m))]> h ∧
    memoryStore_fetch m' (len (ms_pages m)) = Ret (Some l) ∧
    (∀ offset l', memoryStore_fetch m offset = Ret (Some l') →
                  memoryStore_fetch m' offset = Ret (Some l')).
Proof.
  intros Hl Hlen. assert (0 ≤ len (ms_pages m)) by (unfold len; lia).
  unfold memoryStore_append. rewrite Hl. cbn [deref]. rewrite go_bind_Ret.
  cbv zeta. eexists _, _. split; [reflexivity|].
  change (2 ^ 63) with 9223372036854775808 in Hlen.
  assert (Hu : uint64 (len (ms_pages m)) = len (ms_pages m))
    by (unfold uint64; rewrite Z.mod_small; lia).
  rewrite Hu. split; [done|split].
  - unfold memoryStore_fetch. cbn [ms_pages].
    rewrite int64_small by (change (2 ^ 63) with 9223372036854775808; lia).
    rewrite decide_False by (unfold len; rewrite length_app; simpl; lia).
    assert (Hidx : index (ms_pages m ++ [l]) (len (ms_pages m)) = Ret l).
    { apply index_Ret. split; [done|]. unfold len. rewrite Nat2Z.id.
      by rewrite lookup_app_r, Nat.sub_diag. }
    by rewrite Hidx.
  - intros offset l'. unfold memoryStore_fetch. cbn [ms_pages].
    case_decide as Hge; [done|].
    destruct (index (ms_pages m) offset) as [x|] eqn:Hx; [|done].
    simpl. intros [= ->]. apply index_Ret in Hx as [H0 Hx].
    pose proof (lookup_lt_Some _ _ _ Hx) as Hlt.
    rewrite decide_False by (unfold len in *; rewrite length_app; simpl; lia).
    assert (Hidx : index (ms_pages m ++ [l]) offset = Ret l').
    { apply index_Ret. split; [done|]. by rewrite lookup_app_l. }
    by rewrite Hidx.
Qed.

Lemma memoryStore_append_then_fetch_witness :
  ∃ m' h',
    memoryStore_append (mkMemoryStore [1%nat] 0) ex_heap 0%nat
      = Ret (m', h', None) ∧
    memoryStore_fetch m' 1 = Ret (Some 0%nat) ∧
    memoryStore_fetch m' 0 = Ret (Some 1%nat).
Proof.
  destruct (memoryStore_append_then_fetch (mkMemoryStore [1%nat] 0) ex_heap
              0%nat (Leaf (mkLeaf (mkNode 4096 [0] 0 true 1)
                             [Some (mkLeafCell 1 1 ["a"%byte] false)]
                             false false 0 0)))
    as (m' & h' & Happ & _ & Hnew & Hold).
  - reflexivity.
  - reflexivity.
  - exists m', h'. split; [exact Happ|]. split; [exact Hnew|].
    apply Hold. reflexivity.
Defined.

(** X23. [fetch] by offset range. An offset below the page count yields that
    page; an offset from the page count up to 2^63 - 1 yields the error
    [page does not exist in store]; an offset of 2^63 or more passes the
    guard, because [int(offset)] is negative, and the index expression
    panics. *)
Theorem memoryStore_fetch_cases (m : memoryStore) (offset : Z) :
  len (ms_pages m) < 2 ^ 63 → 0 ≤ offset < 2 ^ 64 →
  (offset < len (ms_pages m) →
     ∃ l, ms_pages m !! Z.to_nat offset = Some l ∧
          memoryStore_fetch m offset = Ret (Some l)) ∧
  (len (ms_pages m) ≤ offset < 2 ^ 63 → memoryStore_fetch m offset = Ret None) ∧
  (2 ^ 63 ≤ offset → memoryStore_fetch m offset = Panic).
Proof.
  change (2 ^ 63) with 9223372036854775808.
  change (2 ^ 64) with 18446744073709551616.
  intros Hlen Hoff. assert (0 ≤ len (ms_pages m)) by (unfold len; lia).
  unfold memoryStore_fetch. split; [|split].
  - intros Hlt.
    rewrite int64_small by (change (2 ^ 63) with 9223372036854775808; lia).
    rewrite decide_False by lia.
    destruct (index_in_range (ms_pages m) offset) as [l Hl]; [lia|].
    rewrite Hl. exists l. split; [|done]. by apply index_Ret in Hl as [_ ?].
  - intros Hge.
    rewrite int64_small by (change (2 ^ 63) with 9223372036854775808; lia).
    by rewrite decide_True by lia.
  - intros Hbig.
    assert (Hneg : int64 offset < 0).
    { unfold int64.
      replace (offset + 9223372036854775808)
        with (offset - 9223372036854775808 + 1 * 18446744073709551616) by lia.
      rewrite Z.mod_add by lia. rewrite Z.mod_small by lia. lia. }
    rewrite decide_False by lia.
    unfold index. rewrite decide_True by lia.
    rewrite lookup_ge_None_2; [done|]. unfold len in *. lia.
Qed.

Lemma memoryStore_fetch_cases_witness :
  memoryStore_fetch (mkMemoryStore [1%nat] 0) 5 = Ret None ∧
  memoryStore_fetch (mkMemoryStore [1%nat] 0) 9223372036854775808 = Panic.
Proof.
  destruct (memoryStore_fetch_cases (mkMemoryStore [1%nat] 0) 5)
    as (_ & Herr & _).
  - reflexivity.
  - split; [discriminate | reflexivity].
  - destruct (memoryStore_fetch_cases (mkMemoryStore [1%nat] 0)
                9223372036854775808) as (_ & _ & Hpanic).
    + reflexivity.
    + split; [discriminate | reflexivity].
    + split; [apply Herr; split; [discriminate | reflexivity]|].
      apply Hpanic. discriminate.
Defined.



(** ** The SQL scanner *)

(** X25. The keyword table inverts the token names. Every operator and keyword
    token type is found in [keywords] under its name in [Tokens], and
    every entry of [keywords] maps the name of an operator or keyword
    token type to that type; in particular the names of these token types
    are pairwise different, and [EOF] and the literal types have no
    entry. *)
Theorem keywords_inverts_Tokens :
  (∀ t, sql.IsOperator t = true ∨ sql.IsKeyword t = true →
        sql.keywords !! sql.Tokens_get t = Some t) ∧
  (∀ s t, sql.keywords !! s = Some t →
          sql.Tokens !! t = Some s ∧
          (sql.IsOperator t = true ∨ sql.IsKeyword t = true)).
Proof.
  split.
  - assert (Hall : Forall (λ t, sql.keywords !! sql.Tokens_get t = Some t)
                     (seqZ 7 10 ++ seqZ 19 36)) by by_compute.
    rewrite Forall_forall in Hall. intros t Ht. apply Hall.
    rewrite elem_of_app, !elem_of_seqZ.
    unfold sql.IsOperator, sql.IsKeyword in Ht.
    destruct Ht as [Ht%bool_decide_eq_true|Ht%bool_decide_eq_true];
      cbv [sql.operator_start sql.operator_end sql.keyword_start
           sql.keyword_end] in Ht; lia.
  - assert (Hall : map_Forall (λ s t, sql.Tokens !! t = Some s ∧
                      (sql.IsOperator t = true ∨ sql.IsKeyword t = true))
                     sql.keywords) by by_compute.
    intros s t Hst. by apply Hall.
Qed.

(** X26. The cursor of a token list. With the cursor within the list or just
    behind it, [Add] and [Advance] keep it there, [Cur] and [Prev] never
    panic, and [Advance] returns true exactly when the cursor is on a
    token. On a token, [Peek] returns what [Cur] returns after [Advance],
    [Prev] after [Advance] returns what [Cur] returned before, and when
    [HasNext] holds [Peek] returns the next token of the list. Behind
    the last token [Cur] returns the EOF token and [Advance] changes
    nothing, but [Peek] panics; this includes the empty list. *)
Theorem TokenList_cursor_laws (tl : sql.TokenList) :
  sql.cursor_ok tl →
  sql.cursor_ok (sql.Advance tl).1 ∧
  (∀ t, sql.cursor_ok (sql.Add tl t)) ∧
  ((sql.Advance tl).2 = true ↔ sql.cur tl < len (sql.tokens tl)) ∧
  (∃ t, sql.Cur tl = Ret t) ∧ (∃ t, sql.Prev tl = Ret t) ∧
  (sql.cur tl < len (sql.tokens tl) →
     sql.Peek tl = sql.Cur (sql.Advance tl).1 ∧
     sql.Prev (sql.Advance tl).1 = sql.Cur tl ∧
     (sql.HasNext tl = true →
        ∃ t, sql.Peek tl = Ret t ∧
             sql.tokens tl !! Z.to_nat (sql.cur tl + 1) = Some t)) ∧
  (sql.cur tl = len (sql.tokens tl) →
     sql.Peek tl = Panic ∧ sql.Cur tl = Ret sql.EOFToken ∧
     sql.HasNext tl = false ∧ sql.Advance tl = (tl, false)).
Proof.
  destruct tl as [ts c]. unfold sql.cursor_ok, sql.Advance, sql.Add, sql.Cur,
    sql.Prev, sql.Peek, sql.HasNext. cbn [sql.cur sql.tokens].
  intros Hc.
  split; [case_decide; cbn [fst sql.cur sql.tokens]; lia|].
  split; [intros t; unfold len in *; rewrite length_app; simpl; lia|].
  split; [case_decide; cbn [snd]; split; (done || lia)|].
  split; [case_decide; [eauto|apply index_in_range; lia]|].
  split; [case_decide; [eauto|apply index_in_range; lia]|].
  split.
  - intros Hlt. rewrite (decide_False (P := c = len ts)) by lia.
    cbn [fst sql.cur sql.tokens].
    split; [|split].
    + destruct (decide (c = len ts - 1)).
      * by rewrite decide_True by lia.
      * by rewrite decide_False by lia.
    + rewrite decide_False by lia. rewrite decide_False by lia.
      by replace (c + 1 - 1) with c by lia.
    + intros Hn. apply bool_decide_eq_true in Hn.
      rewrite decide_False by lia.
      destruct (index_in_range ts (c + 1)) as [t Ht]; [lia|].
      exists t. split; [done|]. by apply index_Ret in Ht as [_ ?].
  - intros ->. rewrite decide_False by lia.
    repeat (rewrite decide_True by done).
    split; [|split; [done|split; [apply bool_decide_eq_false; lia|done]]].
    unfold index. rewrite decide_True by (unfold len; lia).
    rewrite lookup_ge_None_2; [done|]. unfold len. lia.
Qed.

Lemma TokenList_cursor_laws_witness :
  sql.Peek (sql.mkTokenList [] 0) = Panic ∧
  sql.Peek (sql.mkTokenList [sql.mkToken sql.SELECT 1 1 EmptyString] 0)
  = Ret sql.EOFToken.
Proof.
  split.
  - apply (TokenList_cursor_laws (sql.mkTokenList [] 0)).
    + split; reflexivity || discriminate.
    + reflexivity.
  - destruct (TokenList_cursor_laws
                (sql.mkTokenList [sql.mkToken sql.SELECT 1 1 EmptyString] 0))
      as (_ & _ & _ & _ & _ & [Hpeek _] & _).
    + split; discriminate.
    + reflexivity.
    + exact Hpeek.
Defined.

(** X27. The tokens of the scanner. Whatever the wrapped scanner reports,
    the token that [tokenScanner.Cur] builds carries the reported position
    and is of exactly one of three kinds: the EOF token, at the end of the
    input; a literal ([IDENT], [INT] or [STR]) carrying the token text,
    where an identifier or other token is a literal only if its text is
    not in the keyword table; or an operator or keyword token, whose type
    is the entry of the keyword table for the text and whose text field
    is empty. *)
Theorem tokenScanner_Cur_classified (c : Z) (text : string) (line col : Z) :
  let tok := sql.tokenScanner_Cur c text line col in
  sql.Line tok = line ∧ sql.Column tok = col ∧
  ((c = sql.scanner_EOF ∧ sql.Type_ tok = sql.EOF ∧
    sql.Text tok = EmptyString) ∨
   (c ≠ sql.scanner_EOF ∧ sql.IsLiteral (sql.Type_ tok) = true ∧
    sql.Text tok = text ∧
    (c = sql.scanner_Int ∨ sql.keywords !! text = None)) ∨
   (c ≠ sql.scanner_EOF ∧ c ≠ sql.scanner_Int ∧
    sql.keywords !! text = Some (sql.Type_ tok) ∧
    sql.Text tok = EmptyString ∧
    sql.IsLiteral (sql.Type_ tok) = false ∧
    (sql.IsOperator (sql.Type_ tok) = true ∨
     sql.IsKeyword (sql.Type_ tok) = true))).
Proof.
  assert (Hkw : ∀ kw, sql.keywords !! text = Some kw →
            sql.IsLiteral kw = false ∧
            (sql.IsOperator kw = true ∨ sql.IsKeyword kw = true)).
  { assert (Hall : map_Forall (λ (_ : string) t, sql.IsLiteral t = false ∧
                      (sql.IsOperator t = true ∨ sql.IsKeyword t = true))
                     sql.keywords) by by_compute.
    intros kw Hk. by apply (Hall text). }
  unfold sql.tokenScanner_Cur. cbv zeta. cbn [sql.Line sql.Column sql.Text].
  revert Hkw. generalize sql.keywords. intros kws Hkw.
  destruct (decide (c = sql.scanner_EOF)) as [->|Hne].
  { cbn [sql.Line sql.Column sql.Text sql.Type_].
    split; [reflexivity|]. split; [reflexivity|]. left.
    split; [reflexivity|]. split; reflexivity. }
  destruct (decide (c = sql.scanner_Ident)) as [->|Hni].
  { destruct (kws !! text) as [kw|] eqn:Hk;
      cbn [sql.Line sql.Column sql.Text sql.Type_];
      (split; [done|]); (split; [done|]); right.
    - right. destruct (Hkw kw eq_refl). done.
    - left. split; [done|]. split; [done|]. split; [done|]. by right. }
  destruct (decide (c = sql.scanner_Int)) as [->|Hnn].
  { cbn [sql.Line sql.Column sql.Text sql.Type_].
    split; [done|]. split; [done|]. right. left.
    split; [done|]. split; [done|]. split; [done|]. by left. }
  destruct (kws !! text) as [kw|] eqn:Hk;
    cbn [sql.Line sql.Column sql.Text sql.Type_];
    (split; [done|]); (split; [done|]); right.
  - right. destruct (Hkw kw eq_refl). done.
  - left. split; [done|]. split; [done|]. split; [done|]. by right.
Qed.
